(** * on2iob: OntoNotes 5 [.name] XML to IOB conversion

    A shallow embedding of [on2iob.py] and the properties of its
    linearizer ([xml2iob] / [tag_text]), document validator
    ([parse_iob_files]), serializer ([write_iob]), partitioner
    ([build_random_partitions]), metrics ([print_metrics]) and command
    ([main]).

    - Python [str] values are modelled by [string]; a character is a code
      point below 256.
    - The accumulator that [xml2iob] mutates is threaded through a
      state-and-exception monad that also records the value of the
      accumulator after every mutation.
    - The XML parser, the file system and the random generator are
      parameters.
    - [build_random_partitions] shuffles a copy in place: its lists are
      objects of a store.  Its fractions are binary64 floats. *)

From Stdlib Require Import Ascii String DecimalString DecimalPos ZArith.
From Stdlib Require Import Floats.SpecFloat.
From stdpp Require Import gmap strings list fin_maps sorting.

Local Open Scope string_scope.
Local Open Scope list_scope.

(** ** Python string primitives *)

Module Str.

(** [bool(s)]: a string is truthy when it is not empty. *)
Definition truthy (s : string) : bool :=
  match s with EmptyString => false | String _ _ => true end.

(** The fields of [s] between the characters that satisfy [delim]:
    always at least one field, empty fields are kept. *)
Fixpoint fields (delim : ascii → bool) (s : string) : list string :=
  match s with
  | EmptyString => [EmptyString]
  | String c s' =>
      if delim c then EmptyString :: fields delim s'
      else match fields delim s' with
           | [] => [String c EmptyString]
           | w :: ws => String c w :: ws
           end
  end.

(** [s.split(sep)] for a one-character separator. *)
Definition split (sep : ascii) (s : string) : list string :=
  fields (λ c, Ascii.eqb c sep) s.

(** The non-empty substrings of [s] delimited by the characters that
    satisfy [delim]. *)
Definition tokens (delim : ascii → bool) (s : string) : list string :=
  List.filter truthy (fields delim s).

(** [sep.join(parts)]. *)
Fixpoint join (sep : string) (parts : list string) : string :=
  match parts with
  | [] => EmptyString
  | [p] => p
  | p :: ps => p +:+ sep +:+ join sep ps
  end.

Fixpoint lstrip_by (p : ascii → bool) (s : string) : string :=
  match s with
  | EmptyString => EmptyString
  | String c s' => if p c then lstrip_by p s' else s
  end.

Fixpoint rstrip_by (p : ascii → bool) (s : string) : string :=
  match s with
  | EmptyString => EmptyString
  | String c s' =>
      let r := rstrip_by p s' in
      if p c && negb (truthy r) then EmptyString else String c r
  end.

Definition strip_by (p : ascii → bool) (s : string) : string :=
  rstrip_by p (lstrip_by p s).

Fixpoint mem (c : ascii) (chars : string) : bool :=
  match chars with
  | EmptyString => false
  | String c' cs => Ascii.eqb c c' || mem c cs
  end.

(** [s.strip(chars)]: [chars] is the set of characters removed from both
    ends. *)
Definition strip (chars : string) (s : string) : string :=
  strip_by (λ c, mem c chars) s.

(** [c.isspace()] on code points below 256. *)
Definition isspace (c : ascii) : bool :=
  let n := nat_of_ascii c in
  (((9 <=? n) && (n <=? 13)) || ((28 <=? n) && (n <=? 32))
   || (n =? 133) || (n =? 160))%nat.

(** [s.strip()] with no argument strips whitespace. *)
Definition strip_ws (s : string) : string := strip_by isspace s.

(** [c.lower()] on code points below 256. *)
Definition lower_char (c : ascii) : ascii :=
  let n := nat_of_ascii c in
  if (((65 <=? n) && (n <=? 90))
      || ((192 <=? n) && (n <=? 222) && negb (n =? 215)))%nat
  then ascii_of_nat (n + 32) else c.

Fixpoint lower (s : string) : string :=
  match s with
  | EmptyString => EmptyString
  | String c s' => String (lower_char c) (lower s')
  end.

Definition nl : ascii := ascii_of_nat 10.
Definition sp : ascii := ascii_of_nat 32.
Definition tab : ascii := ascii_of_nat 9.

Definition nl_str : string := String nl EmptyString.

(** Every character of [s] satisfies [p]. *)
Fixpoint all (p : ascii → bool) (s : string) : bool :=
  match s with
  | EmptyString => true
  | String c s' => p c && all p s'
  end.

(** [s.partition(sep)] without the separator: the text before the first
    [sep] and the text after it. *)
Fixpoint split_first (sep : ascii) (s : string) : string * string :=
  match s with
  | EmptyString => (EmptyString, EmptyString)
  | String c s' =>
      if Ascii.eqb c sep then (EmptyString, s')
      else let '(a, b) := split_first sep s' in (String c a, b)
  end.

End Str.

(** ** Exceptions *)

Inductive exn : Type :=
| KeyError (key : string)
| IndexError
| AssertionError
| RuntimeError (msg : string)
| OverflowError
| ValueError
| ParseError
| OSError.

(** ** IOB data and the XML tree *)

(** A token and its tag, [(word, tag)]. *)
Abbreviation token_tag := (string * string)%type.
Abbreviation sentence := (list (string * string)).
(** [list(list(tuple(str, str)))], the [data] argument of [xml2iob]. *)
Abbreviation iob := (list (list (string * string))).

(** [xml.etree.ElementTree.Element]: tag, attribute dictionary, optional
    text, optional tail and the children in document order. *)
#[warnings="-register-all"]
Inductive element : Type :=
| Element (tag : string) (attrib : gmap string string)
          (text tail : option string) (children : list element).

(** [if et_node.text:] holds for a text that is neither [None] nor empty. *)
Definition has_text (t : option string) : bool :=
  match t with Some s => Str.truthy s | None => false end.

(** ** The accumulator monad *)

(** Result of running a computation on an accumulator: the value or the
    exception raised, the accumulator as the computation left it, and the
    accumulator after each mutation the computation made, oldest first. *)
Record outcome (A : Type) : Type := Outcome {
  result : exn + A;
  final : iob;
  history : list iob
}.
Arguments Outcome {A} _ _ _.
Arguments result {A} _.
Arguments final {A} _.
Arguments history {A} _.

Definition M (A : Type) : Type := iob → outcome A.

Definition ret {A} (a : A) : M A := λ d, Outcome (inr a) d [].
Definition raise {A} (e : exn) : M A := λ d, Outcome (inl e) d [].
Definition bind {A B} (m : M A) (f : A → M B) : M B := λ d,
  let o := m d in
  match result o with
  | inl e => Outcome (inl e) (final o) (history o)
  | inr a =>
      let o' := f a (final o) in
      Outcome (result o') (final o') (history o ++ history o')
  end.

Declare Scope acc_scope.
Delimit Scope acc_scope with acc.
Notation "'do' x <- m 'in' k" := (bind m (λ x, k))
  (at level 10, x name, m at level 100, k at level 200) : acc_scope.
Notation "m >> k" := (bind m (λ _, k))
  (at level 65, right associativity) : acc_scope.
Local Open Scope acc_scope.

(** The list [d] with [p] appended to its last element; [None] when [d]
    has no last element. *)
Fixpoint append_to_last (p : token_tag) (d : iob) : option iob :=
  match d with
  | [] => None
  | [s] => Some [s ++ [p]]
  | s :: d' => cons s <$> append_to_last p d'
  end.

(** [data[-1].append(p)] *)
Definition append_last (p : token_tag) : M unit := λ d,
  match append_to_last p d with
  | None => Outcome (inl IndexError) d []
  | Some d' => Outcome (inr tt) d' [d']
  end.

(** [data.append([])] *)
Definition push_empty : M unit := λ d,
  let d' := d ++ [[]] in Outcome (inr tt) d' [d'].

(** ** The linearizer *)

(** constants for In, Out and Begin prefix *)
Definition I : string := "I".
Definition O : string := "O".
Definition B : string := "B".

(** The loop [for word in line.split(' ')] of [tag_text]; [tag_pos] is the
    loop-carried variable. *)
Fixpoint tag_words (tag_type : string) (words : list string)
    (tag_pos : string) : M unit :=
  match words with
  | [] => ret tt
  | word :: rest =>
      if negb (Str.truthy word) then tag_words tag_type rest tag_pos
      else
        let tag :=
          if Str.truthy tag_type then tag_pos +:+ "-" +:+ tag_type else O in
        append_last (word, tag) >>
        tag_words tag_type rest I
  end.

(** The loop [for i, line in enumerate(lines)] of [tag_text]. *)
Fixpoint tag_lines (tag_type : string) (nlines i : nat)
    (lines : list string) : M unit :=
  match lines with
  | [] => ret tt
  | line :: rest =>
      let tag_pos := B in
      let line := Str.strip " " line in
      tag_words tag_type (Str.split Str.sp line) tag_pos >>
      (if (i <? nlines - 1)%nat then push_empty else ret tt) >>
      tag_lines tag_type nlines (S i) rest
  end.

Definition tag_text (text tag_type : string) : M unit :=
  let lines := Str.split Str.nl text in
  let nlines := length lines in
  tag_lines tag_type nlines 0 lines.

(** [et_node.attrib['TYPE'].lower() if et_node.tag == 'ENAMEX' else ''] *)
Definition node_tag_type (tag : string) (attrib : gmap string string)
    : M string :=
  if String.eqb tag "ENAMEX" then
    match attrib !! "TYPE" with
    | Some ty => ret (Str.lower ty)
    | None => raise (KeyError "TYPE")
    end
  else ret "".

Fixpoint xml2iob (et_node : element) : M unit :=
  match et_node with
  | Element tag attrib text tail children =>
      (match text with
       | Some txt =>
           if Str.truthy txt then
             do tag_type <- node_tag_type tag attrib in
             tag_text txt tag_type
           else ret tt
       | None => ret tt
       end) >>
      (fix each_child (cs : list element) : M unit :=
         match cs with
         | [] => ret tt
         | et_child :: cs' => xml2iob et_child >> each_child cs'
         end) children >>
      (match tail with
       | Some tl => if Str.truthy tl then tag_text tl "" else ret tt
       | None => ret tt
       end)
  end.

(** ** Closed forms of the linearizer *)

(** The tag built in the body of the word loop. *)
Definition mk_tag (tag_pos tag_type : string) : string :=
  if Str.truthy tag_type then tag_pos +:+ "-" +:+ tag_type else O.

(** The pairs the word loop appends for the non-empty words [ws], the first
    of them at position [tag_pos]. *)
Fixpoint tags_from (tag_type tag_pos : string) (ws : list string) : sentence :=
  match ws with
  | [] => []
  | w :: ws' => (w, mk_tag tag_pos tag_type) :: tags_from tag_type I ws'
  end.

(** The tokens of one line: [line.strip(' ').split(' ')] without the empty
    fields. *)
Definition line_words (line : string) : list string :=
  List.filter Str.truthy (Str.split Str.sp (Str.strip " " line)).

Definition line_pairs (tag_type line : string) : sentence :=
  tags_from tag_type B (line_words line).

(** The pairs appended for a whole segment, line after line. *)
Definition segment_pairs (tag_type text : string) : sentence :=
  concat (map (line_pairs tag_type) (Str.split Str.nl text)).

(** [runs m d a d']: started on [d], [m] returns [a] without raising and
    leaves the accumulator [d']. *)
Definition runs {A} (m : M A) (d : iob) (a : A) (d' : iob) : Prop :=
  result (m d) = inr a ∧ final (m d) = d'.

(** ** Trees: induction, well-typedness and the emitted pairs *)

(** Induction on trees with the hypothesis for every child. *)
Fixpoint element_ind' (P : element → Prop)
    (IH : ∀ tag attrib text tail cs,
        Forall P cs → P (Element tag attrib text tail cs))
    (e : element) : P e :=
  match e with
  | Element tag attrib text tail cs =>
      IH tag attrib text tail cs
        ((fix go (cs : list element) : Forall P cs :=
            match cs with
            | [] => @List.Forall_nil _ P
            | c :: cs' =>
                @List.Forall_cons _ P c cs' (element_ind' P IH c) (go cs')
            end) cs)
  end.

(** The child loop of [xml2iob]. *)
Definition xml2iob_children : list element → M unit :=
  fix each_child (cs : list element) : M unit :=
    match cs with
    | [] => ret tt
    | et_child :: cs' => xml2iob et_child >> each_child cs'
    end.

(** The text step and the tail step of [xml2iob]. *)
Definition xml2iob_text (tag : string) (attrib : gmap string string)
    (text : option string) : M unit :=
  match text with
  | Some txt =>
      if Str.truthy txt then
        do tag_type <- node_tag_type tag attrib in
        tag_text txt tag_type
      else ret tt
  | None => ret tt
  end.

Definition xml2iob_tail (tail : option string) : M unit :=
  match tail with
  | Some tl => if Str.truthy tl then tag_text tl "" else ret tt
  | None => ret tt
  end.

(** A node is malformed when it is an [ENAMEX] node with text and without
    a [TYPE] attribute. *)
Definition node_ok (tag : string) (attrib : gmap string string)
    (text : option string) : bool :=
  negb (has_text text && String.eqb tag "ENAMEX")
  || bool_decide (is_Some (attrib !! "TYPE")).

Fixpoint typed_ok (e : element) : bool :=
  match e with
  | Element tag attrib text tail cs =>
      node_ok tag attrib text && forallb typed_ok cs
  end.

(** The tag type [xml2iob] passes to [tag_text] for the text of a node. *)
Definition text_tag_type (tag : string) (attrib : gmap string string)
    : string :=
  if String.eqb tag "ENAMEX" then
    match attrib !! "TYPE" with Some ty => Str.lower ty | None => "" end
  else "".

(** All pairs of a tree in document order: text, children, tail. *)
Fixpoint tree_pairs (e : element) : sentence :=
  match e with
  | Element tag attrib text tail cs =>
      match text with
      | Some txt => segment_pairs (text_tag_type tag attrib) txt
      | None => []
      end
      ++ flat_map tree_pairs cs
      ++ match tail with Some tl => segment_pairs "" tl | None => [] end
  end.

(** ** Tokens of a document *)

(** The characters [tag_text] splits at. *)
Definition space_or_newline (c : ascii) : bool :=
  Ascii.eqb c Str.sp || Ascii.eqb c Str.nl.

(** The non-empty substrings, delimited by the characters satisfying
    [delim], of every text and tail segment of a tree, in document order. *)
Fixpoint tree_tokens (delim : ascii → bool) (e : element) : list string :=
  match e with
  | Element _ _ text tail cs =>
      match text with Some txt => Str.tokens delim txt | None => [] end
      ++ flat_map (tree_tokens delim) cs
      ++ match tail with Some tl => Str.tokens delim tl | None => [] end
  end.

(** The (token, tag) pairs the linearizer emits for a document, in the order
    of emission: the sentences of the accumulator it leaves, flattened. *)
Definition emitted (root : element) : sentence :=
  concat (final (xml2iob root [[]])).

(** ** The trace of the accumulator *)

(** One mutation of the accumulator: a pair is appended to the last
    sentence, or a new empty sentence is pushed. *)
Inductive step : iob → iob → Prop :=
| step_token ds s p : step (ds ++ [s]) (ds ++ [s ++ [p]])
| step_split d : step d (d ++ [[]]).

(** [steps d hs]: [hs] lists the successive values of an accumulator that
    starts as [d] and changes by one [step] at a time. *)
Fixpoint steps (d : iob) (hs : list iob) : Prop :=
  match hs with
  | [] => True
  | h :: hs' => step d h ∧ steps h hs'
  end.

(** The history of a computation is a chain of steps that ends in its final
    accumulator. *)
Definition traced {A} (m : M A) (d : iob) : Prop :=
  steps d (history (m d)) ∧ final (m d) = List.last (history (m d)) d.

(** Every value the accumulator takes while [root] is linearized from the
    initial [[[]]], the initial value included. *)
Definition states (root : element) : list iob :=
  [[]] :: history (xml2iob root [[]]).

(** ** Malformed entity nodes *)

(** [malformed_in root]: some [ENAMEX] node of [root] has text and no [TYPE]
    attribute. *)
Inductive malformed_in : element → Prop :=
| malformed_here tag attrib text tail cs :
    tag = "ENAMEX" → has_text text = true → attrib !! "TYPE" = None →
    malformed_in (Element tag attrib text tail cs)
| malformed_child tag attrib text tail cs c :
    c ∈ cs → malformed_in c →
    malformed_in (Element tag attrib text tail cs).

(** ** The document validator *)

(** [str(n)] for an integer. *)
Definition str_of_int (n : Z) : string :=
  DecimalString.NilZero.string_of_int (Z.to_int n).

(** The message of the [RuntimeError] raised by [parse_iob_files]. *)
Definition mismatch_message (nsent nraw_sent : Z) (filename : string)
    : string :=
  "Parsed sentences `" +:+ str_of_int nsent
  +:+ "` does not match number of lines `" +:+ str_of_int nraw_sent
  +:+ "` in `" +:+ filename +:+ "`".

(** [bool(sent)] for a list. *)
Definition nonempty {A} (l : list A) : bool :=
  match l with [] => false | _ :: _ => true end.

(** [filter(lambda line: line.strip(), raw_data.split('\n'))] *)
Definition raw_lines (raw_data : string) : list string :=
  List.filter (λ line, Str.truthy (Str.strip_ws line))
    (Str.split Str.nl raw_data).

Section files.

(** [open(filename, mode='rt', encoding='utf8')] followed by [fh.read()]:
    the text of the file, or the exception raised, an [OSError] when the
    file cannot be opened and a [ValueError] ([UnicodeDecodeError]) when its
    bytes are not UTF-8. *)
Variable read_file : string → exn + string.
(** [ETree.fromstring]; [None] when the text is not well-formed XML. *)
Variable fromstring : string → option element.

(** The body of the loop of [parse_iob_files] for one file: the sentences
    of the document, or the exception raised. *)
Definition parse_iob_file (filename : string) : exn + iob :=
  match read_file filename with
  | inl e => inl e
  | inr raw_data =>
      match fromstring raw_data with
      | None => inl ParseError
      | Some et_root =>
          let o := xml2iob et_root [[]] in
          match result o with
          | inl e => inl e
          | inr _ =>
              let local_iob_data := List.filter nonempty (final o) in
              let nsent := Z.of_nat (length local_iob_data) in
              let nraw_sent :=
                (Z.of_nat (length (raw_lines raw_data)) - 2)%Z in
              if negb (nsent =? nraw_sent)%Z then
                inl (RuntimeError
                       (mismatch_message nsent nraw_sent filename))
              else inr local_iob_data
          end
      end
  end.

Fixpoint parse_iob_files_from (iob_data : iob) (filenames : list string)
    : exn + iob :=
  match filenames with
  | [] => inr iob_data
  | filename :: rest =>
      match parse_iob_file filename with
      | inl e => inl e
      | inr local_iob_data =>
          parse_iob_files_from (iob_data ++ local_iob_data) rest
      end
  end.

(** [verbose] only selects what is printed to the console, which is not
    modelled. *)
Definition parse_iob_files (filenames : list string) (verbose : bool)
    : exn + iob :=
  parse_iob_files_from [] filenames.

End files.

(** ** The serializer *)

(** [' '.join(token_tag) + '\n'] *)
Definition token_tag_line (token_tag : string * string) : string :=
  Str.join " " [token_tag.1; token_tag.2] +:+ Str.nl_str.

(** What [fh.writelines] adds to the file for one sentence. *)
Definition sentence_lines (sent : sentence) : string :=
  String.concat "" (map token_tag_line sent).

(** The loop [for i, sent in enumerate(data)] of [write_iob]; [out] is the
    text written to the file so far. *)
Fixpoint write_sentences (nsent i : nat) (data : iob) (out : string)
    : (exn + unit) * string :=
  match data with
  | [] => (inr tt, out)
  | sent :: rest =>
      if negb (nonempty sent) then (inl AssertionError, out)
      else
        let out := out +:+ sentence_lines sent in
        let out := if (i <? nsent - 1)%nat then out +:+ Str.nl_str else out in
        write_sentences nsent (S i) rest out
  end.

(** [write_iob] on a file system that maps file names to contents: the
    file is opened for writing, so it holds what was written even when the
    assertion fails. *)
Definition write_iob (filename : string) (data : iob)
    (fs : gmap string string) : (exn + unit) * gmap string string :=
  let nsent := length data in
  let '(r, out) := write_sentences nsent 0 data "" in
  (r, <[filename := out]> fs).

(** A reader for the serialized format, written from the wording of the
    specification (the program has none): the lines are grouped at blank
    lines, and each line is cut at its first space. *)
Fixpoint read_blocks (lines : list string) (cur : sentence) : iob :=
  match lines with
  | [] => if nonempty cur then [cur] else []
  | line :: rest =>
      if Str.truthy line
      then read_blocks rest (cur ++ [Str.split_first Str.sp line])
      else (if nonempty cur then [cur] else []) ++ read_blocks rest []
  end.

Definition read_iob (text : string) : iob :=
  read_blocks (Str.split Str.nl text) [].

(** A word or tag without space and newline characters. *)
Definition clean (s : string) : Prop :=
  Str.all (λ c, negb (space_or_newline c)) s = true.

(** ** The partitioner *)

(** [build_random_partitions] shuffles a copy of its argument in place, so
    lists are modelled as objects in a store: a location holds either the
    corpus list, whose elements are references to sentence objects, or a
    sentence, a list of immutable [(word, tag)] tuples. *)
Abbreviation loc := positive.

Inductive obj : Type :=
| Corpus (refs : list loc)
| Sent (toks : list (string * string)).

Abbreviation store := (gmap positive obj).

(** A new object: its location is one the store does not use. *)
Definition alloc (σ : store) (o : obj) : loc * store :=
  let l := fresh (dom σ) in (l, <[l := o]> σ).

Definition get_corpus (σ : store) (l : loc) : option (list loc) :=
  match σ !! l with Some (Corpus refs) => Some refs | _ => None end.

Definition get_sent (σ : store) (l : loc) : option sentence :=
  match σ !! l with Some (Sent toks) => Some toks | _ => None end.

(** The value of the corpus at [l]: the sentences its elements refer to. *)
Definition read_data (σ : store) (l : loc) : option iob :=
  refs ← get_corpus σ l; mapM (get_sent σ) refs.

(** [copy.deepcopy] of one sentence with the memo dictionary: a sentence
    copied before is not copied again; the tuples and strings of a
    sentence are immutable and are shared by the copy. *)
Definition deepcopy_sent (memo : gmap loc loc) (σ : store) (a : loc)
    : option (loc * gmap loc loc * store) :=
  match memo !! a with
  | Some a' => Some (a', memo, σ)
  | None =>
      toks ← get_sent σ a;
      let '(a', σ) := alloc σ (Sent toks) in
      Some (a', <[a := a']> memo, σ)
  end.

(** The loop [for a in x: y.append(deepcopy(a, memo))]. *)
Fixpoint deepcopy_elems (refs : list loc) (y : loc) (memo : gmap loc loc)
    (σ : store) : option (gmap loc loc * store) :=
  match refs with
  | [] => Some (memo, σ)
  | a :: rest =>
      '(a', memo, σ) ← deepcopy_sent memo σ a;
      ys ← get_corpus σ y;
      deepcopy_elems rest y memo (<[y := Corpus (ys ++ [a'])]> σ)
  end.

(** [copy.deepcopy(x)] for a corpus list [x]. *)
Definition deepcopy (σ : store) (x : loc) : option (loc * store) :=
  refs ← get_corpus σ x;
  let '(y, σ) := alloc σ (Corpus []) in
  let memo : gmap loc loc := {[ x := y ]} in
  '(_, σ) ← deepcopy_elems refs y memo σ;
  Some (y, σ).

(** The fractions are Python floats, binary64 numbers.  [float(n)] for an
    integer rounds to the nearest float and raises when [n] is beyond the
    largest one. *)
Definition float_of_int (n : Z) : exn + spec_float :=
  match binary_normalize 53 1024 n 0 false with
  | S754_infinity _ => inl OverflowError
  | x => inr x
  end.

(** [int(x)] for a float: truncation toward zero; an infinity and a NaN
    cannot be converted. *)
Definition int_of_float (x : spec_float) : exn + Z :=
  match x with
  | S754_zero _ => inr 0%Z
  | S754_finite s m e =>
      let v := match e with
               | Z0 => Zpos m
               | Zpos p => (Zpos m * 2 ^ Zpos p)%Z
               | Zneg p => (Zpos m / 2 ^ Zpos p)%Z
               end in
      inr (if s then (- v)%Z else v)
  | S754_infinity _ => inl OverflowError
  | S754_nan => inl ValueError
  end.

(** [int(frac * nsent)]: the integer is converted to a float, the product
    is rounded once, and the result is truncated. *)
Definition float_count (frac : spec_float) (nsent : Z) : exn + Z :=
  match float_of_int nsent with
  | inl e => inl e
  | inr x => int_of_float (SFmul 53 1024 frac x)
  end.

(** The float of the literal [0.07], the double nearest to 7/100. *)
Definition float_0_07 : spec_float :=
  S754_finite false 5044031582654956 (-56).

(** A slice index clamped as Python does: a negative index counts from the
    end. *)
Definition slice_index (n : nat) (i : Z) : nat :=
  Z.to_nat (if (i <? 0)%Z then Z.max 0 (i + Z.of_nat n)
            else Z.min i (Z.of_nat n)).

(** [xs[lo:hi]], [None] for an omitted bound. *)
Definition slice {A} (lo hi : option Z) (xs : list A) : list A :=
  let n := length xs in
  let lo := from_option (slice_index n) 0%nat lo in
  let hi := from_option (slice_index n) n hi in
  take (hi - lo) (drop lo xs).

Section partitions.

(** The state of a [random.Random] generator, its seeding and the draw
    [_randbelow(n)] of a number below [n]. *)
Context {rng : Type}.
Variable seed_rng : Z → rng.
Variable randbelow : rng → nat → nat * rng.

(** [x[i], x[j] = x[j], x[i]] *)
Definition swap (σ : store) (x : loc) (i j : nat) : option store :=
  xs ← get_corpus σ x;
  xj ← xs !! j;
  xi ← xs !! i;
  Some (<[x := Corpus (<[j := xi]> (<[i := xj]> xs))]> σ).

(** The loop of [random.shuffle]: [for i in reversed(range(1, len(x)))],
    entered with [i] one above the next index. *)
Fixpoint shuffle_from (i : nat) (x : loc) (g : rng) (σ : store)
    : option (rng * store) :=
  match i with
  | 0%nat => Some (g, σ)
  | S i' =>
      match i' with
      | 0%nat => Some (g, σ)
      | S _ =>
          let '(j, g) := randbelow g (i' + 1) in
          σ ← swap σ x i' j;
          shuffle_from i' x g σ
      end
  end.

(** [rng.shuffle(x)] *)
Definition shuffle (x : loc) (g : rng) (σ : store) : option (rng * store) :=
  xs ← get_corpus σ x;
  shuffle_from (length xs) x g σ.

(** [build_random_partitions]: the three results are returned in the order
    of the [return] statement, [(train_data, valid_data, test_data)]; an
    exception of a conversion [int(frac * nsent)] ends the call after the
    copy has been shuffled. *)
Definition build_random_partitions (iob_data : loc)
    (valid_frac test_frac : spec_float) (seed : Z) (σ : store)
    : option ((exn + loc * loc * loc) * store) :=
  let g := seed_rng seed in
  '(iob_data, σ) ← deepcopy σ iob_data;
  '(_, σ) ← shuffle iob_data g σ;
  xs ← get_corpus σ iob_data;
  let nsent := Z.of_nat (length xs) in
  match float_count valid_frac nsent with
  | inl e => Some (inl e, σ)
  | inr valid_end =>
      match float_count test_frac nsent with
      | inl e => Some (inl e, σ)
      | inr test_count =>
          let test_end := (valid_end + test_count)%Z in
          let '(train_data, σ) :=
            alloc σ (Corpus (slice None (Some valid_end) xs)) in
          let '(valid_data, σ) :=
            alloc σ (Corpus (slice (Some valid_end) (Some test_end) xs)) in
          let '(test_data, σ) :=
            alloc σ (Corpus (slice (Some test_end) None xs)) in
          Some (inr (train_data, valid_data, test_data), σ)
      end
  end.

(** The call [build_random_partitions(iob_data)] of [main], with the
    default fractions [0.07] and the default seed. *)
Definition build_random_partitions_default (iob_data : loc) (σ : store)
    : option ((exn + loc * loc * loc) * store) :=
  build_random_partitions iob_data float_0_07 float_0_07 42 σ.

End partitions.

Section main_partitions.

Context {rng : Type}.
Variable seed_rng : Z → rng.
Variable randbelow : rng → nat → nat * rng.

(** [write_iob(filename, data)] for a corpus list [data] of the store. *)
Definition write_iob_at (filename : string) (data : loc) (σ : store)
    (fs : gmap string string) : option ((exn + unit) * gmap string string) :=
  d ← read_data σ data; Some (write_iob filename d fs).

(** The end of [main]: build and write the train, valid and test
    partitions. *)
Definition main_partitions (trainfile validfile testfile : string)
    (iob_data : loc) (σ : store) (fs : gmap string string)
    : option ((exn + unit) * gmap string string) :=
  '(r, σ) ← build_random_partitions_default seed_rng randbelow iob_data σ;
  match r with
  | inl e => Some (inl e, fs)
  | inr (train_data, valid_data, test_data) =>
      '(r, fs) ← write_iob_at validfile train_data σ fs;
      match r with
      | inl e => Some (inl e, fs)
      | inr _ =>
          '(r, fs) ← write_iob_at testfile valid_data σ fs;
          match r with
          | inl e => Some (inl e, fs)
          | inr _ => write_iob_at trainfile test_data σ fs
          end
      end
  end.

End main_partitions.

(** The sentences joined by blank lines: the text [write_iob] leaves in a
    file when no sentence is empty.  When one is, [write_iob] stops at it
    with a part of the text written. *)
Definition iob_text (data : iob) : string :=
  Str.join Str.nl_str (map sentence_lines data).

(** [floor(0.07 * n)] *)
Definition seven_percent (n : nat) : nat := (7 * n / 100)%nat.

(** A store that holds the corpus [d]: one object per sentence and the
    list of their locations; the location of the list is returned. *)
Definition store_of (d : iob) : loc * store :=
  let '(refs, σ) :=
    foldl (λ '(refs, σ) sent, let '(a, σ) := alloc σ (Sent sent) in
                              (refs ++ [a], σ))
      ([], ∅) d in
  alloc σ (Corpus refs).

(** A small linear congruential generator, to run the shuffle. *)
Definition lcg_seed (seed : Z) : N := Z.to_N seed.
Definition lcg_randbelow (g : N) (n : nat) : nat * N :=
  let g := ((1103515245 * g + 12345) mod 2147483648)%N in
  (N.to_nat (g mod N.of_nat n)%N, g).

(** A corpus of [n] one-word sentences. *)
Definition numbered_corpus (n : nat) : iob :=
  map (λ i, [(str_of_int (Z.of_nat i), O)]) (seq 0 n).

(** ** Claims of the specification that the code does not satisfy as worded *)

(** Tokens counted as whitespace-delimited substrings, for every tree. *)
Definition emits_whitespace_tokens : Prop :=
  ∀ root,
    length (emitted root) = length (tree_tokens Str.isspace root)
    ∧ map fst (emitted root) = tree_tokens Str.isspace root.

(** A group of pairs that starts with one B-tag and continues with I-tags
    of the same type. *)
Definition begin_then_inside (tag_type : string) (g : sentence) : Prop :=
  ∃ w rest,
    g = (w, "B-" +:+ tag_type) :: rest
    ∧ Forall (λ p : token_tag, p.2 = "I-" +:+ tag_type) rest.

(** One B-tag for the whole of an entity segment, newlines or not. *)
Definition one_begin_per_segment : Prop :=
  ∀ text tag_type d seg,
    Str.truthy tag_type = true → d ≠ [] →
    concat (final (tag_text text tag_type d)) = concat d ++ seg →
    seg ≠ [] →
    begin_then_inside tag_type seg.

(** The open sentence is empty only while no token has been appended. *)
Definition open_sentence_empty_only_at_start : Prop :=
  ∀ root h,
    h ∈ states root →
    h ≠ [] ∧ (last h = Some [] → concat h = []).

(** ** Sample documents *)

(** A [.name] file of five lines with three sentences, and the tree the XML
    parser returns for it. *)
Definition sample_raw : string :=
  Str.join Str.nl_str
    ["<DOC DOCNO='nw/sample/00'>";
     "<ENAMEX TYPE='PERSON'>John Smith</ENAMEX> works here";
     "Alice";
     "Bob";
     "</DOC>";
     ""].

Definition sample_doc : element :=
  Element "DOC" {[ "DOCNO" := "nw/sample/00" ]} (Some Str.nl_str) None
    [Element "ENAMEX" {[ "TYPE" := "PERSON" ]} (Some "John Smith")
       (Some (Str.join Str.nl_str [" works here"; "Alice"; "Bob"; ""])) []].

(** Five lines again, but the character reference [&#10;] puts a newline
    inside the third: the tree has four sentences. *)
Definition sample_raw_charref : string :=
  Str.join Str.nl_str
    ["<DOC DOCNO='nw/sample/01'>";
     "<ENAMEX TYPE='PERSON'>John Smith</ENAMEX> works here";
     "Alice&#10;Bob";
     "Carol";
     "</DOC>";
     ""].

Definition sample_doc_charref : element :=
  Element "DOC" {[ "DOCNO" := "nw/sample/01" ]} (Some Str.nl_str) None
    [Element "ENAMEX" {[ "TYPE" := "PERSON" ]} (Some "John Smith")
       (Some (Str.join Str.nl_str
                [" works here"; "Alice"; "Bob"; "Carol"; ""])) []].

(** An entity span without its [TYPE] attribute. *)
Definition sample_raw_untyped : string :=
  Str.join Str.nl_str
    ["<DOC DOCNO='nw/sample/02'>";
     "<ENAMEX>John Smith</ENAMEX> works here";
     "</DOC>";
     ""].

Definition sample_doc_untyped : element :=
  Element "DOC" {[ "DOCNO" := "nw/sample/02" ]} (Some Str.nl_str) None
    [Element "ENAMEX" ∅ (Some "John Smith")
       (Some (Str.join Str.nl_str [" works here"; ""])) []].

Definition sample_files : gmap string string :=
  {[ "00.name" := sample_raw;
     "01.name" := sample_raw_charref;
     "02.name" := sample_raw_untyped ]}.

Definition sample_read_file (filename : string) : exn + string :=
  match sample_files !! filename with
  | Some raw_data => inr raw_data
  | None => inl OSError
  end.

Definition sample_fromstring (raw_data : string) : option element :=
  if String.eqb raw_data sample_raw then Some sample_doc
  else if String.eqb raw_data sample_raw_charref then Some sample_doc_charref
  else if String.eqb raw_data sample_raw_untyped then Some sample_doc_untyped
  else None.

(** The number of sentences of the third result of a call. *)
Definition third_size (call : option ((exn + loc * loc * loc) * store))
    : option nat :=
  '(r, σ) ← call;
  match r with
  | inr (_, _, third) => length <$> read_data σ third
  | inl _ => None
  end.

(** The results of [build_random_partitions] read under the names of its
    [return] statement: [valid_data] and [test_data] of seven percent each
    and [train_data] with the rest. *)
Definition partitions_as_named : Prop :=
  ∀ (rng : Type) (seed_rng : Z → rng) (randbelow : rng → nat → nat * rng),
    (∀ g n, (0 < n)%nat → ((randbelow g n).1 < n)%nat) →
    ∀ (σ : store) (iob_data : loc) (d : iob),
      read_data σ iob_data = Some d →
      ∃ train_data valid_data test_data σ' dtrain dvalid dtest,
        build_random_partitions_default seed_rng randbelow iob_data σ
        = Some (inr (train_data, valid_data, test_data), σ')
        ∧ read_data σ' train_data = Some dtrain
        ∧ read_data σ' valid_data = Some dvalid
        ∧ read_data σ' test_data = Some dtest
        ∧ length dvalid = seven_percent (length d)
        ∧ length dtest = seven_percent (length d)
        ∧ length dtrain = (length d - 2 * seven_percent (length d))%nat.


(** ** The sentences of a tree *)

(** The accumulator [d] after the groups [gs] have been emitted onto it:
    the first group continues the open sentence of [d], every further
    group is a sentence pushed after it. *)
Definition extend (d gs : iob) : iob :=
  match gs with
  | [] => d
  | g :: gs' => removelast d ++ (List.last d [] ++ g) :: gs'
  end.

(** The groups of one segment, one for each line of its text. *)
Definition segment_groups (tag_type text : string) : iob :=
  map (line_pairs tag_type) (Str.split Str.nl text).

Definition text_groups (tag_type : string) (text : option string) : iob :=
  match text with
  | Some txt => segment_groups tag_type txt
  | None => [[]]
  end.

(** The groups of a tree: text, children in order, tail. *)
Fixpoint tree_groups (e : element) : iob :=
  match e with
  | Element tag attrib text tail cs =>
      extend
        (foldl extend (text_groups (text_tag_type tag attrib) text)
           (map tree_groups cs))
        (text_groups "" tail)
  end.

(** The number of occurrences of [c] in [s]. *)
Fixpoint count_char (c : ascii) (s : string) : nat :=
  match s with
  | EmptyString => 0
  | String c' s' => (if Ascii.eqb c' c then 1 else 0) + count_char c s'
  end.

Definition text_newlines (text : option string) : nat :=
  match text with Some txt => count_char Str.nl txt | None => 0 end.

(** The newline characters in the text and tail segments of a tree. *)
Fixpoint tree_newlines (e : element) : nat :=
  match e with
  | Element _ _ text tail cs =>
      text_newlines text + sum_list (map tree_newlines cs)
      + text_newlines tail
  end.

(** ** Well-formed IOB data *)

(** A word as the data model has it: not empty, no space, no newline. *)
Definition word_ok (w : string) : Prop := w ≠ "" ∧ clean w.

(** A tag as the data model has it: [O], or a position [B] or [I] and a
    lowercased, non-empty entity type. *)
Definition tag_ok (tag : string) : Prop :=
  tag = O
  ∨ ∃ tag_pos tag_type,
      tag = tag_pos +:+ "-" +:+ tag_type
      ∧ (tag_pos = B ∨ tag_pos = I)
      ∧ tag_type ≠ "" ∧ Str.lower tag_type = tag_type.

(** Every I-tag of a sentence comes directly after a B-tag or an I-tag of
    the same type. *)
Definition inside_follows (sent : sentence) : Prop :=
  ∀ pre p post tag_type,
    sent = pre ++ p :: post → p.2 = "I-" +:+ tag_type →
    ∃ pre' q, pre = pre' ++ [q]
      ∧ (q.2 = "B-" +:+ tag_type ∨ q.2 = "I-" +:+ tag_type).

(** The sentences of [sample_doc]. *)
Definition sample_iob : iob :=
  [[("John", "B-person"); ("Smith", "I-person");
    ("works", "O"); ("here", "O")];
   [("Alice", "O")]; [("Bob", "O")]].

(** ** Further notions of the validator and the serializer *)

Section raw_counts.

Variable read_file : string → exn + string.

(** [nraw_sent] of [parse_iob_files] for a file: the number of its
    non-blank lines minus 2. *)
Definition nraw_sent (filename : string) : Z :=
  match read_file filename with
  | inr raw_data => (Z.of_nat (length (raw_lines raw_data)) - 2)%Z
  | inl _ => 0%Z
  end.

End raw_counts.

(** A tag without newline characters. *)
Definition no_newline (s : string) : Prop :=
  Str.all (λ c, negb (Ascii.eqb c Str.nl)) s = true.

(** A pair that is read back as written: the line is cut at its first
    space, so the word has no space, and neither part has a newline. *)
Definition readable (p : token_tag) : Prop := clean p.1 ∧ no_newline p.2.

(** What [write_iob] has written when its assertion fails after the
    sentences [pre]: the lines of each of them and a blank line. *)
Definition written_before (pre : iob) : string :=
  String.concat "" (map (λ sent, sentence_lines sent +:+ Str.nl_str) pre).

(** ** Metrics *)

(** [sorted(l)] with the order [le]: a stable sort, an element stays
    before the later elements that it is not above.  With [reverse=True]
    the order is the converse one and equal keys keep their order too. *)
Fixpoint insert_sorted {A} (le : A → A → bool) (x : A) (l : list A)
    : list A :=
  match l with
  | [] => [x]
  | y :: l' => if le x y then x :: l else y :: insert_sorted le x l'
  end.

Definition sorted {A} (le : A → A → bool) (l : list A) : list A :=
  foldr (insert_sorted le) [] l.

(** [tag_counts[tag_type] += 1] on a [defaultdict(int)]: the dictionary
    is the list of its items in insertion order. *)
Fixpoint increment (tag_type : string) (tag_counts : list (string * nat))
    : list (string * nat) :=
  match tag_counts with
  | [] => [(tag_type, 1)]
  | (k, n) :: rest =>
      if String.eqb k tag_type then (k, S n) :: rest
      else (k, n) :: increment tag_type rest
  end.

(** A tag as the object that it is.  [print_metrics] tests [tag is O],
    the identity of the tag with the constant [O] of the module, and a
    string equal to ["O"] need not be that object. *)
Inductive tag_object : Type :=
| TheO
| Other (tag : string).

(** The string that a tag is. *)
Definition tag_value (tag : tag_object) : string :=
  match tag with
  | TheO => O
  | Other tag => tag
  end.

(** A corpus with its tags as objects. *)
Abbreviation tagged := (list (list (string * tag_object))).

Definition tag_values (iob_data : tagged) : iob :=
  map (map (λ p : string * tag_object, (p.1, tag_value p.2))) iob_data.

(** The tags of a corpus that the linearizer built, as objects: [tag_text]
    gives a token the constant [O] itself or a new string
    [tag_pos + '-' + tag_type], which holds a hyphen and so is not equal
    to ["O"]. *)
Definition tag_objects (iob_data : iob) : tagged :=
  map (map (λ p : token_tag,
              (p.1, if String.eqb p.2 O then TheO else Other p.2)))
    iob_data.

(** The loop [for word, tag in sent] of [print_metrics]: [tag is O] holds
    of the constant only, and unpacking [tag.split('-')] into two names
    raises [ValueError] unless the tag has exactly one hyphen. *)
Fixpoint count_tags (sent : list (string * tag_object))
    (tag_counts : list (string * nat)) : exn + list (string * nat) :=
  match sent with
  | [] => inr tag_counts
  | (word, tag) :: rest =>
      match tag with
      | TheO => count_tags rest tag_counts
      | Other tag =>
          match Str.split "-" tag with
          | [tag_pos; tag_type] =>
              count_tags rest
                (if String.eqb tag_pos B then increment tag_type tag_counts
                 else tag_counts)
          | _ => inl ValueError
          end
      end
  end.

(** The loop [for sent in iob_data]. *)
Fixpoint count_sentences (iob_data : tagged)
    (tag_counts : list (string * nat)) : exn + list (string * nat) :=
  match iob_data with
  | [] => inr tag_counts
  | sent :: rest =>
      match count_tags sent tag_counts with
      | inl e => inl e
      | inr tag_counts => count_sentences rest tag_counts
      end
  end.

(** One call of [print] in [print_metrics], with the values it prints
    before they are formatted. *)
Inductive printed : Type :=
| PrintRule
| PrintSentences (n : nat)
| PrintTokens (n : nat)
| PrintLabels (n : nat) (labels : list string)
| PrintTypes (n : nat)
| PrintCounts (tag_counts : list (string * nat)).

(** [print_metrics]: the exception raised, if any, and what was printed.
    The labels are a set of strings, whatever objects they are, and the
    set is sorted, so the order in which it lists them does not matter. *)
Definition print_metrics (iob_data : tagged)
    : (exn + unit) * list printed :=
  let out :=
    [PrintRule;
     PrintSentences (length iob_data);
     PrintTokens (sum_list (map length iob_data))] in
  let labels :=
    sorted String.leb
      (remove_dups (map (λ p : string * tag_object, tag_value p.2)
                      (concat iob_data))) in
  let out := out ++ [PrintLabels (length labels) labels] in
  match count_sentences iob_data [] with
  | inl e => (inl e, out)
  | inr tag_counts =>
      let tag_counts :=
        sorted (λ a b : string * nat, (b.2 <=? a.2)%nat) tag_counts in
      (inr tt,
       out ++ [PrintTypes (length tag_counts); PrintCounts tag_counts])
  end.

(** The number of tokens of a corpus that carry the tag [tag]. *)
Definition count_tag (tag : string) (iob_data : iob) : nat :=
  length (List.filter (λ p : token_tag, String.eqb p.2 tag)
            (concat iob_data)).

(** The tag is the constant [O], or [tag.split('-')] gives two parts. *)
Definition tag_splits (tag : tag_object) : bool :=
  match tag with
  | TheO => true
  | Other tag => (count_char "-" tag =? 1)%nat
  end.

(** ** The command *)

(** Reading a file of a file system that maps file names to texts: a name
    that it does not hold cannot be opened. *)
Definition read_text (fs : gmap string string) (filename : string)
    : exn + string :=
  match fs !! filename with
  | Some raw_data => inr raw_data
  | None => inl OSError
  end.

Section main.

Context {rng : Type}.
Variable seed_rng : Z → rng.
Variable randbelow : rng → nat → nat * rng.
(** [ETree.fromstring] *)
Variable fromstring : string → option element.
(** The paths that [glob] finds under a data directory, in any order. *)
Variable glob_names : string → list string.

(** [main]: the files are read from the file system as it is at the
    start, and every output file is written after the last of them has
    been read.  The corpus is the one [parse_iob_files] built, so its tags
    are the objects of [tag_objects].  The console is not modelled; of
    [print_metrics] only its exception matters here.  The result is the
    exception that ended the command, if any, and the file system it
    leaves. *)
Definition main (data_dir iobfile trainfile validfile testfile : string)
    (verbose : bool) (fs : gmap string string)
    : option ((exn + unit) * gmap string string) :=
  let filenames := sorted String.leb (glob_names data_dir) in
  match parse_iob_files (read_text fs) fromstring filenames verbose with
  | inl e => Some (inl e, fs)
  | inr iob_data =>
      match (if verbose then (print_metrics (tag_objects iob_data)).1
             else inr tt) with
      | inl e => Some (inl e, fs)
      | inr _ =>
          let '(r, fs) := write_iob iobfile iob_data fs in
          match r with
          | inl e => Some (inl e, fs)
          | inr _ =>
              let '(iob_data, σ) := store_of iob_data in
              main_partitions seed_rng randbelow trainfile validfile
                testfile iob_data σ fs
          end
      end
  end.

End main.

(** *** Closed forms of the counting loop *)

(** [tag_counts.get(tag_type, 0)] *)
Fixpoint get_count (tag_type : string) (tag_counts : list (string * nat))
    : nat :=
  match tag_counts with
  | [] => 0
  | (k, n) :: rest =>
      if String.eqb k tag_type then n else get_count tag_type rest
  end.

(** The entity type that a tag counts for: the second part of a tag, not
    the constant [O], with two parts of which the first is [B]. *)
Definition begin_type (tag : tag_object) : option string :=
  match tag with
  | TheO => None
  | Other tag =>
      match Str.split "-" tag with
      | [tag_pos; tag_type] =>
          if String.eqb tag_pos B then Some tag_type else None
      | _ => None
      end
  end.

(** One iteration of the counting loop that does not raise. *)
Definition count_step (tag_counts : list (string * nat))
    (p : string * tag_object) : list (string * nat) :=
  match begin_type p.2 with
  | Some tag_type => increment tag_type tag_counts
  | None => tag_counts
  end.

(** The tokens of [sent] that count for [tag_type]. *)
Definition count_begin (tag_type : string)
    (sent : list (string * tag_object)) : nat :=
  length (List.filter
            (λ p : string * tag_object,
               bool_decide (begin_type p.2 = Some tag_type))
            sent).

(** A document with an entity whose type holds hyphens. *)
Definition sample_raw_hyphen : string :=
  Str.join Str.nl_str
    ["<DOC DOCNO='nw/sample/03'>";
     "<ENAMEX TYPE='WORK-OF-ART'>Hamlet</ENAMEX>";
     "</DOC>";
     ""].

Definition sample_doc_hyphen : element :=
  Element "DOC" {[ "DOCNO" := "nw/sample/03" ]} (Some Str.nl_str) None
    [Element "ENAMEX" {[ "TYPE" := "WORK-OF-ART" ]} (Some "Hamlet")
       (Some Str.nl_str) []].

(** ** Further notions of the linearizer and the partitioner *)

(** The words of the own text of the entity nodes of a tree: the [ENAMEX]
    nodes whose [TYPE] is not empty. *)
Fixpoint entity_words (e : element) : list string :=
  match e with
  | Element tag attrib text tail cs =>
      (if Str.truthy (text_tag_type tag attrib)
       then match text with
            | Some txt => Str.tokens space_or_newline txt
            | None => []
            end
       else [])
      ++ flat_map entity_words cs
  end.

(** [not math.isfinite(x)]: an infinity or a NaN. *)
Definition non_finite (x : spec_float) : bool :=
  match x with
  | S754_infinity _ | S754_nan => true
  | S754_zero _ | S754_finite _ _ _ => false
  end.

(** ** The structural check, as the specification words it *)

(** A line with a character that is not whitespace. *)
Definition nonblank (line : string) : bool :=
  negb (Str.all Str.isspace line).

(** The lines of the raw text that are not blank. *)
Definition nonblank_lines (raw_data : string) : nat :=
  length (List.filter nonblank (Str.split Str.nl raw_data)).

(** The lines of the raw text that are not empty. *)
Definition nonempty_lines (raw_data : string) : nat :=
  length (List.filter Str.truthy (Str.split Str.nl raw_data)).

(** The integer that a decimal numeral denotes: digits, after a minus sign
    for a negative one. *)
Definition digit_value (c : ascii) : option Z :=
  let n := nat_of_ascii c in
  if ((48 <=? n) && (n <=? 57))%nat then Some (Z.of_nat (n - 48)) else None.

Fixpoint digits_value (acc : Z) (s : string) : option Z :=
  match s with
  | EmptyString => Some acc
  | String c s' =>
      match digit_value c with
      | Some v => digits_value (10 * acc + v) s'
      | None => None
      end
  end.

Definition numeral_value (s : string) : option Z :=
  match s with
  | EmptyString => None
  | String c s' =>
      if Ascii.eqb c "-" then
        if Str.truthy s' then Z.opp <$> digits_value 0 s' else None
      else digits_value 0 s
  end.

(** The message names the file and both counts. *)
Definition names_file_and_counts (msg filename : string)
    (nsent nraw_sent : Z) : Prop :=
  ∃ a b,
    msg = "Parsed sentences `" +:+ a
          +:+ "` does not match number of lines `" +:+ b
          +:+ "` in `" +:+ filename +:+ "`"
    ∧ numeral_value a = Some nsent
    ∧ numeral_value b = Some nraw_sent.

(** A document is rejected with the mismatch error exactly when its
    sentences are not as many as its non-empty lines minus 2. *)
Definition mismatch_iff_nonempty_lines : Prop :=
  ∀ (read_file : string → exn + string)
    (fromstring : string → option element)
    (filename raw_data : string) (et_root : element),
    read_file filename = inr raw_data →
    fromstring raw_data = Some et_root →
    let nsent :=
      Z.of_nat (length (List.filter nonempty (final (xml2iob et_root [[]]))))
    in
    let nlines := (Z.of_nat (nonempty_lines raw_data) - 2)%Z in
    (∃ msg,
       parse_iob_file read_file fromstring filename = inl (RuntimeError msg)
       ∧ names_file_and_counts msg filename nsent nlines)
    ↔ nsent ≠ nlines.

(** A document with a line that holds one space, and the tree the XML
    parser returns for it. *)
Definition sample_raw_blank : string :=
  Str.join Str.nl_str
    ["<DOC DOCNO='nw/sample/04'>";
     "Alice";
     " ";
     "</DOC>";
     ""].

Definition sample_doc_blank : element :=
  Element "DOC" {[ "DOCNO" := "nw/sample/04" ]}
    (Some (Str.join Str.nl_str [""; "Alice"; " "; ""])) None [].
(** * Properties *)

Section run_lemmas.

Lemma runs_ret {A} (a : A) d : runs (ret a) d a d.
Proof. done. Qed.

Lemma runs_bind {A B} (m : M A) (f : A → M B) d a d1 b d2 :
  runs m d a d1 → runs (f a) d1 b d2 → runs (bind m f) d b d2.
Proof.
  intros [Hr Hf] [Hr' Hf']. unfold runs, bind.
  rewrite Hr, Hf. simpl. by rewrite Hr', Hf'.
Qed.

Lemma runs_push_empty d : runs push_empty d tt (d ++ [[]]).
Proof. done. Qed.

Lemma append_to_last_snoc p ds s :
  append_to_last p (ds ++ [s]) = Some (ds ++ [s ++ [p]]).
Proof.
  induction ds as [|s0 ds IH]; simpl; [done|].
  rewrite IH. destruct ds; done.
Qed.

Lemma runs_append_last p ds s :
  runs (append_last p) (ds ++ [s]) tt (ds ++ [s ++ [p]]).
Proof. unfold runs, append_last. by rewrite append_to_last_snoc. Qed.

Lemma tag_lines_cons tag_type nlines i line rest :
  tag_lines tag_type nlines i (line :: rest)
  = (tag_words tag_type (Str.split Str.sp (Str.strip " " line)) B >>
     (if (i <? nlines - 1)%nat then push_empty else ret tt) >>
     tag_lines tag_type nlines (S i) rest).
Proof. reflexivity. Qed.

Lemma tag_words_run tag_type words tag_pos ds s :
  runs (tag_words tag_type words tag_pos) (ds ++ [s]) tt
    (ds ++ [s ++ tags_from tag_type tag_pos (List.filter Str.truthy words)]).
Proof.
  revert tag_pos s.
  induction words as [|word rest IH]; intros tag_pos s; simpl.
  - rewrite app_nil_r. apply runs_ret.
  - destruct (Str.truthy word) eqn:Hw; simpl; [|apply IH].
    eapply runs_bind; [apply runs_append_last|].
    fold (mk_tag tag_pos tag_type).
    specialize (IH I (s ++ [(word, mk_tag tag_pos tag_type)])).
    by rewrite <- app_assoc in IH.
Qed.

Lemma tag_lines_run tag_type nlines i line lines ds s :
  i + S (length lines) = nlines →
  runs (tag_lines tag_type nlines i (line :: lines)) (ds ++ [s]) tt
    (ds ++ (s ++ line_pairs tag_type line)
           :: map (line_pairs tag_type) lines).
Proof.
  revert i line ds s.
  induction lines as [|line' lines IH]; intros i line ds s Hn;
    rewrite tag_lines_cons;
    (eapply runs_bind; [apply tag_words_run|]).
  - replace (i <? nlines - 1)%nat with false
      by (symmetry; apply Nat.ltb_ge; simpl in Hn; lia).
    eapply runs_bind; apply runs_ret.
  - replace (i <? nlines - 1)%nat with true
      by (symmetry; apply Nat.ltb_lt; simpl in Hn; lia).
    eapply runs_bind; [apply runs_push_empty|].
    replace (ds ++ (s ++ line_pairs tag_type line)
                   :: map (line_pairs tag_type) (line' :: lines))
      with ((ds ++ [s ++ line_pairs tag_type line])
              ++ ([] ++ line_pairs tag_type line')
                   :: map (line_pairs tag_type) lines)
      by (by rewrite <- app_assoc).
    apply (IH (S i) line' (ds ++ [s ++ line_pairs tag_type line]) []).
    simpl in Hn. lia.
Qed.

Lemma fields_nonempty delim s : ∃ l ls, Str.fields delim s = l :: ls.
Proof.
  destruct s as [|c s]; simpl; [by eexists _, _|].
  destruct (delim c); [by eexists _, _|].
  destruct (Str.fields delim s); by eexists _, _.
Qed.

Lemma split_nonempty sep s : ∃ l ls, Str.split sep s = l :: ls.
Proof. apply fields_nonempty. Qed.

(** [tag_text] extends the open sentence with the pairs of the first line
    and pushes one sentence for each further line. *)
Lemma tag_text_run text tag_type ds s :
  ∃ line lines,
    Str.split Str.nl text = line :: lines
    ∧ runs (tag_text text tag_type) (ds ++ [s]) tt
        (ds ++ (s ++ line_pairs tag_type line)
               :: map (line_pairs tag_type) lines).
Proof.
  destruct (split_nonempty Str.nl text) as (line & lines & Hs).
  exists line, lines. split; [done|].
  unfold tag_text. rewrite Hs. by apply tag_lines_run.
Qed.

End run_lemmas.

Section tree_lemmas.

Lemma xml2iob_unfold tag attrib text tail cs :
  xml2iob (Element tag attrib text tail cs)
  = (xml2iob_text tag attrib text >> xml2iob_children cs >> xml2iob_tail tail).
Proof. reflexivity. Qed.

Lemma xml2iob_children_cons c cs :
  xml2iob_children (c :: cs) = (xml2iob c >> xml2iob_children cs).
Proof. reflexivity. Qed.

Lemma result_bind_inl {A B} (m : M A) (f : A → M B) d e :
  result (m d) = inl e → result (bind m f d) = inl e.
Proof. intros H. unfold bind. by rewrite H. Qed.

Lemma result_bind_inr {A B} (m : M A) (f : A → M B) d a d' :
  runs m d a d' → result (bind m f d) = result (f a d').
Proof. intros [Hr Hf]. unfold bind. by rewrite Hr, Hf. Qed.

Lemma concat_snoc {A} (ds : list (list A)) s :
  concat (ds ++ [s]) = concat ds ++ s.
Proof. by rewrite concat_app; simpl; rewrite app_nil_r. Qed.

(** What [tag_text] does, up to the sentence boundaries. *)
Lemma tag_text_concat text tag_type ds s :
  ∃ ds' s',
    runs (tag_text text tag_type) (ds ++ [s]) tt (ds' ++ [s'])
    ∧ concat (ds' ++ [s'])
      = concat (ds ++ [s]) ++ segment_pairs tag_type text.
Proof.
  destruct (tag_text_run text tag_type ds s) as (line & lines & Hs & Hrun).
  unfold segment_pairs. rewrite Hs.
  set (gs := map (line_pairs tag_type) lines) in *.
  destruct (exists_last (l := (s ++ line_pairs tag_type line) :: gs))
    as (ds1 & s1 & E); [done|].
  exists (ds ++ ds1), s1. rewrite <- app_assoc, <- E. split; [done|].
  rewrite concat_app, concat_snoc. simpl. by rewrite !app_assoc.
Qed.

Lemma xml2iob_tail_concat tail ds s :
  ∃ ds' s',
    runs (xml2iob_tail tail) (ds ++ [s]) tt (ds' ++ [s'])
    ∧ concat (ds' ++ [s'])
      = concat (ds ++ [s])
        ++ match tail with Some tl => segment_pairs "" tl | None => [] end.
Proof.
  destruct tail as [tl|]; simpl.
  - destruct (Str.truthy tl) eqn:Htl; [apply tag_text_concat|].
    destruct tl; [|done]. exists ds, s. by rewrite app_nil_r.
  - exists ds, s. by rewrite app_nil_r.
Qed.

Lemma xml2iob_text_ok tag attrib text ds s :
  node_ok tag attrib text = true →
  ∃ ds' s',
    runs (xml2iob_text tag attrib text) (ds ++ [s]) tt (ds' ++ [s'])
    ∧ concat (ds' ++ [s'])
      = concat (ds ++ [s])
        ++ match text with
           | Some txt => segment_pairs (text_tag_type tag attrib) txt
           | None => []
           end.
Proof.
  intros Hok. destruct text as [txt|]; simpl.
  - destruct (Str.truthy txt) eqn:Htxt.
    + unfold node_ok, node_tag_type, text_tag_type in *. simpl in Hok.
      rewrite Htxt in Hok. simpl in Hok.
      destruct (String.eqb tag "ENAMEX"); simpl in Hok.
      * apply bool_decide_eq_true in Hok as [ty Hty]. rewrite Hty.
        destruct (tag_text_concat txt (Str.lower ty) ds s)
          as (ds' & s' & Hrun & Hc).
        exists ds', s'. split; [|done].
        eapply runs_bind; [apply runs_ret|done].
      * destruct (tag_text_concat txt "" ds s) as (ds' & s' & Hrun & Hc).
        exists ds', s'. split; [|done].
        eapply runs_bind; [apply runs_ret|done].
    + destruct txt; [|done]. exists ds, s. by rewrite app_nil_r.
  - exists ds, s. by rewrite app_nil_r.
Qed.

Lemma xml2iob_text_bad tag attrib text d :
  node_ok tag attrib text = false →
  result (xml2iob_text tag attrib text d) = inl (KeyError "TYPE").
Proof.
  unfold node_ok, xml2iob_text, node_tag_type, has_text.
  destruct text as [txt|]; [|done].
  destruct (Str.truthy txt); [|done].
  destruct (String.eqb tag "ENAMEX"); [|done]. simpl.
  intros Hno%bool_decide_eq_false.
  destruct (attrib !! "TYPE") eqn:E; [by destruct Hno|done].
Qed.

(** A well-typed tree is linearized without an exception and emits
    [tree_pairs]; a tree with a malformed node raises [KeyError]. *)
Lemma xml2iob_run root : ∀ ds s,
  if typed_ok root
  then ∃ ds' s',
      runs (xml2iob root) (ds ++ [s]) tt (ds' ++ [s'])
      ∧ concat (ds' ++ [s']) = concat (ds ++ [s]) ++ tree_pairs root
  else result (xml2iob root (ds ++ [s])) = inl (KeyError "TYPE").
Proof.
  induction root as [tag attrib text tail cs IHcs] using element_ind'.
  intros ds s. rewrite xml2iob_unfold. cbn [typed_ok tree_pairs].
  destruct (node_ok tag attrib text) eqn:Hnode; simpl;
    [|by apply result_bind_inl, xml2iob_text_bad].
  destruct (xml2iob_text_ok tag attrib text ds s Hnode)
    as (ds1 & s1 & Hrun1 & Hc1).
  assert (Hkids : ∀ ds s,
    if forallb typed_ok cs
    then ∃ ds' s',
        runs (xml2iob_children cs) (ds ++ [s]) tt (ds' ++ [s'])
        ∧ concat (ds' ++ [s'])
          = concat (ds ++ [s]) ++ flat_map tree_pairs cs
    else result (xml2iob_children cs (ds ++ [s])) = inl (KeyError "TYPE")).
  { clear -IHcs. induction IHcs as [|c cs Hc _ IH]; intros ds s.
    - simpl. exists ds, s. by rewrite app_nil_r.
    - rewrite xml2iob_children_cons. cbn [forallb flat_map].
      specialize (Hc ds s). destruct (typed_ok c); simpl;
        [|by apply result_bind_inl].
      destruct Hc as (ds1 & s1 & Hrun1 & Hc1).
      specialize (IH ds1 s1). destruct (forallb typed_ok cs).
      + destruct IH as (ds2 & s2 & Hrun2 & Hc2).
        exists ds2, s2. split; [by eapply runs_bind|].
        by rewrite Hc2, Hc1, app_assoc.
      + by rewrite (result_bind_inr _ _ _ _ _ Hrun1). }
  specialize (Hkids ds1 s1). destruct (forallb typed_ok cs).
  - destruct Hkids as (ds2 & s2 & Hrun2 & Hc2).
    destruct (xml2iob_tail_concat tail ds2 s2) as (ds3 & s3 & Hrun3 & Hc3).
    exists ds3, s3. split.
    + eapply runs_bind; [done|]. by eapply runs_bind.
    + by rewrite Hc3, Hc2, Hc1, !app_assoc.
  - rewrite (result_bind_inr _ _ _ _ _ Hrun1).
    by apply result_bind_inl.
Qed.

End tree_lemmas.

Section token_lemmas.

Lemma fields_cons delim c s :
  Str.fields delim (String c s)
  = if delim c then "" :: Str.fields delim s
    else String c (hd "" (Str.fields delim s)) :: tl (Str.fields delim s).
Proof.
  simpl. destruct (delim c); [done|].
  by destruct (fields_nonempty delim s) as (l & ls & ->).
Qed.

Lemma fields_hd_tl delim s :
  Str.fields delim s
  = hd "" (Str.fields delim s) :: tl (Str.fields delim s).
Proof. by destruct (fields_nonempty delim s) as (l & ls & ->). Qed.

Lemma tokens_hd_tl delim s :
  Str.tokens delim s
  = List.filter Str.truthy [hd "" (Str.fields delim s)]
    ++ List.filter Str.truthy (tl (Str.fields delim s)).
Proof.
  unfold Str.tokens. rewrite (fields_hd_tl delim s) at 1.
  simpl. by destruct (Str.truthy _).
Qed.

Lemma tokens_lstrip p delim s :
  (∀ c, p c = true → delim c = true) →
  Str.tokens delim (Str.lstrip_by p s) = Str.tokens delim s.
Proof.
  intros Hp. induction s as [|c s IH]; [done|].
  simpl. destruct (p c) eqn:Hc; [|done].
  rewrite IH. unfold Str.tokens. simpl. by rewrite (Hp c Hc).
Qed.

Lemma fields_rstrip p delim s :
  (∀ c, p c = true → delim c = true) →
  hd "" (Str.fields delim (Str.rstrip_by p s)) = hd "" (Str.fields delim s)
  ∧ List.filter Str.truthy (tl (Str.fields delim (Str.rstrip_by p s)))
    = List.filter Str.truthy (tl (Str.fields delim s)).
Proof.
  intros Hp. induction s as [|c s [IHh IHt]]; [done|].
  cbn [Str.rstrip_by].
  destruct (p c && negb (Str.truthy (Str.rstrip_by p s))) eqn:Hc.
  - apply andb_true_iff in Hc as [Hc Hr].
    destruct (Str.rstrip_by p s); [|done].
    rewrite fields_cons, (Hp c Hc). simpl in *. split; [done|].
    rewrite (fields_hd_tl delim s). simpl. by rewrite <- IHh, <- IHt.
  - rewrite !fields_cons. destruct (delim c); simpl.
    + split; [done|].
      rewrite (fields_hd_tl delim s),
        (fields_hd_tl delim (Str.rstrip_by p s)).
      simpl. by rewrite IHh, IHt.
    + by rewrite IHh, IHt.
Qed.

(** Stripping delimiters from both ends does not change the tokens. *)
Lemma tokens_strip p delim s :
  (∀ c, p c = true → delim c = true) →
  Str.tokens delim (Str.strip_by p s) = Str.tokens delim s.
Proof.
  intros Hp. unfold Str.strip_by.
  rewrite tokens_hd_tl.
  destruct (fields_rstrip p delim (Str.lstrip_by p s) Hp) as [-> ->].
  rewrite <- tokens_hd_tl. by apply tokens_lstrip.
Qed.

Lemma line_words_tokens line :
  line_words line = Str.tokens (λ c, Ascii.eqb c Str.sp) line.
Proof.
  unfold line_words, Str.strip, Str.split.
  apply (tokens_strip _ (λ c, Ascii.eqb c Str.sp)).
  intros c. simpl. by rewrite orb_false_r.
Qed.

(** Splitting at newlines and then at spaces yields the same tokens as
    splitting at both. *)
Lemma fields_lines s :
  hd "" (Str.fields space_or_newline s)
  = hd "" (Str.fields (λ c, Ascii.eqb c Str.sp) (hd "" (Str.split Str.nl s)))
  ∧ List.filter Str.truthy (tl (Str.fields space_or_newline s))
    = List.filter Str.truthy
        (tl (Str.fields (λ c, Ascii.eqb c Str.sp)
               (hd "" (Str.split Str.nl s))))
      ++ concat (map (Str.tokens (λ c, Ascii.eqb c Str.sp))
                   (tl (Str.split Str.nl s))).
Proof.
  induction s as [|c s [IHh IHt]]; [done|].
  unfold Str.split in *.
  assert (Hd : space_or_newline c
               = (Ascii.eqb c Str.sp || Ascii.eqb c Str.nl)) by done.
  rewrite (fields_cons space_or_newline), Hd.
  rewrite (fields_cons (λ c, Ascii.eqb c Str.nl)).
  destruct (Ascii.eqb c Str.nl) eqn:Hnl.
  - rewrite orb_true_r. cbn [hd tl Str.fields]. split; [done|].
    fold (Str.tokens space_or_newline s). rewrite tokens_hd_tl.
    rewrite IHh, IHt, app_assoc, <- tokens_hd_tl.
    rewrite (fields_hd_tl (λ c, Ascii.eqb c Str.nl) s) at 3.
    done.
  - rewrite orb_false_r. cbn [hd tl].
    rewrite (fields_cons (λ c, Ascii.eqb c Str.sp)).
    destruct (Ascii.eqb c Str.sp) eqn:Hsp; cbn [hd tl].
    + split; [done|].
      fold (Str.tokens space_or_newline s). rewrite tokens_hd_tl.
      rewrite IHh, IHt, app_assoc, <- tokens_hd_tl. done.
    + by rewrite IHh, IHt.
Qed.

Lemma tokens_lines s :
  concat (map line_words (Str.split Str.nl s))
  = Str.tokens space_or_newline s.
Proof.
  rewrite (tokens_hd_tl space_or_newline).
  destruct (fields_lines s) as [-> ->].
  unfold Str.split. rewrite (fields_hd_tl _ s) at 1. simpl.
  rewrite line_words_tokens, tokens_hd_tl, <- app_assoc. f_equal. f_equal.
  f_equal. apply map_ext. intros l. apply line_words_tokens.
Qed.

Lemma tags_from_words tag_type tag_pos ws :
  map fst (tags_from tag_type tag_pos ws) = ws.
Proof.
  revert tag_pos. induction ws as [|w ws IH]; intros tag_pos; [done|].
  simpl. by rewrite IH.
Qed.

Lemma segment_pairs_tokens tag_type text :
  map fst (segment_pairs tag_type text) = Str.tokens space_or_newline text.
Proof.
  unfold segment_pairs. rewrite <- tokens_lines.
  induction (Str.split Str.nl text) as [|l ls IH]; [done|].
  simpl. rewrite map_app, IH. f_equal. apply tags_from_words.
Qed.

Lemma tree_pairs_tokens root :
  map fst (tree_pairs root) = tree_tokens space_or_newline root.
Proof.
  induction root as [tag attrib text tail cs IHcs] using element_ind'.
  cbn [tree_pairs tree_tokens]. rewrite !map_app. f_equal; [|f_equal].
  - destruct text; [apply segment_pairs_tokens|done].
  - induction IHcs as [|c cs Hc _ IH]; [done|].
    simpl. by rewrite map_app, Hc, IH.
  - destruct tail; [apply segment_pairs_tokens|done].
Qed.

End token_lemmas.

(** ** The trace of the accumulator *)

Section trace_lemmas.

Lemma last_app_default {A} (hs hs' : list A) d :
  List.last (hs ++ hs') d = List.last hs' (List.last hs d).
Proof.
  induction hs' as [|x xs _] using rev_ind.
  - by rewrite app_nil_r.
  - by rewrite app_assoc, !last_last.
Qed.

Lemma last_cons_default {A} (h : A) hs d :
  List.last (h :: hs) d = List.last hs h.
Proof.
  revert h d. induction hs as [|h2 hs IH]; intros h d; [done|].
  change (List.last (h2 :: hs) d = List.last (h2 :: hs) h).
  by rewrite !IH.
Qed.

Lemma steps_app d hs hs' :
  steps d hs → steps (List.last hs d) hs' → steps d (hs ++ hs').
Proof.
  revert d. induction hs as [|h hs IH]; intros d; [done|].
  intros [Hstep Hrest] Hlast. split; [done|].
  apply IH; [done|]. by rewrite <- (last_cons_default h hs d).
Qed.

Lemma traced_ret {A} (a : A) d : traced (ret a) d.
Proof. done. Qed.

Lemma traced_raise {A} e d : traced (raise (A := A) e) d.
Proof. done. Qed.

Lemma traced_bind {A B} (m : M A) (f : A → M B) d :
  traced m d →
  (∀ a, result (m d) = inr a → traced (f a) (final (m d))) →
  traced (bind m f) d.
Proof.
  intros [Hs Hf] Hk. unfold traced, bind.
  destruct (result (m d)) as [e|a] eqn:Hr; [done|].
  destruct (Hk a eq_refl) as [Hs' Hf']. cbn [history final]. split.
  - apply steps_app; [done|]. by rewrite <- Hf.
  - by rewrite last_app_default, <- Hf.
Qed.

Lemma traced_append_last p d : traced (append_last p) d.
Proof.
  unfold traced, append_last.
  destruct d as [|s0 d0]; [done|].
  destruct (exists_last (l := s0 :: d0)) as (ds & s & ->); [done|].
  rewrite append_to_last_snoc. simpl. split; [|done].
  split; [constructor|done].
Qed.

Lemma traced_push_empty d : traced push_empty d.
Proof. split; [|done]. split; [constructor|done]. Qed.

Lemma traced_tag_words tag_type words : ∀ tag_pos d,
  traced (tag_words tag_type words tag_pos) d.
Proof.
  induction words as [|word rest IH]; intros tag_pos d; simpl.
  - apply traced_ret.
  - destruct (Str.truthy word); simpl; [|apply IH].
    apply traced_bind; [apply traced_append_last|]. intros _ _. apply IH.
Qed.

Lemma traced_tag_lines tag_type nlines lines : ∀ i d,
  traced (tag_lines tag_type nlines i lines) d.
Proof.
  induction lines as [|line rest IH]; intros i d.
  - apply traced_ret.
  - rewrite tag_lines_cons.
    apply traced_bind; [apply traced_tag_words|]. intros _ _.
    apply traced_bind; [|intros _ _; apply IH].
    destruct (i <? nlines - 1)%nat;
      [apply traced_push_empty|apply traced_ret].
Qed.

Lemma traced_tag_text text tag_type d : traced (tag_text text tag_type) d.
Proof. apply traced_tag_lines. Qed.

Lemma traced_xml2iob root : ∀ d, traced (xml2iob root) d.
Proof.
  induction root as [tag attrib text tail cs IHcs] using element_ind'.
  intros d. rewrite xml2iob_unfold.
  apply traced_bind; [|intros _ _; apply traced_bind].
  - unfold xml2iob_text. destruct text as [txt|]; [|apply traced_ret].
    destruct (Str.truthy txt); [|apply traced_ret].
    apply traced_bind.
    + unfold node_tag_type. destruct (String.eqb tag "ENAMEX");
        [|apply traced_ret].
      destruct (attrib !! "TYPE"); [apply traced_ret|apply traced_raise].
    + intros ty _. apply traced_tag_text.
  - generalize (final (xml2iob_text tag attrib text d)). clear d.
    induction IHcs as [|c cs Hc _ IH]; intros d; [apply traced_ret|].
    rewrite xml2iob_children_cons.
    apply traced_bind; [apply Hc|]. intros _ _. apply IH.
  - intros _ _. unfold xml2iob_tail. destruct tail as [tl|];
      [|apply traced_ret].
    destruct (Str.truthy tl); [apply traced_tag_text|apply traced_ret].
Qed.

Lemma step_snoc d h : step d h → ∃ ds s, h = ds ++ [s].
Proof. intros [ds s p|d']; eauto. Qed.

(** How an entry of a chain of steps relates to its neighbours. *)
Lemma steps_inv d hs pre h post :
  steps d hs → d :: hs = pre ++ h :: post →
  ((pre = [] ∧ h = d) ∨ (∃ pre' h0, pre = pre' ++ [h0] ∧ step h0 h))
  ∧ (∀ h' post', post = h' :: post' → step h h').
Proof.
  revert d pre. induction hs as [|h1 hs IH]; intros d pre Hs E.
  - destruct pre as [|x [|y pre]]; simplify_eq/=.
    split; [by left|]. intros; simplify_eq.
  - destruct Hs as [Hstep Hs]. destruct pre as [|x pre].
    + simplify_eq/=. split; [by left|]. intros; by simplify_eq.
    + injection E as <- E.
      destruct (IH _ _ Hs E) as [[[-> ->]|(pre' & h0 & -> & Hh)] Hnext].
      * split; [|done]. right. by exists [], d.
      * split; [|done]. right. by exists (d :: pre'), h0.
Qed.

End trace_lemmas.

(** ** The linearizer *)

(** C2, as worded: the emitted tokens are the whitespace-delimited
    substrings.  It fails on a text with a tab: ["a<TAB>b"] is emitted as
    one token, while it holds two whitespace-delimited substrings. *)
Lemma emits_whitespace_tokens_fails : ¬ emits_whitespace_tokens.
Proof.
  intros H.
  destruct (H (Element "DOC" ∅ (Some ("a" +:+ String Str.tab "b")) None []))
    as [Hlen _].
  vm_compute in Hlen. discriminate.
Qed.

(** C2, amended: for every document tree that is linearized without an
    exception (every [ENAMEX] node with text has a [TYPE]), the number of
    pairs emitted equals the number of non-empty substrings delimited by
    spaces and newlines across all text and tail segments of the tree, and
    the tokens come in the order of those substrings. *)
Theorem emitted_tokens root :
  typed_ok root = true →
  result (xml2iob root [[]]) = inr tt
  ∧ length (emitted root) = length (tree_tokens space_or_newline root)
  ∧ map fst (emitted root) = tree_tokens space_or_newline root.
Proof.
  intros Hok. pose proof (xml2iob_run root [] []) as H.
  rewrite Hok in H. destruct H as (ds' & s' & [Hr Hf] & Hc).
  unfold emitted. simpl in *. rewrite Hr, Hf, Hc. simpl.
  rewrite <- tree_pairs_tokens, length_map. done.
Qed.

Lemma emitted_tokens_witness :
  typed_ok sample_doc = true
  ∧ result (xml2iob sample_doc [[]]) = inr tt
  ∧ length (emitted sample_doc)
    = length (tree_tokens space_or_newline sample_doc)
  ∧ map fst (emitted sample_doc) = tree_tokens space_or_newline sample_doc.
Proof. split; [reflexivity|]. apply (emitted_tokens sample_doc). reflexivity. Defined.

Lemma mk_tag_typed tag_pos tag_type :
  Str.truthy tag_type = true →
  mk_tag tag_pos tag_type = tag_pos +:+ "-" +:+ tag_type.
Proof. intros H. unfold mk_tag. by rewrite H. Qed.

Lemma tags_from_inside tag_type ws :
  Str.truthy tag_type = true →
  Forall (λ p : token_tag, p.2 = "I-" +:+ tag_type) (tags_from tag_type I ws).
Proof.
  intros H. induction ws as [|w ws IH]; simpl; constructor; [|done].
  simpl. by rewrite mk_tag_typed.
Qed.

Lemma line_pairs_shape tag_type line :
  Str.truthy tag_type = true →
  line_pairs tag_type line = []
  ∨ begin_then_inside tag_type (line_pairs tag_type line).
Proof.
  intros H. unfold line_pairs. destruct (line_words line) as [|w ws];
    [by left|right].
  exists w, (tags_from tag_type I ws). simpl. rewrite mk_tag_typed by done.
  split; [done|]. by apply tags_from_inside.
Qed.

Lemma line_pairs_words tag_type line :
  map fst (line_pairs tag_type line) = line_words line.
Proof. apply tags_from_words. Qed.

(** C3, as worded: one B-tag per entity segment, also for a segment with a
    newline.  It fails on the segment ["New<NL>York"] of type [gpe], whose
    two tokens both get [B-gpe]. *)
Lemma one_begin_per_segment_fails : ¬ one_begin_per_segment.
Proof.
  intros H.
  destruct (H ("New" +:+ Str.nl_str +:+ "York") "gpe" [[]]
              [("New", "B-gpe"); ("York", "B-gpe")])
    as (w & rest & E & HI); [done|done|by vm_compute|done|].
  injection E as _ <-. by inversion HI.
Qed.

(** C3, amended: for every entity-span text segment (the text of an
    [ENAMEX] node with a non-empty [TYPE]), on each line of the segment that
    yields at least one token, exactly the first token of the line is
    emitted with the B-tag and every later token of that line with the I-tag
    of the same lowercased type; the first line extends the open sentence
    and each further line is a sentence of its own. *)
Theorem entity_line_begin_inside (attrib : gmap string string)
    (TYPE text : string) (ds : iob) (s : sentence) :
  attrib !! "TYPE" = Some TYPE → TYPE ≠ "" →
  ∃ g gs,
    runs (xml2iob (Element "ENAMEX" attrib (Some text) None []))
      (ds ++ [s]) tt (ds ++ (s ++ g) :: gs)
    ∧ map (map fst) (g :: gs) = map line_words (Str.split Str.nl text)
    ∧ Forall (λ grp, grp = [] ∨ begin_then_inside (Str.lower TYPE) grp)
        (g :: gs).
Proof.
  intros Hty Hne.
  assert (Hlow : Str.truthy (Str.lower TYPE) = true) by by destruct TYPE.
  destruct (tag_text_run text (Str.lower TYPE) ds s)
    as (line & lines & Hs & Hrun).
  exists (line_pairs (Str.lower TYPE) line),
    (map (line_pairs (Str.lower TYPE)) lines).
  split; [|split].
  - rewrite xml2iob_unfold.
    eapply runs_bind; [|eapply runs_bind; apply runs_ret].
    unfold xml2iob_text. destruct (Str.truthy text) eqn:Htxt.
    + eapply runs_bind; [|exact Hrun].
      unfold node_tag_type. simpl. rewrite Hty. apply runs_ret.
    + destruct text; [|done]. injection Hs as <- <-. simpl.
      rewrite app_nil_r. apply runs_ret.
  - rewrite Hs. change (map (map fst) (map (line_pairs (Str.lower TYPE))
                                         (line :: lines))
                        = map line_words (line :: lines)).
    rewrite map_map. apply map_ext. intros l. apply line_pairs_words.
  - change (Forall (λ grp, grp = [] ∨ begin_then_inside (Str.lower TYPE) grp)
              (map (line_pairs (Str.lower TYPE)) (line :: lines))).
    apply Forall_map, Forall_forall. intros l _. by apply line_pairs_shape.
Qed.

Lemma entity_line_begin_inside_witness :
  ∃ g gs,
    runs (xml2iob (Element "ENAMEX" {[ "TYPE" := "GPE" ]}
                     (Some ("New" +:+ Str.nl_str +:+ "York City")) None []))
      ([] ++ [[]]) tt ([] ++ ([] ++ g) :: gs)
    ∧ map (map fst) (g :: gs)
      = map line_words (Str.split Str.nl ("New" +:+ Str.nl_str +:+ "York City"))
    ∧ Forall (λ grp, grp = [] ∨ begin_then_inside (Str.lower "GPE") grp)
        (g :: gs).
Proof.
  apply (entity_line_begin_inside {[ "TYPE" := "GPE" ]} "GPE"
           ("New" +:+ Str.nl_str +:+ "York City") [] []).
  - reflexivity.
  - discriminate.
Defined.

(** C5, as worded: the last sentence of the accumulator is empty only before
    the first token of the document.  It fails after a newline: linearizing
    ["Alice<NL>Bob"] passes through the accumulator [[["Alice"]; []]]. *)
Lemma open_sentence_empty_only_at_start_fails :
  ¬ open_sentence_empty_only_at_start.
Proof.
  intros H.
  destruct (H (Element "DOC" ∅ (Some ("Alice" +:+ Str.nl_str +:+ "Bob"))
                 None [])
              [[("Alice", "O")]; []]) as [_ Hc].
  - apply list_elem_of_In. vm_compute. tauto.
  - by specialize (Hc eq_refl).
Qed.

(** C5, amended: at every point during and after the traversal of a
    document from the initial [[[]]], the accumulator is non-empty and its
    last element is the open sentence: each mutation either appends a pair
    to the last element or pushes a new empty last element, and the
    accumulator after the last mutation is the one the traversal leaves.
    The last element is empty only in the initial accumulator or right
    after a sentence split pushed it. *)
Theorem open_sentence_invariant root pre h post :
  states root = pre ++ h :: post →
  (∃ ds s, h = ds ++ [s])
  ∧ (∀ h' post', post = h' :: post' → step h h')
  ∧ (post = [] → final (xml2iob root [[]]) = h)
  ∧ (last h = Some [] →
     pre = [] ∨ ∃ pre' h0, pre = pre' ++ [h0] ∧ h = h0 ++ [[]]).
Proof.
  intros E. destruct (traced_xml2iob root [[]]) as [Hs Hf].
  destruct (steps_inv _ _ _ _ _ Hs E) as [Hprev Hnext].
  split; [|split; [done|split]].
  - destruct Hprev as [[_ ->]|(pre' & h0 & _ & Hstep)];
      [by exists [], []|by eapply step_snoc].
  - intros ->. rewrite Hf.
    rewrite <- (last_cons_default [[]] _ []).
    unfold states in E. rewrite E. apply last_last.
  - intros Hlast. destruct Hprev as [[-> _]|(pre' & h0 & -> & Hstep)];
      [by left|right].
    exists pre', h0. split; [done|].
    destruct Hstep as [ds s p|d]; [|done].
    rewrite last_snoc in Hlast. by destruct s; simplify_eq/=.
Qed.

Lemma open_sentence_invariant_witness :
  let root := Element "DOC" ∅ (Some ("Alice" +:+ Str.nl_str +:+ "Bob"))
                None [] in
  let h := [[("Alice", "O")]; []] in
  (∃ ds s, h = ds ++ [s])
  ∧ (∀ h' post',
       [[[("Alice", "O")]; [("Bob", "O")]]] = h' :: post' → step h h')
  ∧ ([[[("Alice", "O")]; [("Bob", "O")]]] = [] →
     final (xml2iob root [[]]) = h)
  ∧ (last h = Some [] →
     [[[]]; [[("Alice", "O")]]] = []
     ∨ ∃ pre' h0, [[[]]; [[("Alice", "O")]]] = pre' ++ [h0]
                  ∧ h = h0 ++ [[]]).
Proof.
  apply (open_sentence_invariant
           (Element "DOC" ∅ (Some ("Alice" +:+ Str.nl_str +:+ "Bob")) None [])
           [[[]]; [[("Alice", "O")]]]
           [[("Alice", "O")]; []]
           [[[("Alice", "O")]; [("Bob", "O")]]]).
  reflexivity.
Defined.

(** C6: an [ENAMEX] node with [TYPE] ["PERSON"], text ["John Smith"] and
    tail [" works here"] appends [("John","B-person")] and
    [("Smith","I-person")] for its text and then [("works","O")] and
    [("here","O")] for its tail, all to the sentence that was open; and the
    tail of any node only ever adds pairs tagged ["O"]. *)
Theorem person_span_then_tail :
  (∀ ds s,
     runs (xml2iob (Element "ENAMEX" {[ "TYPE" := "PERSON" ]}
                      (Some "John Smith") (Some " works here") []))
       (ds ++ [s]) tt
       (ds ++ [s ++ [("John", "B-person"); ("Smith", "I-person");
                     ("works", "O"); ("here", "O")]]))
  ∧ (∀ tl ds s, ∃ ds' s' seg,
       runs (xml2iob_tail (Some tl)) (ds ++ [s]) tt (ds' ++ [s'])
       ∧ concat (ds' ++ [s']) = concat (ds ++ [s]) ++ seg
       ∧ Forall (λ p : token_tag, p.2 = O) seg).
Proof.
  split.
  - intros ds s. rewrite xml2iob_unfold.
    eapply runs_bind; [|eapply runs_bind; [apply runs_ret|]].
    + eapply runs_bind; [apply runs_ret|].
      apply (tag_lines_run _ 1 0 "John Smith" [] ds s). done.
    + replace (s ++ [("John", "B-person"); ("Smith", "I-person");
                     ("works", "O"); ("here", "O")])
        with ((s ++ [("John", "B-person"); ("Smith", "I-person")])
                ++ [("works", "O"); ("here", "O")])
        by by rewrite <- app_assoc.
      apply (tag_lines_run "" 1 0 " works here" [] ds). done.
  - intros tl ds s.
    destruct (xml2iob_tail_concat (Some tl) ds s) as (ds' & s' & Hrun & Hc).
    exists ds', s', (segment_pairs "" tl). split; [done|split; [done|]].
    unfold segment_pairs. apply Forall_concat, Forall_map, Forall_forall.
    intros line _. unfold line_pairs. generalize B.
    induction (line_words line) as [|w ws IH]; intros pos; simpl;
      constructor; [done|apply IH].
Qed.

(** C7: outside any span the text ["Alice<NL>Bob"] yields the two sentences
    [[("Alice","O")]] and [[("Bob","O")]]; in general the pairs of the
    first line of a segment go to the open sentence and every further line
    starts a sentence of its own, pushed after the line before it, so a
    segment of [k] lines adds [k - 1] sentences. *)
Theorem newline_splits_sentences :
  final (xml2iob (Element "DOC" ∅ (Some ("Alice" +:+ Str.nl_str +:+ "Bob"))
                    None []) [[]])
  = [[("Alice", "O")]; [("Bob", "O")]]
  ∧ (∀ text tag_type ds s, ∃ line lines,
       Str.split Str.nl text = line :: lines
       ∧ runs (tag_text text tag_type) (ds ++ [s]) tt
           (ds ++ (s ++ line_pairs tag_type line)
                  :: map (line_pairs tag_type) lines)
       ∧ length (final (tag_text text tag_type (ds ++ [s])))
         = length (ds ++ [s]) + (length (Str.split Str.nl text) - 1)).
Proof.
  split; [by vm_compute|].
  intros text tag_type ds s.
  destruct (tag_text_run text tag_type ds s) as (line & lines & Hs & Hrun).
  exists line, lines. split; [done|split; [done|]].
  destruct Hrun as [_ ->]. rewrite Hs, !length_app. simpl.
  rewrite length_map. lia.
Qed.

(** ** The document validator *)

Lemma malformed_not_typed root : malformed_in root → typed_ok root = false.
Proof.
  induction 1 as [tag attrib text tail cs -> Htext Hno
                 |tag attrib text tail cs c Hin _ IH]; cbn [typed_ok].
  - unfold node_ok. rewrite Htext, Hno. done.
  - apply andb_false_iff. right. apply not_true_is_false.
    rewrite forallb_forall. intros Hall.
    apply list_elem_of_In in Hin. specialize (Hall c Hin). congruence.
Qed.

Section files_lemmas.

Variable read_file : string → exn + string.
Variable fromstring : string → option element.

Lemma parse_iob_files_from_error iob_data before filename after e :
  parse_iob_file read_file fromstring filename = inl e →
  ∃ e', parse_iob_files_from read_file fromstring iob_data
          (before ++ filename :: after) = inl e'.
Proof.
  intros He. revert iob_data.
  induction before as [|f before IH]; intros iob_data; simpl.
  - rewrite He. by eexists.
  - destruct (parse_iob_file read_file fromstring f); [by eexists|apply IH].
Qed.

End files_lemmas.

(** Scenario 4 of the specification: five non-empty raw lines and three
    sentences pass; five non-empty raw lines and four sentences raise. *)
Example five_lines_three_sentences :
  parse_iob_file sample_read_file sample_fromstring "00.name"
  = inr [[("John", "B-person"); ("Smith", "I-person");
          ("works", "O"); ("here", "O")];
         [("Alice", "O")]; [("Bob", "O")]].
Proof. by vm_compute. Qed.

Example five_lines_four_sentences :
  length (raw_lines sample_raw_charref) = 5
  ∧ parse_iob_file sample_read_file sample_fromstring "01.name"
    = inl (RuntimeError
             "Parsed sentences `4` does not match number of lines `3` in `01.name`").
Proof. by vm_compute. Qed.

(** C9: when an [ENAMEX] node of a document has text and no [TYPE]
    attribute, processing the document raises [KeyError] for the missing
    attribute, and a run of [parse_iob_files] over any list of files that
    contains the document ends in an exception: no sentence list is
    returned. *)
Theorem malformed_entity_is_fatal (read_file : string → exn + string)
    (fromstring : string → option element)
    (filename raw_data : string) (et_root : element) :
  read_file filename = inr raw_data →
  fromstring raw_data = Some et_root →
  malformed_in et_root →
  parse_iob_file read_file fromstring filename = inl (KeyError "TYPE")
  ∧ ∀ before after verbose, ∃ e,
      parse_iob_files read_file fromstring (before ++ filename :: after)
        verbose
      = inl e.
Proof.
  intros Hread Hparse Hbad.
  assert (He : parse_iob_file read_file fromstring filename
               = inl (KeyError "TYPE")).
  { unfold parse_iob_file. rewrite Hread, Hparse.
    pose proof (xml2iob_run et_root [] []) as H.
    rewrite (malformed_not_typed _ Hbad) in H. simpl in H. by rewrite H. }
  split; [done|]. intros before after verbose.
  by eapply parse_iob_files_from_error.
Qed.

Lemma malformed_entity_is_fatal_witness :
  malformed_in sample_doc_untyped
  ∧ parse_iob_file sample_read_file sample_fromstring "02.name"
    = inl (KeyError "TYPE")
  ∧ ∀ before after verbose, ∃ e,
      parse_iob_files sample_read_file sample_fromstring
        (before ++ "02.name" :: after) verbose = inl e.
Proof.
  assert (Hbad : malformed_in sample_doc_untyped).
  { eapply malformed_child; [apply list_elem_of_here|].
    by apply malformed_here. }
  split; [exact Hbad|].
  apply (malformed_entity_is_fatal sample_read_file sample_fromstring
           "02.name" sample_raw_untyped sample_doc_untyped).
  - reflexivity.
  - reflexivity.
  - exact Hbad.
Defined.

(** ** The serializer *)

Section serializer_lemmas.

Lemma append_cons x (a b : string) : String x a +:+ b = String x (a +:+ b).
Proof. reflexivity. Qed.

Lemma append_nil_l (b : string) : "" +:+ b = b.
Proof. reflexivity. Qed.

Lemma append_assoc (a b c : string) : (a +:+ b) +:+ c = a +:+ (b +:+ c).
Proof.
  induction a as [|x a IH]; [done|]. by rewrite !append_cons, IH.
Qed.

Lemma append_nil_r (a : string) : a +:+ "" = a.
Proof. induction a as [|x a IH]; [done|]. by rewrite append_cons, IH. Qed.

Lemma fields_app_delim delim line c rest :
  Str.all (λ x, negb (delim x)) line = true → delim c = true →
  Str.fields delim (line +:+ String c rest) = line :: Str.fields delim rest.
Proof.
  intros Hline Hc. induction line as [|x line IH].
  - rewrite append_nil_l. simpl. by rewrite Hc.
  - simpl in Hline. apply andb_true_iff in Hline as [Hx Hline].
    apply negb_true_iff in Hx. rewrite append_cons. simpl.
    by rewrite Hx, IH.
Qed.

Lemma split_first_app sep w t :
  Str.all (λ x, negb (Ascii.eqb x sep)) w = true →
  Str.split_first sep (w +:+ String sep t) = (w, t).
Proof.
  intros Hw. induction w as [|x w IH].
  - rewrite append_nil_l. simpl. by rewrite Ascii.eqb_refl.
  - simpl in Hw. apply andb_true_iff in Hw as [Hx Hw].
    apply negb_true_iff in Hx. rewrite append_cons. simpl.
    by rewrite Hx, IH.
Qed.

Lemma all_impl (p q : ascii → bool) s :
  (∀ c, p c = true → q c = true) → Str.all p s = true → Str.all q s = true.
Proof.
  intros Hpq. induction s as [|c s IH]; simpl; [done|].
  intros [Hc Hs]%andb_true_iff. by rewrite (Hpq c Hc), IH.
Qed.

Lemma all_app p a b :
  Str.all p a = true → Str.all p b = true → Str.all p (a +:+ b) = true.
Proof.
  intros Ha Hb. induction a as [|c a IH]; [done|].
  simpl in Ha. apply andb_true_iff in Ha as [Hc Ha].
  rewrite append_cons. simpl. by rewrite Hc, IH.
Qed.

Lemma clean_no_newline s :
  clean s → Str.all (λ x, negb (Ascii.eqb x Str.nl)) s = true.
Proof.
  apply all_impl. intros c. unfold space_or_newline.
  by intros [_ ?]%negb_true_iff%orb_false_iff; apply negb_true_iff.
Qed.

Lemma clean_no_space s :
  clean s → Str.all (λ x, negb (Ascii.eqb x Str.sp)) s = true.
Proof.
  apply all_impl. intros c. unfold space_or_newline.
  by intros [? _]%negb_true_iff%orb_false_iff; apply negb_true_iff.
Qed.

Lemma sentence_lines_cons p sent :
  sentence_lines (p :: sent) = token_tag_line p +:+ sentence_lines sent.
Proof.
  unfold sentence_lines. cbn [map String.concat].
  destruct (map token_tag_line sent); [by rewrite append_nil_r|done].
Qed.

Lemma token_tag_line_app w t rest :
  token_tag_line (w, t) +:+ rest
  = (w +:+ String Str.sp t) +:+ String Str.nl rest.
Proof.
  unfold token_tag_line. cbn [Str.join fst snd].
  by rewrite (append_assoc _ Str.nl_str rest).
Qed.

(** Reading back the lines of one sentence adds its pairs to the block
    being read. *)
Lemma read_sentence_lines sent rest cur :
  Forall (λ p : token_tag, clean p.1 ∧ clean p.2) sent →
  read_blocks (Str.split Str.nl (sentence_lines sent +:+ rest)) cur
  = read_blocks (Str.split Str.nl rest) (cur ++ sent).
Proof.
  intros Hclean. revert cur.
  induction Hclean as [|[w t] sent [Hw Ht] _ IH]; intros cur.
  - by rewrite app_nil_r.
  - cbn [fst snd] in *.
    rewrite sentence_lines_cons, append_assoc, token_tag_line_app.
    unfold Str.split. rewrite fields_app_delim; [|..|done].
    + cbn [read_blocks].
      replace (Str.truthy (w +:+ String Str.sp t)) with true
        by by destruct w.
      rewrite split_first_app by by apply clean_no_space.
      fold (Str.split Str.nl (sentence_lines sent +:+ rest)).
      rewrite IH. by rewrite <- app_assoc.
    + apply all_app; [by apply clean_no_newline|].
      simpl. by apply clean_no_newline.
Qed.

Lemma iob_text_cons sent sent' data :
  iob_text (sent :: sent' :: data)
  = sentence_lines sent +:+ Str.nl_str +:+ iob_text (sent' :: data).
Proof. reflexivity. Qed.

(** The loop of [write_iob] writes [iob_text] when no sentence is empty. *)
Lemma write_sentences_text nsent data : ∀ i out,
  (i + length data)%nat = nsent →
  Forall (λ sent, sent ≠ []) data →
  write_sentences nsent i data out = (inr tt, out +:+ iob_text data).
Proof.
  induction data as [|sent data IH]; intros i out Hn Hne.
  - simpl. by rewrite append_nil_r.
  - apply Forall_cons in Hne as [Hsent Hne].
    cbn [write_sentences]. replace (nonempty sent) with true
      by by destruct sent.
    cbn [negb]. destruct data as [|sent' data].
    + replace (i <? nsent - 1)%nat with false
        by (symmetry; apply Nat.ltb_ge; simpl in Hn; lia).
      done.
    + replace (i <? nsent - 1)%nat with true
        by (symmetry; apply Nat.ltb_lt; simpl in Hn; lia).
      rewrite IH by (simpl in *; done || lia).
      by rewrite iob_text_cons, !append_assoc.
Qed.

Lemma write_iob_text filename data fs :
  Forall (λ sent, sent ≠ []) data →
  write_iob filename data fs = (inr tt, <[filename := iob_text data]> fs).
Proof.
  intros Hne. unfold write_iob.
  by rewrite (write_sentences_text (length data) data 0 "").
Qed.

(** Reading the written text back. *)
Lemma read_iob_text data :
  Forall (λ sent, sent ≠ []) data →
  Forall (Forall (λ p : token_tag, clean p.1 ∧ clean p.2)) data →
  read_iob (iob_text data) = data.
Proof.
  unfold read_iob. induction data as [|sent data IH]; intros Hne Hclean.
  - done.
  - apply Forall_cons in Hne as [Hsent Hne].
    apply Forall_cons in Hclean as [Hcs Hclean].
    destruct data as [|sent' data].
    + change (iob_text [sent]) with (sentence_lines sent).
      rewrite <- (append_nil_r (sentence_lines sent)).
      rewrite read_sentence_lines by done. simpl. by destruct sent.
    + rewrite iob_text_cons.
      rewrite read_sentence_lines by done.
      change (Str.nl_str +:+ iob_text (sent' :: data))
        with (String Str.nl (iob_text (sent' :: data))).
      unfold Str.split. rewrite fields_cons. simpl.
      fold (Str.split Str.nl (iob_text (sent' :: data))).
      rewrite IH by done. by destruct sent.
Qed.

End serializer_lemmas.

(** C8: for every non-empty list of non-empty sentences whose words and
    tags hold no space and no newline, [write_iob] succeeds and leaves in
    the file one line [word tag] per pair, the sentences separated by one
    blank line and nothing after the last line; reading that text back
    (blocks at blank lines, each line cut at its first space) gives the
    list that was written. *)
Theorem write_read_roundtrip (filename : string) (data : iob)
    (fs : gmap string string) :
  data ≠ [] →
  Forall (λ sent, sent ≠ []) data →
  Forall (Forall (λ p : token_tag, clean p.1 ∧ clean p.2)) data →
  ∃ text,
    write_iob filename data fs = (inr tt, <[filename := text]> fs)
    ∧ text = Str.join Str.nl_str (map sentence_lines data)
    ∧ read_iob text = data.
Proof.
  intros _ Hne Hclean. exists (iob_text data).
  split; [by apply write_iob_text|]. split; [done|].
  by apply read_iob_text.
Qed.

Lemma write_read_roundtrip_witness :
  let data := [[("John", "B-person"); ("Smith", "I-person");
                ("works", "O"); ("here", "O")];
               [("Alice", "O")]; [("Bob", "O")]] in
  ∃ text,
    write_iob "iob.txt" data ∅ = (inr tt, <[ "iob.txt" := text ]> ∅)
    ∧ text = Str.join Str.nl_str (map sentence_lines data)
    ∧ read_iob text = data.
Proof.
  apply (write_read_roundtrip "iob.txt"
           [[("John", "B-person"); ("Smith", "I-person");
             ("works", "O"); ("here", "O")];
            [("Alice", "O")]; [("Bob", "O")]] ∅).
  - discriminate.
  - repeat constructor; discriminate.
  - repeat constructor.
Defined.

(** ** The default fraction in binary64 *)

Section binary64_lemmas.

Local Open Scope Z_scope.

(** [digits2_pos p] is the number of bits of [p]. *)
Lemma digits2_pos_bounds p :
  2 ^ (Zpos (digits2_pos p) - 1) <= Zpos p < 2 ^ Zpos (digits2_pos p).
Proof.
  induction p as [p IH|p IH|]; cbn [digits2_pos]; [| |simpl; lia];
    rewrite Pos2Z.inj_succ;
    replace (Z.succ (Z.pos (digits2_pos p)) - 1)
      with (Z.succ (Z.pos (digits2_pos p) - 1)) by lia;
    rewrite !Z.pow_succ_r by lia; lia.
Qed.

Lemma digits2_pos_unique p d :
  2 ^ (d - 1) <= Zpos p < 2 ^ d → Zpos (digits2_pos p) = d.
Proof.
  intros [Hl Hu]. pose proof (digits2_pos_bounds p) as [Hl' Hu'].
  assert (0 < d).
  { destruct (Z_lt_le_dec 0 d); [lia|].
    rewrite (Z.pow_neg_r 2 (d - 1)) in Hl by lia.
    assert (d = 0 ∨ d < 0) as [->|] by lia; [simpl in Hu; lia|].
    rewrite Z.pow_neg_r in Hu by lia. lia. }
  assert (Z.pos (digits2_pos p) - 1 < d)
    by (apply (Z.pow_lt_mono_r_iff 2); lia).
  assert (d - 1 < Z.pos (digits2_pos p))
    by (apply (Z.pow_lt_mono_r_iff 2); lia).
  lia.
Qed.

(** Shifting a mantissa right divides it by a power of two. *)
Lemma shr_1_m mrs : 0 <= shr_m mrs → shr_m (shr_1 mrs) = shr_m mrs / 2.
Proof.
  destruct mrs as [m r s]. cbn [shr_m shr_1]. intros Hm.
  destruct m as [|[p|p|]|p]; cbn [shr_m];
    first [ reflexivity | lia
          | apply Z.div_unique with 1; lia
          | apply Z.div_unique with 0; lia ].
Qed.

Lemma iter_pos_shr_1_m k : ∀ mrs,
  0 <= shr_m mrs →
  shr_m (SpecFloat.iter_pos shr_1 k mrs) = shr_m mrs / 2 ^ Zpos k.
Proof.
  induction k as [k IH|k IH|]; intros mrs Hm; cbn [SpecFloat.iter_pos].
  - assert (H1 : 0 <= shr_m (shr_1 mrs))
      by (rewrite shr_1_m by done; apply Z.div_pos; lia).
    assert (H2 : 0 <= shr_m (SpecFloat.iter_pos shr_1 k (shr_1 mrs)))
      by (rewrite IH by done; apply Z.div_pos; lia).
    rewrite IH, IH, shr_1_m by assumption.
    rewrite !Z.div_div by lia. f_equal.
    replace (Z.pos k~1) with (1 + Z.pos k + Z.pos k) by lia.
    rewrite !Z.pow_add_r by lia. change (2 ^ 1) with 2. lia.
  - assert (H2 : 0 <= shr_m (SpecFloat.iter_pos shr_1 k mrs))
      by (rewrite IH by done; apply Z.div_pos; lia).
    rewrite IH, IH by assumption.
    rewrite !Z.div_div by lia. f_equal.
    replace (Z.pos k~0) with (Z.pos k + Z.pos k) by lia.
    rewrite !Z.pow_add_r by lia. lia.
  - rewrite shr_1_m by done. reflexivity.
Qed.

(** Rounding to nearest moves a mantissa by at most one. *)
Lemma round_nearest_even_bounds q l :
  q <= round_nearest_even q l <= q + 1.
Proof.
  unfold round_nearest_even. destruct l as [|[]]; try lia.
  destruct (Z.even q); lia.
Qed.

Lemma fexp_normal e : -1074 <= e - 53 → fexp 53 1024 e = e - 53.
Proof. intros H. unfold fexp, emin. lia. Qed.

(** Rounding an exact product that is [s] bits too long. *)
Lemma binary_round_aux_exact sx m e s :
  0 < s →
  2 ^ (52 + s) <= Zpos m < 2 ^ (53 + s) →
  -1074 <= e + s → e + s + 1 <= 971 →
  ∃ m'' e'',
    binary_round_aux 53 1024 sx (Zpos m) e loc_Exact = S754_finite sx m'' e''
    ∧ ((e'' = e + s
         ∧ Zpos m / 2 ^ s <= Zpos m'' <= Zpos m / 2 ^ s + 1)
        ∨ (e'' = e + s + 1 ∧ 2 * Zpos m'' = Zpos m / 2 ^ s + 1)).
Proof.
  intros Hs Hm He1 He2.
  assert (Hd : Zpos (digits2_pos m) = 53 + s).
  { apply digits2_pos_unique. replace (53 + s - 1) with (52 + s) by lia. done. }
  assert (Hq : 2 ^ 52 <= Zpos m / 2 ^ s < 2 ^ 53).
  { split.
    - apply Z.div_le_lower_bound; [lia|]. rewrite <- Z.pow_add_r by lia.
      replace (s + 52) with (52 + s) by lia. lia.
    - apply Z.div_lt_upper_bound; [lia|]. rewrite <- Z.pow_add_r by lia.
      replace (s + 53) with (53 + s) by lia. lia. }
  unfold binary_round_aux.
  assert (E1 : shr_fexp 53 1024 (Zpos m) e loc_Exact
               = (SpecFloat.iter_pos shr_1 (Z.to_pos s)
                    (Build_shr_record (Zpos m) false false), e + s)).
  { unfold shr_fexp. cbn [Zdigits2]. rewrite Hd, fexp_normal by lia.
    replace (53 + s + e - 53 - e) with s by lia.
    destruct s as [|ps|ps]; [lia| |lia]. reflexivity. }
  rewrite E1.
  set (mrs' := SpecFloat.iter_pos shr_1 (Z.to_pos s) _).
  assert (Hmrs : shr_m mrs' = Zpos m / 2 ^ s).
  { unfold mrs'. rewrite iter_pos_shr_1_m by (cbn; lia).
    rewrite Z2Pos.id by lia. reflexivity. }
  pose proof (round_nearest_even_bounds (shr_m mrs') (loc_of_shr_record mrs'))
    as Hr.
  set (m1 := round_nearest_even (shr_m mrs') (loc_of_shr_record mrs')) in *.
  rewrite Hmrs in Hr.
  destruct m1 as [|p1|p1] eqn:Em1; [lia| |lia].
  destruct (Z_lt_le_dec (Zpos p1) (2 ^ 53)) as [Hlt|Hge].
  - assert (Hd1 : Zpos (digits2_pos p1) = 53)
      by (apply digits2_pos_unique; change (53 - 1) with 52; lia).
    assert (E2 : shr_fexp 53 1024 (Zpos p1) (e + s) loc_Exact
                 = (Build_shr_record (Zpos p1) false false, e + s)).
    { unfold shr_fexp. cbn [Zdigits2]. rewrite Hd1, fexp_normal by lia.
      replace (53 + (e + s) - 53 - (e + s)) with 0 by lia. reflexivity. }
    rewrite E2. cbn [shr_m].
    replace (e + s <=? 1024 - 53) with true by (symmetry; apply Z.leb_le; lia).
    exists p1, (e + s). split; [done|]. left. lia.
  - assert (Hp1 : Zpos p1 = 2 ^ 53) by lia.
    assert (Hd1 : Zpos (digits2_pos p1) = 54)
      by (apply digits2_pos_unique; change (54 - 1) with 53; lia).
    assert (E2 : shr_fexp 53 1024 (Zpos p1) (e + s) loc_Exact
                 = (shr_1 (Build_shr_record (Zpos p1) false false), e + s + 1)).
    { unfold shr_fexp. cbn [Zdigits2]. rewrite Hd1, fexp_normal by lia.
      replace (54 + (e + s) - 53 - (e + s)) with 1 by lia. reflexivity. }
    rewrite E2.
    assert (Hm2 : shr_m (shr_1 (Build_shr_record (Zpos p1) false false)) = 2 ^ 52).
    { rewrite shr_1_m by (cbn; lia). cbn [shr_m]. rewrite Hp1. reflexivity. }
    rewrite Hm2. change (2 ^ 52) with (Zpos (2 ^ 52)%positive).
    cbv beta iota.
    replace (e + s + 1 <=? 1024 - 53) with true by (symmetry; apply Z.leb_le; lia).
    exists (2 ^ 52)%positive, (e + s + 1). split; [done|]. right.
    split; [done|]. change (Zpos (2 ^ 52)%positive) with (2 ^ 52). lia.
Qed.

(** A mantissa of 53 bits is left as it is. *)
Lemma binary_round_aux_canonical sx m e :
  2 ^ 52 <= Zpos m < 2 ^ 53 → -1074 <= e <= 971 →
  binary_round_aux 53 1024 sx (Zpos m) e loc_Exact = S754_finite sx m e.
Proof.
  intros Hm He.
  assert (Hd : Zpos (digits2_pos m) = 53)
    by (apply digits2_pos_unique; change (53 - 1) with 52; lia).
  assert (E : shr_fexp 53 1024 (Zpos m) e loc_Exact
              = (Build_shr_record (Zpos m) false false, e)).
  { unfold shr_fexp. cbn [Zdigits2]. rewrite Hd, fexp_normal by lia.
    replace (53 + e - 53 - e) with 0 by lia. reflexivity. }
  unfold binary_round_aux. rewrite E. cbn [shr_m loc_of_shr_record round_nearest_even].
  rewrite E. cbn [shr_m].
  replace (e <=? 1024 - 53) with true by (symmetry; apply Z.leb_le; lia).
  reflexivity.
Qed.

Lemma iter_xO_pow p q : Zpos (Pos.iter xO p q) = Zpos p * 2 ^ Zpos q.
Proof.
  change (Pos.iter xO p q) with (shift_pos q p).
  rewrite shift_pos_correct. change (Z.pow_pos 2 q) with (2 ^ Zpos q). lia.
Qed.

(** [float(n)] for a positive integer of [d <= 53] bits: the mantissa is
    [n] shifted to 53 bits. *)
Lemma float_of_int_pos p d :
  2 ^ (d - 1) <= Zpos p < 2 ^ d → 0 < d < 53 →
  ∃ mz,
    float_of_int (Zpos p) = inr (S754_finite false mz (d - 53))
    ∧ Zpos mz = Zpos p * 2 ^ (53 - d).
Proof.
  intros Hp Hd.
  assert (Hdig : Zpos (digits2_pos p) = d) by by apply digits2_pos_unique.
  enough (∃ mz,
    binary_normalize 53 1024 (Zpos p) 0 false = S754_finite false mz (d - 53)
    ∧ Zpos mz = Zpos p * 2 ^ (53 - d)) as (mz & E & Hmz)
    by (exists mz; unfold float_of_int; by rewrite E).
  unfold binary_normalize, binary_round, shl_align.
  rewrite Hdig, fexp_normal by lia.
  replace (d + 0 - 53 - 0) with (d - 53) by lia.
  replace (d + 0 - 53) with (d - 53) by lia.
  destruct (d - 53) as [|q|q] eqn:Eq; [lia|lia|].
  assert (Hmz : Zpos (Pos.iter xO p q) = Zpos p * 2 ^ (53 - d)).
  { rewrite iter_xO_pow. f_equal. f_equal. lia. }
  exists (Pos.iter xO p q). split; [|done].
  apply binary_round_aux_canonical; [|lia].
  rewrite Hmz. split.
  - replace 52 with ((d - 1) + (53 - d)) by lia. rewrite Z.pow_add_r by lia.
    apply Z.mul_le_mono_nonneg_r; lia.
  - replace 53 with (d + (53 - d)) at 2 by lia. rewrite Z.pow_add_r by lia.
    apply Z.mul_lt_mono_pos_r; lia.
Qed.

Lemma int_of_float_finite m e :
  e <= 0 → int_of_float (S754_finite false m e) = inr (Zpos m / 2 ^ (- e)).
Proof.
  intros He. unfold int_of_float. destruct e as [|p|p]; [|lia|].
  - simpl. by rewrite Z.div_1_r.
  - reflexivity.
Qed.

(** The arithmetic behind [binary64_count]: a mantissa within one unit of
    the truncated product [c * X / T] truncates to [floor(7 n / 100)]. *)
Lemma count_bounds (X Y u T V q m K : Z) :
  0 < T → 0 < V → 32 <= u → 0 <= X < 2 ^ 53 → T <= 2 ^ 53 →
  V * T = 2 ^ 56 * u →
  Y = K * u →
  100 * Y <= 7 * X <= 100 * Y + 99 * u →
  q * T <= 5044031582654956 * X < q * T + T →
  q <= m <= q + 1 →
  K * V <= m < (K + 1) * V.
Proof.
  intros HT HV Hu HX HT53 HVT HY H7 Hq Hm.
  assert (H1 : (K * V) * T <= 5044031582654956 * X).
  { replace (K * V * T) with (2 ^ 56 * Y) by (subst Y; nia).
    change (2 ^ 56) with 72057594037927936. lia. }
  assert (H2 : 5044031582654956 * X + 2 * T <= ((K + 1) * V) * T).
  { replace ((K + 1) * V * T) with (2 ^ 56 * (Y + u)) by (subst Y; nia).
    change (2 ^ 56) with 72057594037927936.
    change (2 ^ 53) with 9007199254740992 in *. lia. }
  split.
  - assert (K * V < q + 1); [|lia].
    apply (Z.mul_lt_mono_pos_r T); lia.
  - assert (q + 2 <= (K + 1) * V); [|lia].
    apply (Z.mul_le_mono_pos_r _ _ T); lia.
Qed.

(** [int(0.07 * n)] in binary64 is [floor(7 * n / 100)] below [2 ^ 48]. *)
Lemma float_count_0_07 (n : Z) :
  0 <= n < 2 ^ 48 → float_count float_0_07 n = inr (7 * n / 100).
Proof.
  intros Hn. destruct n as [|p|p]; [reflexivity| |lia].
  set (d := Zpos (digits2_pos p)).
  pose proof (digits2_pos_bounds p) as Hp. fold d in Hp.
  assert (Hd : 0 < d <= 48).
  { split; [unfold d; lia|].
    assert (d - 1 < 48); [|lia]. apply (Z.pow_lt_mono_r_iff 2); lia. }
  destruct (float_of_int_pos p d Hp ltac:(lia)) as (mz & Hf & Hmz).
  unfold float_count. rewrite Hf. cbn [SFmul float_0_07 xorb].
  set (u := 2 ^ (53 - d)) in *.
  set (X := Zpos p * u) in *.
  assert (Hu : 32 <= u).
  { unfold u. change 32 with (2 ^ 5). apply Z.pow_le_mono_r; lia. }
  assert (HX : 2 ^ 52 <= X < 2 ^ 53).
  { unfold X, u. split.
    - replace 52 with ((d - 1) + (53 - d)) by lia. rewrite Z.pow_add_r by lia.
      apply Z.mul_le_mono_nonneg_r; lia.
    - replace 53 with (d + (53 - d)) at 2 by lia. rewrite Z.pow_add_r by lia.
      apply Z.mul_lt_mono_pos_r; lia. }
  assert (HM : Zpos (5044031582654956 * mz) = 5044031582654956 * X)
    by (rewrite Pos2Z.inj_mul, Hmz; reflexivity).
  set (K := 7 * Zpos p / 100).
  assert (HK : 100 * K <= 7 * Zpos p <= 100 * K + 99).
  { pose proof (Z.div_mod (7 * Zpos p) 100 ltac:(lia)).
    pose proof (Z.mod_pos_bound (7 * Zpos p) 100 ltac:(lia)). unfold K. lia. }
  assert (Hcases : ∃ s, (s = 52 ∨ s = 53)
            ∧ 2 ^ (52 + s) <= Zpos (5044031582654956 * mz) < 2 ^ (53 + s)).
  { rewrite HM. change (2 ^ 52) with 4503599627370496 in HX.
    change (2 ^ 53) with 9007199254740992 in HX.
    destruct (Z_lt_le_dec (5044031582654956 * X) (2 ^ 105)) as [Hlt|Hge].
    - exists 52. split; [by left|]. change (2 ^ (52 + 52)) with (2 ^ 104).
      change (2 ^ (53 + 52)) with (2 ^ 105). split; [|done].
      change (2 ^ 104) with (4503599627370496 * 4503599627370496). nia.
    - exists 53. split; [by right|]. change (2 ^ (52 + 53)) with (2 ^ 105).
      change (2 ^ (53 + 53)) with (2 ^ 106). split; [done|].
      change (2 ^ 106) with (9007199254740992 * 9007199254740992). nia. }
  destruct Hcases as (s & Hs & HMs).
  destruct (binary_round_aux_exact false (5044031582654956 * mz)
              (-56 + (d - 53)) s ltac:(lia) HMs ltac:(lia) ltac:(lia))
    as (m'' & e'' & -> & Hres).
  set (q := Zpos (5044031582654956 * mz) / 2 ^ s) in *.
  assert (HT : 0 < 2 ^ s) by (apply Z.pow_pos_nonneg; lia).
  assert (HT53 : 2 ^ s <= 2 ^ 53) by (apply Z.pow_le_mono_r; lia).
  assert (Hq : q * 2 ^ s <= 5044031582654956 * X < q * 2 ^ s + 2 ^ s).
  { rewrite <- HM. unfold q.
    pose proof (Z.div_mod (Zpos (5044031582654956 * mz)) (2 ^ s) ltac:(lia)).
    pose proof (Z.mod_pos_bound (Zpos (5044031582654956 * mz)) (2 ^ s) HT).
    lia. }
  set (E := 109 - d - s).
  assert (HE : 0 < E) by (unfold E; lia).
  assert (HV : 0 < 2 ^ E) by (apply Z.pow_pos_nonneg; lia).
  assert (HVT : 2 ^ E * 2 ^ s = 2 ^ 56 * u).
  { unfold u, E. rewrite <- !Z.pow_add_r by lia. f_equal. lia. }
  assert (HY : 100 * (K * u) <= 7 * X <= 100 * (K * u) + 99 * u).
  { unfold X. replace (100 * (K * u)) with (100 * K * u) by ring.
    replace (7 * (Zpos p * u)) with (7 * Zpos p * u) by ring.
    replace (100 * K * u + 99 * u) with ((100 * K + 99) * u) by ring.
    split; apply Z.mul_le_mono_nonneg_r; lia. }
  rewrite int_of_float_finite by (destruct Hres as [[-> _]|[-> _]]; lia).
  f_equal. symmetry.
  destruct Hres as [[-> Hm]|[-> Hm]].
  - replace (- (-56 + (d - 53) + s)) with E by (unfold E; lia).
    pose proof (count_bounds X (K * u) u (2 ^ s) (2 ^ E) q (Zpos m'') K
                  HT HV Hu ltac:(lia) HT53 HVT eq_refl HY Hq Hm) as Hb.
    apply Z.div_unique with (Zpos m'' - 2 ^ E * K); lia.
  - replace (- (-56 + (d - 53) + s + 1)) with (E - 1) by (unfold E; lia).
    assert (HE2 : 2 ^ E = 2 * 2 ^ (E - 1)).
    { replace E with (1 + (E - 1)) at 1 by lia.
      rewrite Z.pow_add_r by lia. reflexivity. }
    pose proof (count_bounds X (K * u) u (2 ^ s) (2 ^ E) q (q + 1) K
                  HT HV Hu ltac:(lia) HT53 HVT eq_refl HY Hq ltac:(lia)) as Hb.
    apply Z.div_unique with (Zpos m'' - 2 ^ (E - 1) * K); lia.
Qed.

End binary64_lemmas.

(** The literal [0.07] is the correctly rounded quotient of 7 by 100. *)
Lemma float_0_07_nearest :
  SFdiv 53 1024 (S754_finite false 7881299347898368 (-50))
    (S754_finite false 7036874417766400 (-46))
  = float_0_07
  ∧ float_of_int 7 = inr (S754_finite false 7881299347898368 (-50))
  ∧ float_of_int 100 = inr (S754_finite false 7036874417766400 (-46)).
Proof. by vm_compute. Qed.

(** For a corpus of fewer than [2 ^ 48] sentences, [int(0.07 * nsent)],
    computed in binary64 with the rounding of the product, is
    [floor(7 * nsent / 100)]. *)
Lemma binary64_count (n : nat) :
  (Z.of_nat n < 2 ^ 48)%Z →
  float_count float_0_07 (Z.of_nat n) = inr (Z.of_nat (seven_percent n)).
Proof.
  intros Hn. rewrite float_count_0_07 by lia. f_equal.
  unfold seven_percent. by rewrite Nat2Z.inj_div, Nat2Z.inj_mul.
Qed.

(** ** The partitioner *)

Section store_lemmas.

Implicit Types (σ : store) (l x y a : loc).

Lemma alloc_fresh σ o : σ !! (alloc σ o).1 = None.
Proof. apply not_elem_of_dom, is_fresh. Qed.

Lemma alloc_subseteq σ o : σ ⊆ (alloc σ o).2.
Proof. apply insert_subseteq, (alloc_fresh σ o). Qed.

Lemma alloc_lookup σ o : (alloc σ o).2 !! (alloc σ o).1 = Some o.
Proof. apply lookup_insert_eq. Qed.

Lemma get_sent_weaken σ σ' a t :
  σ ⊆ σ' → get_sent σ a = Some t → get_sent σ' a = Some t.
Proof.
  unfold get_sent. intros Hsub H.
  destruct (σ !! a) as [[|t']|] eqn:E; simplify_eq.
  by rewrite (lookup_weaken _ _ _ _ E Hsub).
Qed.

Lemma get_corpus_weaken σ σ' l xs :
  σ ⊆ σ' → get_corpus σ l = Some xs → get_corpus σ' l = Some xs.
Proof.
  unfold get_corpus. intros Hsub H.
  destruct (σ !! l) as [[xs'|]|] eqn:E; simplify_eq.
  by rewrite (lookup_weaken _ _ _ _ E Hsub).
Qed.

(** Replacing a corpus list keeps every sentence. *)
Lemma get_sent_insert_corpus σ y ys xs a t :
  get_corpus σ y = Some ys →
  get_sent σ a = Some t → get_sent (<[y := Corpus xs]> σ) a = Some t.
Proof.
  unfold get_corpus, get_sent. intros Hy Ha.
  destruct (decide (y = a)) as [->|Hne].
  - destruct (σ !! a) as [[|]|]; simplify_eq.
  - by rewrite lookup_insert_ne.
Qed.

Lemma get_corpus_insert σ y xs :
  get_corpus (<[y := Corpus xs]> σ) y = Some xs.
Proof. unfold get_corpus. by rewrite lookup_insert_eq. Qed.

Lemma read_data_Some σ l d :
  read_data σ l = Some d ↔
  ∃ refs, get_corpus σ l = Some refs
          ∧ Forall2 (λ a t, get_sent σ a = Some t) refs d.
Proof.
  unfold read_data. split.
  - destruct (get_corpus σ l) as [refs|]; [|done]. simpl.
    intros H%mapM_Some. by exists refs.
  - intros (refs & -> & H). simpl. by apply mapM_Some.
Qed.

Lemma Forall2_slice {A B} (R : A → B → Prop) lo hi xs ds :
  Forall2 R xs ds → Forall2 R (slice lo hi xs) (slice lo hi ds).
Proof.
  intros H. unfold slice. rewrite (Forall2_length _ _ _ H).
  by apply Forall2_take, Forall2_drop.
Qed.

(** A new corpus list made of known references reads as their sentences. *)
Lemma read_data_alloc σ refs d :
  Forall2 (λ a t, get_sent σ a = Some t) refs d →
  read_data (alloc σ (Corpus refs)).2 (alloc σ (Corpus refs)).1 = Some d.
Proof.
  intros H. apply read_data_Some. exists refs. split.
  - unfold get_corpus. by rewrite alloc_lookup.
  - eapply Forall2_impl; [done|]. intros a t.
    apply get_sent_weaken, alloc_subseteq.
Qed.

Lemma read_data_weaken σ σ' l d :
  σ ⊆ σ' → read_data σ l = Some d → read_data σ' l = Some d.
Proof.
  intros Hsub (refs & Hc & H)%read_data_Some. apply read_data_Some.
  exists refs. split; [by eapply get_corpus_weaken|].
  eapply Forall2_impl; [done|]. intros a t. by apply get_sent_weaken.
Qed.

(** The copy loop: every element is copied or found in the memo, and the
    store the call started from is left as it was. *)
Lemma deepcopy_elems_ok σ0 y refs : ∀ d memo σ ys dys,
  σ0 !! y = None →
  σ0 ⊆ σ →
  get_corpus σ y = Some ys →
  Forall2 (λ a t, get_sent σ a = Some t) ys dys →
  Forall2 (λ a t, get_sent σ0 a = Some t) refs d →
  (∀ a a' t, memo !! a = Some a' → get_sent σ0 a = Some t →
             get_sent σ a' = Some t) →
  ∃ memo' σ' ys',
    deepcopy_elems refs y memo σ = Some (memo', σ')
    ∧ σ0 ⊆ σ'
    ∧ get_corpus σ' y = Some ys'
    ∧ Forall2 (λ a t, get_sent σ' a = Some t) ys' (dys ++ d).
Proof.
  induction refs as [|a refs IH];
    intros d memo σ ys dys Hy0 Hsub Hy Hys Hd Hmemo.
  - apply Forall2_nil_inv_l in Hd as ->. rewrite app_nil_r.
    by exists memo, σ, ys.
  - apply Forall2_cons_inv_l in Hd as (t & d' & Ha & Hd & ->).
    cbn [deepcopy_elems]. unfold deepcopy_sent.
    destruct (memo !! a) as [a'|] eqn:Hm.
    + simpl. rewrite Hy. simpl.
      destruct (IH d' memo (<[y := Corpus (ys ++ [a'])]> σ)
                  (ys ++ [a']) (dys ++ [t]))
        as (memo' & σ' & ys' & Hrun & Hsub' & Hy' & Hys'); try done.
      * by apply insert_subseteq_r.
      * apply get_corpus_insert.
      * apply Forall2_app.
        -- eapply Forall2_impl; [done|]. intros b tb.
           by eapply get_sent_insert_corpus.
        -- constructor; [|done]. eapply get_sent_insert_corpus; [done|].
           by eapply Hmemo.
      * intros b b' tb Hb Hb0. eapply get_sent_insert_corpus; [done|].
        by eapply Hmemo.
      * exists memo', σ', ys'. by rewrite <- app_assoc in Hys'.
    + rewrite (get_sent_weaken _ _ _ _ Hsub Ha). simpl.
      set (a' := fresh (dom σ)). set (σ1 := <[a' := Sent t]> σ).
      assert (Ha' : σ !! a' = None) by apply (alloc_fresh σ (Sent t)).
      assert (Hsub1 : σ ⊆ σ1) by by apply insert_subseteq.
      rewrite (get_corpus_weaken _ _ _ _ Hsub1 Hy). simpl.
      destruct (IH d' (<[a := a']> memo) (<[y := Corpus (ys ++ [a'])]> σ1)
                  (ys ++ [a']) (dys ++ [t]))
        as (memo' & σ' & ys' & Hrun & Hsub' & Hy' & Hys'); try done.
      * apply insert_subseteq_r; [done|]. by etrans.
      * apply get_corpus_insert.
      * apply Forall2_app.
        -- eapply Forall2_impl; [done|]. intros b tb Hb.
           eapply get_sent_insert_corpus;
             [by eapply get_corpus_weaken|by eapply get_sent_weaken].
        -- constructor; [|done]. eapply get_sent_insert_corpus;
             [by eapply get_corpus_weaken|].
           unfold get_sent, σ1. by rewrite lookup_insert_eq.
      * intros b b' tb Hb Hb0.
        eapply get_sent_insert_corpus; [by eapply get_corpus_weaken|].
        destruct (decide (a = b)) as [->|Hne].
        -- rewrite lookup_insert_eq in Hb. simplify_eq.
           unfold get_sent, σ1. by rewrite lookup_insert_eq.
        -- rewrite lookup_insert_ne in Hb by done.
           eapply get_sent_weaken; [done|]. by eapply Hmemo.
      * exists memo', σ', ys'. by rewrite <- app_assoc in Hys'.
Qed.

Lemma deepcopy_ok σ x d :
  read_data σ x = Some d →
  ∃ y σ',
    deepcopy σ x = Some (y, σ')
    ∧ σ ⊆ σ' ∧ σ !! y = None ∧ read_data σ' y = Some d.
Proof.
  intros (refs & Hx & Hd)%read_data_Some. unfold deepcopy.
  rewrite Hx. simpl.
  set (y := fresh (dom σ)).
  assert (Hy : σ !! y = None) by apply (alloc_fresh σ (Corpus [])).
  destruct (deepcopy_elems_ok σ y refs d {[x := y]}
              (<[y := Corpus []]> σ) [] [])
    as (memo' & σ' & ys' & Hrun & Hsub' & Hy' & Hys'); try done.
  - by apply insert_subseteq.
  - apply get_corpus_insert.
  - intros a a' t Ha Ht. apply lookup_singleton_Some in Ha as [<- <-].
    unfold get_corpus, get_sent in *. by destruct (σ !! x) as [[|]|].
  - rewrite Hrun. simpl. exists y, σ'. split; [done|].
    split; [done|split; [done|]]. apply read_data_Some. by exists ys'.
Qed.

End store_lemmas.

Section partition_lemmas.

Context {rng : Type}.
Variable seed_rng : Z → rng.
Variable randbelow : rng → nat → nat * rng.
Hypothesis randbelow_lt : ∀ g n, (0 < n)%nat → ((randbelow g n).1 < n)%nat.

Implicit Types (σ : store) (l x y a : loc).

(** The shuffle loop only replaces the list at [x] by a permutation. *)
Lemma shuffle_from_ok x : ∀ (i : nat) g σ xs,
  get_corpus σ x = Some xs → (i ≤ length xs)%nat →
  ∃ g' xs',
    shuffle_from randbelow i x g σ = Some (g', <[x := Corpus xs']> σ)
    ∧ xs' ≡ₚ xs.
Proof.
  induction i as [|i IH]; intros g σ xs Hx Hi.
  - exists g, xs. split; [|done]. simpl. f_equal. f_equal.
    symmetry. apply insert_id. unfold get_corpus in Hx.
    by destruct (σ !! x) as [[|]|]; simplify_eq.
  - cbn [shuffle_from]. destruct i as [|i'].
    + exists g, xs. split; [|done]. f_equal. f_equal.
      symmetry. apply insert_id. unfold get_corpus in Hx.
      by destruct (σ !! x) as [[|]|]; simplify_eq.
    + pose proof (randbelow_lt g (S i' + 1) ltac:(lia)) as Hj.
      change (shuffle_from randbelow (S (S i')) x g σ)
        with (let '(j, g) := randbelow g (S i' + 1) in
              σ ← swap σ x (S i') j; shuffle_from randbelow (S i') x g σ).
      destruct (randbelow g (S i' + 1)) as [j g1]. cbn [fst] in Hj.
      destruct (lookup_lt_is_Some_2 xs j ltac:(lia)) as [xj Hxj].
      destruct (lookup_lt_is_Some_2 xs (S i') ltac:(lia)) as [xi Hxi].
      set (xs1 := <[j := xi]> (<[S i' := xj]> xs)).
      assert (Hswap : swap σ x (S i') j = Some (<[x := Corpus xs1]> σ)).
      { unfold swap. rewrite Hx. cbn [mbind option_bind].
        rewrite Hxj. cbn [mbind option_bind]. by rewrite Hxi. }
      rewrite Hswap. cbn [mbind option_bind].
      destruct (IH g1 (<[x := Corpus xs1]> σ) xs1) as (g' & xs' & Hrun & Hp).
      * apply get_corpus_insert.
      * unfold xs1. rewrite !length_insert. lia.
      * exists g', xs'. rewrite Hrun, insert_insert_eq. split; [done|].
        rewrite Hp. by apply Permutation_insert_swap.
Qed.

Lemma shuffle_ok x g σ d :
  read_data σ x = Some d →
  ∃ g' σ' d',
    shuffle randbelow x g σ = Some (g', σ')
    ∧ read_data σ' x = Some d'
    ∧ d' ≡ₚ d
    ∧ (∀ k, k ≠ x → σ' !! k = σ !! k).
Proof.
  intros (xs & Hx & Hd)%read_data_Some. unfold shuffle. rewrite Hx. simpl.
  destruct (shuffle_from_ok x (length xs) g σ xs Hx ltac:(done))
    as (g' & xs' & Hrun & Hp).
  destruct (Permutation_Forall2 (symmetry Hp) Hd) as (d' & Hpd & Hd').
  exists g', (<[x := Corpus xs']> σ), d'. split; [done|]. split; [|split].
  - apply read_data_Some. exists xs'. split; [apply get_corpus_insert|].
    eapply Forall2_impl; [done|]. intros a t.
    by eapply get_sent_insert_corpus.
  - by symmetry.
  - intros k Hk. by rewrite lookup_insert_ne.
Qed.

(** What a call of [build_random_partitions] does: the store it was given
    is kept; when both conversions succeed the three results are the slices
    of one permutation of the corpus, and otherwise the exception of the
    conversion is raised. *)
Lemma build_random_partitions_run σ iob_data valid_frac test_frac seed d :
  read_data σ iob_data = Some d →
  let nsent := Z.of_nat (length d) in
  ∃ σ' shuffled,
    σ ⊆ σ' ∧ shuffled ≡ₚ d
    ∧ match float_count valid_frac nsent, float_count test_frac nsent with
      | inr valid_end, inr test_count =>
          let test_end := (valid_end + test_count)%Z in
          ∃ r1 r2 r3,
            build_random_partitions seed_rng randbelow iob_data valid_frac
              test_frac seed σ = Some (inr (r1, r2, r3), σ')
            ∧ read_data σ' r1 = Some (slice None (Some valid_end) shuffled)
            ∧ read_data σ' r2
              = Some (slice (Some valid_end) (Some test_end) shuffled)
            ∧ read_data σ' r3 = Some (slice (Some test_end) None shuffled)
      | inl e, _ | inr _, inl e =>
          build_random_partitions seed_rng randbelow iob_data valid_frac
            test_frac seed σ = Some (inl e, σ')
      end.
Proof.
  intros Hd nsent. unfold build_random_partitions.
  destruct (deepcopy_ok σ iob_data d Hd) as (y & σ1 & -> & Hsub1 & Hy & Hd1).
  cbn [mbind option_bind].
  destruct (shuffle_ok y (seed_rng seed) σ1 d Hd1)
    as (g' & σ2 & d' & -> & Hd2 & Hp & Hframe).
  cbn [mbind option_bind].
  apply read_data_Some in Hd2 as (xs & Hxs & Hd2). rewrite Hxs.
  cbn [mbind option_bind].
  assert (Hsub2 : σ ⊆ σ2).
  { apply map_subseteq_spec. intros k o Hk.
    rewrite Hframe; [by eapply lookup_weaken|]. intros ->. congruence. }
  rewrite (Forall2_length _ _ _ Hd2), (Permutation_length Hp).
  fold nsent.
  destruct (float_count valid_frac nsent) as [e|valid_end];
    [by exists σ2, d'|].
  destruct (float_count test_frac nsent) as [e|test_count];
    [by exists σ2, d'|].
  set (test_end := (valid_end + test_count)%Z).
  set (o1 := Corpus (slice None (Some valid_end) xs)).
  set (o2 := Corpus (slice (Some valid_end) (Some test_end) xs)).
  set (o3 := Corpus (slice (Some test_end) None xs)).
  set (σ3 := (alloc σ2 o1).2). set (σ4 := (alloc σ3 o2).2).
  assert (H23 : σ2 ⊆ σ3) by apply alloc_subseteq.
  assert (H34 : σ3 ⊆ σ4) by apply alloc_subseteq.
  assert (H45 : σ4 ⊆ (alloc σ4 o3).2) by apply alloc_subseteq.
  exists (alloc σ4 o3).2, d'.
  split; [by repeat (etrans; [eassumption|])|]. split; [done|].
  exists (alloc σ2 o1).1, (alloc σ3 o2).1, (alloc σ4 o3).1.
  split; [done|]. split; [|split].
  - apply (read_data_weaken σ3); [by etrans|].
    apply read_data_alloc. by apply Forall2_slice.
  - apply (read_data_weaken σ4); [done|].
    apply read_data_alloc. apply Forall2_slice.
    eapply Forall2_impl; [done|]. intros a t. by apply get_sent_weaken.
  - apply read_data_alloc. apply Forall2_slice.
    eapply Forall2_impl; [done|]. intros a t.
    apply get_sent_weaken. by etrans.
Qed.

End partition_lemmas.

Lemma seven_percent_twice (n : nat) : (2 * seven_percent n ≤ n)%nat.
Proof.
  unfold seven_percent.
  pose proof (Nat.Div0.mul_div_le (7 * n) 100). lia.
Qed.

Lemma slice_index_of_nat (n k : nat) :
  (k ≤ n)%nat → slice_index n (Z.of_nat k) = k.
Proof.
  intros Hk. unfold slice_index.
  replace (Z.of_nat k <? 0)%Z with false by (symmetry; apply Z.ltb_ge; lia).
  rewrite Z.min_l by lia. apply Nat2Z.id.
Qed.

Lemma lcg_randbelow_lt (g : N) (n : nat) :
  (0 < n)%nat → ((lcg_randbelow g n).1 < n)%nat.
Proof.
  intros Hn. unfold lcg_randbelow. cbn [fst].
  pose proof (N.mod_lt ((1103515245 * g + 12345) mod 2147483648)
                (N.of_nat n) ltac:(lia)).
  lia.
Qed.

(** C1, as worded: [valid_data] and [test_data] hold seven percent of the
    sentences each and [train_data] the rest.  It fails on a corpus of 100
    sentences, where the result named [train_data] holds 7 sentences and the
    one named [test_data] holds 86. *)
Lemma partitions_as_named_fails : ¬ partitions_as_named.
Proof.
  intros H.
  destruct (H N lcg_seed lcg_randbelow lcg_randbelow_lt
              (store_of (numbered_corpus 100)).2
              (store_of (numbered_corpus 100)).1
              (numbered_corpus 100) ltac:(by vm_compute))
    as (tr & va & te & σ' & dtr & dva & dte
        & Hrun & Htr & Hva & Hte & Hlva & Hlte & Hltr).
  assert (H3 :
    third_size
      (build_random_partitions_default lcg_seed lcg_randbelow
         (store_of (numbered_corpus 100)).1
         (store_of (numbered_corpus 100)).2)
    = Some (seven_percent (length (numbered_corpus 100)))).
  { rewrite Hrun. unfold third_size. cbn [mbind option_bind].
    by rewrite Hte, <- Hlte. }
  vm_compute in H3. discriminate.
Qed.

(** C1, amended: for every corpus of [n] sentences, [n] below [2 ^ 48]
    (where the binary64 product [0.07 * n] truncates to [floor(0.07 * n)]),
    [build_random_partitions] with the default fractions shuffles a deep
    copy with the generator seeded by 42 and returns three contiguous
    slices of the shuffled copy, in this order: the first result (named
    [train_data]) has [floor(0.07 * n)] sentences, the second (named
    [valid_data]) has [floor(0.07 * n)] sentences and the third (named
    [test_data]) contains the remaining sentences; [main] writes the first
    to the validation file, the second to the test file and the third to
    the train file. *)
Theorem partitions_in_return_order {rng : Type} (seed_rng : Z → rng)
    (randbelow : rng → nat → nat * rng)
    (σ : store) (iob_data : loc) (d : iob) :
  (∀ g n, (0 < n)%nat → ((randbelow g n).1 < n)%nat) →
  read_data σ iob_data = Some d →
  (Z.of_nat (length d) < 2 ^ 48)%Z →
  let k := seven_percent (length d) in
  ∃ r1 r2 r3 σ' shuffled,
    build_random_partitions_default seed_rng randbelow iob_data σ
    = Some (inr (r1, r2, r3), σ')
    ∧ shuffled ≡ₚ d
    ∧ read_data σ' r1 = Some (take k shuffled)
    ∧ read_data σ' r2 = Some (take k (drop k shuffled))
    ∧ read_data σ' r3 = Some (drop (2 * k) shuffled)
    ∧ length (take k shuffled) = k
    ∧ length (take k (drop k shuffled)) = k
    ∧ length (drop (2 * k) shuffled) = (length d - 2 * k)%nat
    ∧ (Forall (λ sent, sent ≠ []) d →
       ∀ trainfile validfile testfile fs,
         main_partitions seed_rng randbelow trainfile validfile testfile
           iob_data σ fs
         = Some (inr tt,
                 <[trainfile := iob_text (drop (2 * k) shuffled)]>
                   (<[testfile := iob_text (take k (drop k shuffled))]>
                      (<[validfile := iob_text (take k shuffled)]> fs)))).
Proof.
  intros Hrb Hd Hsize k.
  destruct (build_random_partitions_run seed_rng randbelow Hrb σ iob_data
              float_0_07 float_0_07 42 d Hd)
    as (σ' & shuffled & _ & Hp & Hrun).
  rewrite (binary64_count _ Hsize) in Hrun. fold k in Hrun.
  destruct Hrun as (r1 & r2 & r3 & Hrun & H1 & H2 & H3).
  pose proof (Permutation_length Hp) as Hlen.
  pose proof (seven_percent_twice (length d)) as Hk. fold k in Hk.
  replace (Z.of_nat k + Z.of_nat k)%Z with (Z.of_nat (2 * k)) in H2, H3
    by lia.
  unfold slice in H1, H2, H3. cbn [from_option] in H1, H2, H3.
  rewrite slice_index_of_nat in H1 by lia.
  rewrite !slice_index_of_nat in H2 by lia.
  rewrite slice_index_of_nat in H3 by lia.
  rewrite Nat.sub_0_r in H1. rewrite drop_0 in H1.
  replace (2 * k - k)%nat with k in H2 by lia.
  rewrite take_ge in H3 by (rewrite length_drop; lia).
  exists r1, r2, r3, σ', shuffled.
  split; [done|]. split; [done|]. do 3 (split; [done|]).
  split; [|split; [|split]].
  - rewrite length_take. lia.
  - rewrite length_take, length_drop. lia.
  - rewrite length_drop. lia.
  - intros Hne trainfile validfile testfile fs.
    assert (Hne' : Forall (λ sent : sentence, sent ≠ []) shuffled)
      by by rewrite Hp.
    unfold main_partitions, write_iob_at, build_random_partitions_default.
    rewrite Hrun. cbn [mbind option_bind]. rewrite H1. cbn [mbind option_bind].
    rewrite write_iob_text by by apply Forall_take.
    rewrite H2. cbn [mbind option_bind].
    rewrite write_iob_text by by apply Forall_take, Forall_drop.
    rewrite H3. cbn [mbind option_bind].
    by rewrite write_iob_text by by apply Forall_drop.
Qed.

Lemma partitions_in_return_order_witness :
  let σ := (store_of (numbered_corpus 100)).2 in
  let iob_data := (store_of (numbered_corpus 100)).1 in
  let d := numbered_corpus 100 in
  let k := seven_percent (length d) in
  k = 7%nat
  ∧ ∃ r1 r2 r3 σ' shuffled,
      build_random_partitions_default lcg_seed lcg_randbelow iob_data σ
      = Some (inr (r1, r2, r3), σ')
      ∧ shuffled ≡ₚ d
      ∧ read_data σ' r1 = Some (take k shuffled)
      ∧ read_data σ' r2 = Some (take k (drop k shuffled))
      ∧ read_data σ' r3 = Some (drop (2 * k) shuffled)
      ∧ length (take k shuffled) = k
      ∧ length (take k (drop k shuffled)) = k
      ∧ length (drop (2 * k) shuffled) = (length d - 2 * k)%nat
      ∧ (Forall (λ sent, sent ≠ []) d →
         ∀ trainfile validfile testfile fs,
           main_partitions lcg_seed lcg_randbelow trainfile validfile
             testfile iob_data σ fs
           = Some (inr tt,
                   <[trainfile := iob_text (drop (2 * k) shuffled)]>
                     (<[testfile := iob_text (take k (drop k shuffled))]>
                        (<[validfile := iob_text (take k shuffled)]> fs)))).
Proof.
  split; [reflexivity|].
  apply (partitions_in_return_order lcg_seed lcg_randbelow
           (store_of (numbered_corpus 100)).2
           (store_of (numbered_corpus 100)).1
           (numbered_corpus 100) lcg_randbelow_lt).
  - vm_compute. reflexivity.
  - vm_compute. reflexivity.
Defined.

(** C10: for every corpus list, and whatever the fractions and the seed,
    a call of [build_random_partitions] ends, by returning or by raising
    the exception of a conversion, and leaves its argument unchanged:
    the list still holds the same sentences in the same order, and every
    object that existed before the call (the list and each of its
    sentences) is what it was, the shuffle having worked on a deep copy. *)
Theorem argument_unchanged {rng : Type} (seed_rng : Z → rng)
    (randbelow : rng → nat → nat * rng)
    (σ : store) (iob_data : loc) (valid_frac test_frac : spec_float)
    (seed : Z) (d : iob) :
  (∀ g n, (0 < n)%nat → ((randbelow g n).1 < n)%nat) →
  read_data σ iob_data = Some d →
  ∃ r σ',
    build_random_partitions seed_rng randbelow iob_data valid_frac test_frac
      seed σ = Some (r, σ')
    ∧ read_data σ' iob_data = Some d
    ∧ ∀ l o, σ !! l = Some o → σ' !! l = Some o.
Proof.
  intros Hrb Hd.
  destruct (build_random_partitions_run seed_rng randbelow Hrb σ iob_data
              valid_frac test_frac seed d Hd)
    as (σ' & shuffled & Hsub & _ & Hrun).
  assert (∃ r, build_random_partitions seed_rng randbelow iob_data valid_frac
                 test_frac seed σ = Some (r, σ')) as [r Hr].
  { destruct (float_count valid_frac _) as [e|valid_end]; [by eexists|].
    destruct (float_count test_frac _) as [e|test_count]; [by eexists|].
    destruct Hrun as (r1 & r2 & r3 & Hrun & _). by eexists. }
  exists r, σ'. split; [done|]. split.
  - by eapply read_data_weaken.
  - intros l o Hl. by eapply lookup_weaken.
Qed.

Lemma argument_unchanged_witness :
  let σ := (store_of (numbered_corpus 20)).2 in
  let iob_data := (store_of (numbered_corpus 20)).1 in
  ∃ r σ',
    build_random_partitions lcg_seed lcg_randbelow iob_data float_0_07
      float_0_07 42 σ = Some (r, σ')
    ∧ read_data σ' iob_data = Some (numbered_corpus 20)
    ∧ ∀ l o, σ !! l = Some o → σ' !! l = Some o.
Proof.
  apply (argument_unchanged lcg_seed lcg_randbelow
           (store_of (numbered_corpus 20)).2
           (store_of (numbered_corpus 20)).1
           float_0_07 float_0_07 42 (numbered_corpus 20) lcg_randbelow_lt).
  vm_compute. reflexivity.
Defined.

(** * Further properties of the linearizer *)

Section group_lemmas.

Lemma extend_snoc ds s g gs :
  extend (ds ++ [s]) (g :: gs) = ds ++ (s ++ g) :: gs.
Proof. unfold extend. by rewrite removelast_last, last_last. Qed.

Lemma snoc_of_nonempty {A} (l : list A) : l ≠ [] → ∃ ds s, l = ds ++ [s].
Proof.
  intros H. destruct (exists_last (l := l) H) as (ds & s & E).
  by exists ds, s.
Qed.

Lemma extend_nonempty d gs : d ≠ [] → extend d gs ≠ [].
Proof.
  intros Hd. destruct gs as [|g gs]; [done|].
  unfold extend. by destruct (removelast d).
Qed.

Lemma extend_assoc d a b :
  d ≠ [] → a ≠ [] → extend (extend d a) b = extend d (extend a b).
Proof.
  intros (ds & s & ->)%snoc_of_nonempty Ha.
  destruct b as [|h hs]; [done|].
  destruct a as [|g gs]; [done|]. rewrite extend_snoc.
  destruct (decide (gs = [])) as [->|(gs' & g' & ->)%snoc_of_nonempty].
  - rewrite extend_snoc. change (extend [g] (h :: hs)) with ((g ++ h) :: hs).
    rewrite extend_snoc. by rewrite app_assoc.
  - replace (ds ++ (s ++ g) :: gs' ++ [g'])
      with ((ds ++ (s ++ g) :: gs') ++ [g']) by (by rewrite <- app_assoc).
    rewrite extend_snoc. rewrite app_comm_cons, extend_snoc.
    rewrite <- app_comm_cons, extend_snoc. by rewrite <- app_assoc.
Qed.

Lemma foldl_extend d g gss :
  d ≠ [] → g ≠ [] → Forall (λ gs, gs ≠ []) gss →
  foldl extend (extend d g) gss = extend d (foldl extend g gss)
  ∧ foldl extend g gss ≠ [].
Proof.
  intros Hd Hg Hall. revert g Hg.
  induction Hall as [|gs gss Hgs _ IH]; intros g Hg; simpl; [done|].
  rewrite extend_assoc by done. apply IH. by apply extend_nonempty.
Qed.

Lemma segment_groups_nonempty tag_type text :
  segment_groups tag_type text ≠ [].
Proof.
  unfold segment_groups.
  by destruct (split_nonempty Str.nl text) as (l & ls & ->).
Qed.

Lemma text_groups_nonempty tag_type text : text_groups tag_type text ≠ [].
Proof. destruct text; [apply segment_groups_nonempty|done]. Qed.

Lemma tree_groups_nonempty root : tree_groups root ≠ [].
Proof.
  destruct root as [tag attrib text tail cs]. cbn [tree_groups].
  pose proof (text_groups_nonempty "" tail) as H.
  destruct (text_groups "" tail) as [|g gs]; [done|].
  unfold extend. by destruct (removelast _).
Qed.

Lemma tag_text_groups text tag_type d :
  d ≠ [] →
  runs (tag_text text tag_type) d tt (extend d (segment_groups tag_type text)).
Proof.
  intros (ds & s & ->)%snoc_of_nonempty.
  destruct (tag_text_run text tag_type ds s) as (line & lines & Hs & Hrun).
  unfold segment_groups. rewrite Hs. simpl map. by rewrite extend_snoc.
Qed.

Lemma extend_empty_group d : d ≠ [] → extend d [[]] = d.
Proof.
  intros (ds & s & ->)%snoc_of_nonempty.
  by rewrite extend_snoc, app_nil_r.
Qed.

Lemma segment_groups_empty tag_type : segment_groups tag_type "" = [[]].
Proof. reflexivity. Qed.

Lemma xml2iob_tail_groups tail d :
  d ≠ [] →
  runs (xml2iob_tail tail) d tt (extend d (text_groups "" tail)).
Proof.
  intros Hd. destruct tail as [tl|]; cbn [xml2iob_tail text_groups].
  - destruct (Str.truthy tl) eqn:Htl; [by apply tag_text_groups|].
    destruct tl; [|done].
    rewrite segment_groups_empty, extend_empty_group by done.
    apply runs_ret.
  - rewrite extend_empty_group by done. apply runs_ret.
Qed.

Lemma xml2iob_text_groups tag attrib text d :
  node_ok tag attrib text = true → d ≠ [] →
  runs (xml2iob_text tag attrib text) d tt
    (extend d (text_groups (text_tag_type tag attrib) text)).
Proof.
  intros Hok Hd. destruct text as [txt|]; cbn [xml2iob_text text_groups].
  - destruct (Str.truthy txt) eqn:Htxt.
    + unfold node_ok, node_tag_type, text_tag_type in *. simpl in Hok.
      rewrite Htxt in Hok. simpl in Hok.
      destruct (String.eqb tag "ENAMEX"); simpl in Hok.
      * apply bool_decide_eq_true in Hok as [ty Hty]. rewrite Hty.
        eapply runs_bind; [apply runs_ret|by apply tag_text_groups].
      * eapply runs_bind; [apply runs_ret|by apply tag_text_groups].
    + destruct txt; [|done].
      rewrite segment_groups_empty, extend_empty_group by done.
      apply runs_ret.
  - rewrite extend_empty_group by done. apply runs_ret.
Qed.

(** A well-typed tree extends any non-empty accumulator by its groups. *)
Lemma xml2iob_groups root :
  typed_ok root = true →
  ∀ d, d ≠ [] → runs (xml2iob root) d tt (extend d (tree_groups root)).
Proof.
  induction root as [tag attrib text tail cs IHcs] using element_ind'.
  intros [Hnode Hcs]%andb_prop d Hd.
  rewrite xml2iob_unfold. cbn [tree_groups].
  assert (Hkids : ∀ d, d ≠ [] →
    runs (xml2iob_children cs) d tt (foldl extend d (map tree_groups cs))).
  { clear -IHcs Hcs. induction IHcs as [|c cs Hc _ IH]; intros d Hd.
    - apply runs_ret.
    - rewrite xml2iob_children_cons. cbn [forallb] in Hcs.
      apply andb_prop in Hcs as [Hc' Hcs].
      eapply runs_bind; [by apply Hc|]. simpl.
      apply IH; [done|]. by apply extend_nonempty. }
  pose proof (text_groups_nonempty (text_tag_type tag attrib) text) as Hg0.
  assert (Hall : Forall (λ gs, gs ≠ []) (map tree_groups cs)).
  { apply Forall_map, Forall_forall. intros c _. apply tree_groups_nonempty. }
  destruct (foldl_extend d _ _ Hd Hg0 Hall) as [Hfold Hne].
  rewrite <- extend_assoc, <- Hfold by done.
  eapply runs_bind; [by apply xml2iob_text_groups|].
  eapply runs_bind; [apply Hkids; by apply extend_nonempty|].
  apply xml2iob_tail_groups. rewrite Hfold. by apply extend_nonempty.
Qed.

End group_lemmas.

Section group_properties.

Lemma Forall_extend (Q : sentence → Prop) d gs :
  (∀ a b, Q a → Q b → Q (a ++ b)) →
  Forall Q d → Forall Q gs → Forall Q (extend d gs).
Proof.
  intros Happ Hd Hgs. destruct gs as [|g gs]; [done|].
  apply Forall_cons in Hgs as [Hg Hgs]. unfold extend.
  destruct (decide (d = [])) as [->|(ds & s & ->)%snoc_of_nonempty].
  - simpl. by constructor.
  - rewrite removelast_last, last_last.
    apply Forall_app in Hd as [Hds Hs]. apply Forall_cons in Hs as [Hs _].
    apply Forall_app. split; [done|]. constructor; [by apply Happ|done].
Qed.

Lemma Forall_foldl_extend (Q : sentence → Prop) g gss :
  (∀ a b, Q a → Q b → Q (a ++ b)) →
  Forall Q g → Forall (Forall Q) gss → Forall Q (foldl extend g gss).
Proof.
  intros Happ Hg Hall. revert g Hg.
  induction Hall as [|gs gss Hgs _ IH]; intros g Hg; simpl; [done|].
  apply IH. by apply Forall_extend.
Qed.

(** A property of groups that holds of the empty group, of the groups of
    every segment, and of the concatenation of two groups that have it,
    holds of every group of a tree. *)
Lemma tree_groups_Forall (Q : sentence → Prop) root :
  Q [] →
  (∀ a b, Q a → Q b → Q (a ++ b)) →
  (∀ tag attrib text,
     Forall Q (segment_groups (text_tag_type tag attrib) text)) →
  Forall Q (tree_groups root).
Proof.
  intros Hnil Happ Hseg.
  assert (Htext : ∀ tag attrib text,
    Forall Q (text_groups (text_tag_type tag attrib) text)).
  { intros tag attrib [txt|]; simpl; [apply Hseg|by constructor]. }
  induction root as [tag attrib text tail cs IHcs] using element_ind'.
  cbn [tree_groups]. apply Forall_extend; [done| |apply (Htext "" ∅)].
  apply Forall_foldl_extend; [done|apply Htext|].
  by apply Forall_map.
Qed.

Lemma length_extend d gs :
  d ≠ [] → gs ≠ [] → length (extend d gs) = length d + length gs - 1.
Proof.
  intros (ds & s & ->)%snoc_of_nonempty Hgs.
  destruct gs as [|g gs]; [done|].
  rewrite extend_snoc, !length_app. simpl. lia.
Qed.

Lemma length_fields delim s :
  length (Str.fields delim s)
  = S (length (List.filter delim (list_ascii_of_string s))).
Proof.
  induction s as [|c s IH]; [done|].
  rewrite fields_cons. simpl. destruct (delim c); simpl.
  - by rewrite IH.
  - rewrite <- IH. by rewrite (fields_hd_tl delim s) at 2.
Qed.

Lemma count_char_filter c s :
  count_char c s
  = length (List.filter (λ x, Ascii.eqb x c) (list_ascii_of_string s)).
Proof.
  induction s as [|c' s IH]; [done|].
  simpl. destruct (Ascii.eqb c' c); simpl; by rewrite IH.
Qed.

Lemma length_split sep s :
  length (Str.split sep s) = S (count_char sep s).
Proof. unfold Str.split. by rewrite length_fields, count_char_filter. Qed.

Lemma length_text_groups tag_type text :
  length (text_groups tag_type text) = S (text_newlines text).
Proof.
  destruct text as [txt|]; [|done].
  unfold text_groups, segment_groups. by rewrite length_map, length_split.
Qed.

Lemma length_tree_groups root :
  length (tree_groups root) = S (tree_newlines root).
Proof.
  induction root as [tag attrib text tail cs IHcs] using element_ind'.
  cbn [tree_groups tree_newlines].
  assert (Hkids : ∀ g, g ≠ [] →
    foldl extend g (map tree_groups cs) ≠ []
    ∧ length (foldl extend g (map tree_groups cs))
      = length g + sum_list (map tree_newlines cs)).
  { clear -IHcs. induction IHcs as [|c cs Hc _ IH]; intros g Hg; simpl.
    - split; [done|lia].
    - destruct (IH (extend g (tree_groups c))) as [Hne Hlen];
        [by apply extend_nonempty|].
      split; [done|]. rewrite Hlen, length_extend, Hc;
        [|done|apply tree_groups_nonempty].
      destruct g; [done|]. simpl. lia. }
  destruct (Hkids (text_groups (text_tag_type tag attrib) text))
    as [Hne Hlen]; [apply text_groups_nonempty|].
  rewrite length_extend, Hlen, !length_text_groups;
    [lia|done|apply text_groups_nonempty].
Qed.

End group_properties.

Section shape_lemmas.

Lemma all_cons p c s :
  Str.all p (String c s) = true ↔ p c = true ∧ Str.all p s = true.
Proof. simpl. apply andb_true_iff. Qed.

(** No field contains a delimiter. *)
Lemma fields_no_delim delim s :
  Forall (λ w, Str.all (λ c, negb (delim c)) w = true) (Str.fields delim s).
Proof.
  induction s as [|c s IH]; [by repeat constructor|].
  rewrite fields_cons. rewrite (fields_hd_tl delim s) in IH.
  apply Forall_cons in IH as [Hhd Htl].
  destruct (delim c) eqn:Hc.
  - constructor; [done|]. rewrite (fields_hd_tl delim s). by constructor.
  - constructor; [|done]. apply all_cons. by rewrite Hc.
Qed.

(** The fields of a string keep what holds of all its characters. *)
Lemma fields_all p delim s :
  Str.all p s = true → Forall (λ w, Str.all p w = true) (Str.fields delim s).
Proof.
  induction s as [|c s IH]; [by repeat constructor|].
  intros [Hc Hs]%all_cons. specialize (IH Hs).
  rewrite fields_cons. rewrite (fields_hd_tl delim s) in IH.
  apply Forall_cons in IH as [Hhd Htl].
  destruct (delim c).
  - constructor; [done|]. rewrite (fields_hd_tl delim s). by constructor.
  - constructor; [|done]. by apply all_cons.
Qed.

Lemma all_and p q s :
  Str.all p s = true → Str.all q s = true →
  Str.all (λ c, p c && q c) s = true.
Proof.
  induction s as [|c s IH]; [done|].
  intros [Hp Hps]%all_cons [Hq Hqs]%all_cons. apply all_cons.
  split; [by rewrite Hp, Hq|by apply IH].
Qed.

Lemma truthy_nonempty s : Str.truthy s = true ↔ s ≠ "".
Proof. by destruct s. Qed.

Lemma elem_of_bool_filter {A} (f : A → bool) (x : A) (l : list A) :
  x ∈ List.filter f l ↔ x ∈ l ∧ f x = true.
Proof. by rewrite !list_elem_of_In, filter_In. Qed.

(** The words of a line of a segment. *)
Lemma line_words_ok text line :
  line ∈ Str.split Str.nl text → Forall word_ok (line_words line).
Proof.
  intros Hline. rewrite line_words_tokens. unfold Str.tokens.
  pose proof (fields_no_delim (λ c, Ascii.eqb c Str.nl) text) as Hnl.
  rewrite Forall_forall in Hnl. specialize (Hnl line Hline).
  pose proof (fields_all _ (λ c, Ascii.eqb c Str.sp) line Hnl) as H1.
  pose proof (fields_no_delim (λ c, Ascii.eqb c Str.sp) line) as H2.
  apply Forall_forall. intros w [Ht Hw]%elem_of_bool_filter.
  rewrite Forall_forall in H1, H2. split; [by apply truthy_nonempty|].
  unfold clean. eapply all_impl; [|apply (all_and _ _ _ (H2 w Ht) (H1 w Ht))].
  intros c. unfold space_or_newline. simpl.
  by destruct (Ascii.eqb c Str.sp), (Ascii.eqb c Str.nl).
Qed.

Lemma segment_groups_words tag_type text :
  Forall (Forall (λ p : token_tag, word_ok p.1))
    (segment_groups tag_type text).
Proof.
  unfold segment_groups. apply Forall_map, Forall_forall. intros line Hline.
  apply (Forall_map fst word_ok).
  rewrite line_pairs_words. by eapply line_words_ok.
Qed.

Lemma lower_char_idemp c : Str.lower_char (Str.lower_char c) = Str.lower_char c.
Proof. by destruct c as [[] [] [] [] [] [] [] []]. Qed.

Lemma lower_idemp s : Str.lower (Str.lower s) = Str.lower s.
Proof.
  induction s as [|c s IH]; [done|]. simpl. by rewrite lower_char_idemp, IH.
Qed.

Lemma text_tag_type_lower tag attrib :
  Str.lower (text_tag_type tag attrib) = text_tag_type tag attrib.
Proof.
  unfold text_tag_type. destruct (String.eqb tag "ENAMEX"); [|done].
  destruct (attrib !! "TYPE"); [apply lower_idemp|done].
Qed.

Lemma tags_from_tag_ok tag_type tag_pos ws :
  Str.lower tag_type = tag_type → tag_pos = B ∨ tag_pos = I →
  Forall (λ p : token_tag, tag_ok p.2) (tags_from tag_type tag_pos ws).
Proof.
  intros Hlow. revert tag_pos.
  induction ws as [|w ws IH]; intros tag_pos Hpos; simpl; [done|].
  constructor; [|apply IH; by right].
  simpl. unfold mk_tag, tag_ok.
  destruct (Str.truthy tag_type) eqn:Hty; [right|by left].
  exists tag_pos, tag_type. by apply truthy_nonempty in Hty.
Qed.

Lemma segment_groups_tags tag attrib text :
  Forall (Forall (λ p : token_tag, tag_ok p.2))
    (segment_groups (text_tag_type tag attrib) text).
Proof.
  unfold segment_groups. apply Forall_map, Forall_forall. intros line _.
  apply tags_from_tag_ok; [apply text_tag_type_lower|by left].
Qed.

Lemma inside_follows_nil : inside_follows [].
Proof. intros pre p post ty E. by destruct pre. Qed.

Lemma inside_follows_app a b :
  inside_follows a → inside_follows b → inside_follows (a ++ b).
Proof.
  intros Ha Hb pre p post ty E Hp.
  apply app_eq_inv in E as [(k & -> & E)|(k & -> & ->)].
  - destruct k as [|p' k]; simpl in E.
    + subst b. destruct (Hb [] p post ty eq_refl Hp) as (pre' & q & E & _).
      by destruct pre'.
    + injection E as <- ->. by apply (Ha pre p k ty).
  - destruct (Hb k p post ty eq_refl Hp) as (pre' & q & -> & Hq).
    exists (a ++ pre'), q. by rewrite app_assoc.
Qed.

Lemma tags_from_inside_follows tag_type ws : ∀ tag_pos pre p post ty,
  tag_pos = B ∨ tag_pos = I →
  tags_from tag_type tag_pos ws = pre ++ p :: post →
  p.2 = "I-" +:+ ty →
  (pre = [] ∧ tag_pos = I ∧ ty = tag_type)
  ∨ ∃ pre' q, pre = pre' ++ [q]
      ∧ (q.2 = "B-" +:+ ty ∨ q.2 = "I-" +:+ ty).
Proof.
  induction ws as [|w ws IH]; intros tag_pos pre p post ty Hpos E Hp;
    simpl in E; [by destruct pre|].
  destruct pre as [|q pre]; simpl in E.
  - injection E as <- E. left. simpl in Hp. unfold mk_tag in Hp.
    destruct (Str.truthy tag_type); [|done].
    destruct Hpos as [->| ->]; [done|].
    change (String "I" (String "-" tag_type) = String "I" (String "-" ty))
      in Hp.
    by injection Hp as ->.
  - injection E as <- E. right.
    destruct (IH I pre p post ty (or_intror eq_refl) E Hp)
      as [(-> & _ & ->)|(pre' & q' & -> & Hq')].
    + exists [], (w, mk_tag tag_pos tag_type). split; [done|]. simpl.
      simpl in Hp. unfold mk_tag in *.
      destruct ws as [|w' ws]; [done|]. simpl in E. injection E as <- _.
      simpl in Hp. unfold mk_tag in Hp.
      destruct (Str.truthy tag_type); [|done].
      destruct Hpos as [->| ->]; [by left|by right].
    + exists ((w, mk_tag tag_pos tag_type) :: pre'), q'. by split.
Qed.

Lemma segment_groups_inside_follows tag_type text :
  Forall inside_follows (segment_groups tag_type text).
Proof.
  unfold segment_groups. apply Forall_map, Forall_forall. intros line _.
  intros pre p post ty E Hp.
  destruct (tags_from_inside_follows tag_type (line_words line) B pre p post
              ty (or_introl eq_refl) E Hp) as [(_ & ? & _)|H]; done.
Qed.

End shape_lemmas.

Section parse_lemmas.

Variable read_file : string → exn + string.
Variable fromstring : string → option element.

Lemma extend_fresh gs : gs ≠ [] → extend [[]] gs = gs.
Proof. by destruct gs. Qed.

(** The accumulator of a well-typed tree started on [[[]]]. *)
Lemma xml2iob_fresh root :
  typed_ok root = true → runs (xml2iob root) [[]] tt (tree_groups root).
Proof.
  intros Hok. pose proof (xml2iob_groups root Hok [[]]) as H.
  rewrite extend_fresh in H by apply tree_groups_nonempty. by apply H.
Qed.

(** What a document that passes [parse_iob_file] went through. *)
Lemma parse_iob_file_inr filename local_iob_data :
  parse_iob_file read_file fromstring filename = inr local_iob_data →
  ∃ raw_data et_root,
    read_file filename = inr raw_data
    ∧ fromstring raw_data = Some et_root
    ∧ typed_ok et_root = true
    ∧ local_iob_data = List.filter nonempty (tree_groups et_root)
    ∧ Z.of_nat (length local_iob_data)
      = (Z.of_nat (length (raw_lines raw_data)) - 2)%Z.
Proof.
  unfold parse_iob_file. intros H.
  destruct (read_file filename) as [e|raw_data]; [done|].
  destruct (fromstring raw_data) as [et_root|] eqn:Hroot; [|done].
  exists raw_data, et_root.
  destruct (typed_ok et_root) eqn:Hok.
  - destruct (xml2iob_fresh et_root Hok) as [Hr Hf].
    rewrite Hr, Hf in H.
    destruct (Z.eqb_spec (Z.of_nat (length (List.filter nonempty
                                              (tree_groups et_root))))
                (Z.of_nat (length (raw_lines raw_data)) - 2)) as [E|];
      [|done].
    simpl in H. injection H as <-. done.
  - pose proof (xml2iob_run et_root [] []) as Hrun.
    rewrite Hok in Hrun. simpl in Hrun. by rewrite Hrun in H.
Qed.

Lemma parse_iob_files_from_acc iob_data filenames :
  parse_iob_files_from read_file fromstring iob_data filenames
  = match parse_iob_files_from read_file fromstring [] filenames with
    | inl e => inl e
    | inr data => inr (iob_data ++ data)
    end.
Proof.
  revert iob_data.
  induction filenames as [|f filenames IH]; intros iob_data; simpl.
  - by rewrite app_nil_r.
  - destruct (parse_iob_file read_file fromstring f) as [e|local]; [done|].
    rewrite (IH (iob_data ++ local)), (IH local).
    destruct (parse_iob_files_from _ _ [] filenames); [done|].
    by rewrite app_assoc.
Qed.

(** The corpus is the concatenation of the sentences of the files. *)
Lemma parse_iob_files_inr filenames verbose data :
  parse_iob_files read_file fromstring filenames verbose = inr data →
  ∃ locals,
    Forall2 (λ f l, parse_iob_file read_file fromstring f = inr l)
      filenames locals
    ∧ data = concat locals.
Proof.
  unfold parse_iob_files. revert data.
  induction filenames as [|f filenames IH]; intros data; simpl.
  - intros [= <-]. by exists [].
  - destruct (parse_iob_file read_file fromstring f) as [e|local] eqn:Hf;
      [done|].
    rewrite parse_iob_files_from_acc. simpl.
    destruct (parse_iob_files_from _ _ [] filenames) as [e|rest];
      [done|].
    intros [= <-]. destruct (IH rest eq_refl) as (locals & Hall & ->).
    exists (local :: locals). split; [by constructor|done].
Qed.

(** What holds of every sentence of a well-typed tree holds of every
    sentence of the corpus. *)
Lemma parse_iob_files_Forall (P : sentence → Prop) filenames verbose data :
  (∀ root, typed_ok root = true → Forall P (tree_groups root)) →
  parse_iob_files read_file fromstring filenames verbose = inr data →
  Forall (λ sent, sent ≠ [] ∧ P sent) data.
Proof.
  intros HP (locals & Hall & ->)%parse_iob_files_inr.
  apply Forall_concat. induction Hall as [|f l fs ls Hf _ IH]; [done|].
  constructor; [|done].
  apply parse_iob_file_inr in Hf as (raw & root & _ & _ & Hok & -> & _).
  apply Forall_forall. intros sent [Hin Hne]%elem_of_bool_filter.
  split; [by destruct sent|].
  specialize (HP root Hok). rewrite Forall_forall in HP. by apply HP.
Qed.

End parse_lemmas.

(** ** The accumulator *)

(** X1: linearizing a well-typed tree onto an accumulator only continues
    its open sentence and pushes sentences after it: the sentences already
    closed are kept, and what is added is what the tree leaves when it is
    linearized from the initial [[[]]], whatever the accumulator holds. *)
Theorem xml2iob_extends_accumulator (root : element) :
  typed_ok root = true →
  ∃ g gs,
    final (xml2iob root [[]]) = g :: gs
    ∧ ∀ ds s,
        runs (xml2iob root) (ds ++ [s]) tt (ds ++ (s ++ g) :: gs).
Proof.
  intros Hok. pose proof (tree_groups_nonempty root) as Hne.
  destruct (tree_groups root) as [|g gs] eqn:E; [done|].
  exists g, gs. split.
  - destruct (xml2iob_fresh root Hok) as [_ Hf]. by rewrite Hf.
  - intros ds s. rewrite <- extend_snoc, <- E.
    apply xml2iob_groups; [done|by destruct ds].
Qed.

Lemma xml2iob_extends_accumulator_witness :
  typed_ok sample_doc = true
  ∧ ∃ g gs,
      final (xml2iob sample_doc [[]]) = g :: gs
      ∧ ∀ ds s,
          runs (xml2iob sample_doc) (ds ++ [s]) tt (ds ++ (s ++ g) :: gs).
Proof.
  split; [reflexivity|].
  apply (xml2iob_extends_accumulator sample_doc). reflexivity.
Defined.

(** X2: a well-typed tree adds to the accumulator exactly one sentence for
    each newline character of its text and tail segments. *)
Theorem sentences_per_newline (root : element) (d : iob) :
  typed_ok root = true → d ≠ [] →
  length (final (xml2iob root d)) = length d + tree_newlines root.
Proof.
  intros Hok Hd. destruct (xml2iob_groups root Hok d Hd) as [_ ->].
  rewrite length_extend, length_tree_groups;
    [lia|done|apply tree_groups_nonempty].
Qed.

Lemma sentences_per_newline_witness :
  (typed_ok sample_doc = true ∧ [[("Eve", O)]; []] ≠ [])
  ∧ length (final (xml2iob sample_doc [[("Eve", O)]; []]))
    = length [[("Eve", O)]; []] + tree_newlines sample_doc.
Proof.
  split; [split; [reflexivity|discriminate]|].
  apply (sentences_per_newline sample_doc [[("Eve", O)]; []]);
    [reflexivity|discriminate].
Defined.

(** ** The corpus returned by [parse_iob_files] *)

(** X3: every sentence of the corpus that [parse_iob_files] returns is
    non-empty, and every word in it is non-empty and holds no space and no
    newline. *)
Theorem parsed_words_well_formed (read_file : string → exn + string)
    (fromstring : string → option element)
    (filenames : list string) (verbose : bool) (data : iob) :
  parse_iob_files read_file fromstring filenames verbose = inr data →
  Forall (λ sent, sent ≠ [] ∧ Forall (λ p : token_tag, word_ok p.1) sent)
    data.
Proof.
  apply parse_iob_files_Forall. intros root _.
  apply tree_groups_Forall; [done|apply Forall_app_2|].
  intros tag attrib text. apply segment_groups_words.
Qed.

Lemma parsed_words_well_formed_witness :
  parse_iob_files sample_read_file sample_fromstring ["00.name"] true
  = inr sample_iob
  ∧ Forall (λ sent, sent ≠ [] ∧ Forall (λ p : token_tag, word_ok p.1) sent)
      sample_iob.
Proof.
  split; [vm_compute; reflexivity|].
  apply (parsed_words_well_formed sample_read_file sample_fromstring
           ["00.name"] true).
  vm_compute; reflexivity.
Defined.

Lemma parsed_tags_ok (read_file : string → exn + string)
    (fromstring : string → option element)
    (filenames : list string) (verbose : bool) (data : iob) :
  parse_iob_files read_file fromstring filenames verbose = inr data →
  Forall (Forall (λ p : token_tag, tag_ok p.2)) data.
Proof.
  intros H.
  eapply Forall_impl;
    [apply (parse_iob_files_Forall read_file fromstring
              (Forall (λ p : token_tag, tag_ok p.2)) _ _ _) with (2 := H)
    |by intros sent [_ ?]].
  intros root _.
  apply tree_groups_Forall; [done|apply Forall_app_2|].
  apply segment_groups_tags.
Qed.

(** X4: every tag of the corpus that [parse_iob_files] returns is [O], or
    [B] or [I] followed by a hyphen and a non-empty entity type that
    lowercasing leaves unchanged. *)
Theorem parsed_tags_well_formed (read_file : string → exn + string)
    (fromstring : string → option element)
    (filenames : list string) (verbose : bool) (data : iob) :
  parse_iob_files read_file fromstring filenames verbose = inr data →
  Forall (Forall (λ p : token_tag, tag_ok p.2)) data.
Proof.
  intros H.
  eapply Forall_impl;
    [apply (parse_iob_files_Forall read_file fromstring
              (Forall (λ p : token_tag, tag_ok p.2)) _ _ _) with (2 := H)
    |by intros sent [_ ?]].
  intros root _.
  apply tree_groups_Forall; [done|apply Forall_app_2|].
  apply segment_groups_tags.
Qed.

Lemma parsed_tags_well_formed_witness :
  parse_iob_files sample_read_file sample_fromstring ["00.name"] true
  = inr sample_iob
  ∧ Forall (Forall (λ p : token_tag, tag_ok p.2)) sample_iob.
Proof.
  split; [vm_compute; reflexivity|].
  apply (parsed_tags_well_formed sample_read_file sample_fromstring
           ["00.name"] true).
  vm_compute; reflexivity.
Defined.

(** X5: in every sentence of the corpus that [parse_iob_files] returns, a
    token tagged [I-type] comes directly after a token tagged [B-type] or
    [I-type] of the same type: no sentence starts with an I-tag, and no
    I-tag follows [O] or a tag of another type. *)
Theorem parsed_inside_follows (read_file : string → exn + string)
    (fromstring : string → option element)
    (filenames : list string) (verbose : bool) (data : iob) :
  parse_iob_files read_file fromstring filenames verbose = inr data →
  Forall inside_follows data.
Proof.
  intros H.
  eapply Forall_impl;
    [apply (parse_iob_files_Forall read_file fromstring inside_follows
              _ _ _) with (2 := H)
    |by intros sent [_ ?]].
  intros root _.
  apply tree_groups_Forall;
    [apply inside_follows_nil|apply inside_follows_app|].
  intros tag attrib text. apply segment_groups_inside_follows.
Qed.

Lemma parsed_inside_follows_witness :
  parse_iob_files sample_read_file sample_fromstring ["00.name"] true
  = inr sample_iob
  ∧ Forall inside_follows sample_iob.
Proof.
  split; [vm_compute; reflexivity|].
  apply (parsed_inside_follows sample_read_file sample_fromstring
           ["00.name"] true).
  vm_compute; reflexivity.
Defined.

(** ** Segments *)

Lemma tags_from_outside tag_pos ws :
  Forall (λ p : token_tag, p.2 = O) (tags_from "" tag_pos ws).
Proof.
  revert tag_pos. induction ws as [|w ws IH]; intros tag_pos; simpl; [done|].
  constructor; [done|apply IH].
Qed.

Lemma String_eqb_neq a b : a ≠ b → String.eqb a b = false.
Proof. intros H. by apply String.eqb_neq. Qed.

(** X6: the text of a node is tagged [O] throughout when the node is not
    an [ENAMEX] node, whatever its attributes, and also when it is an
    [ENAMEX] node whose [TYPE] attribute is the empty string: the words
    are those of the lines of the text, all with the tag [O]. *)
Theorem untyped_text_is_outside (tag : string) (attrib : gmap string string)
    (text : string) (ds : iob) (s : sentence) :
  tag ≠ "ENAMEX" ∨ attrib !! "TYPE" = Some "" →
  ∃ g gs,
    runs (xml2iob (Element tag attrib (Some text) None []))
      (ds ++ [s]) tt (ds ++ (s ++ g) :: gs)
    ∧ map (map fst) (g :: gs) = map line_words (Str.split Str.nl text)
    ∧ Forall (Forall (λ p : token_tag, p.2 = O)) (g :: gs).
Proof.
  intros Hnode.
  assert (Hty : text_tag_type tag attrib = "").
  { unfold text_tag_type. destruct Hnode as [Hne|Hty].
    - by rewrite String_eqb_neq.
    - rewrite Hty. by destruct (String.eqb tag "ENAMEX"). }
  assert (Hok : typed_ok (Element tag attrib (Some text) None []) = true).
  { cbn [typed_ok forallb]. rewrite andb_true_r. unfold node_ok.
    destruct Hnode as [Hne|Hattr].
    - by rewrite String_eqb_neq, andb_false_r.
    - rewrite Hattr. apply orb_true_iff. right.
      by apply bool_decide_eq_true. }
  pose proof (xml2iob_groups _ Hok (ds ++ [s])) as Hrun.
  cbn [tree_groups map foldl text_groups] in Hrun. rewrite Hty in Hrun.
  rewrite (extend_empty_group (segment_groups "" text)) in Hrun
    by apply segment_groups_nonempty.
  unfold segment_groups in *.
  destruct (split_nonempty Str.nl text) as (line & lines & Hs).
  rewrite Hs in *. cbn [map] in Hrun. rewrite extend_snoc in Hrun.
  exists (line_pairs "" line), (map (line_pairs "" ) lines).
  split; [apply Hrun; by destruct ds|]. split.
  - change (map (map fst) (map (line_pairs "") (line :: lines))
            = map line_words (line :: lines)).
    rewrite map_map. apply map_ext. intros l. apply line_pairs_words.
  - change (Forall (Forall (λ p : token_tag, p.2 = O))
              (map (line_pairs "") (line :: lines))).
    apply Forall_map, Forall_forall. intros l _. apply tags_from_outside.
Qed.

Lemma untyped_text_is_outside_witness :
  ("ENAMEX" ≠ "ENAMEX"
   ∨ ({[ "TYPE" := "" ]} : gmap string string) !! "TYPE" = Some "")
  ∧ ∃ g gs,
      runs (xml2iob (Element "ENAMEX" {[ "TYPE" := "" ]}
                       (Some "John Smith") None []))
        ([] ++ [[]]) tt ([] ++ ([] ++ g) :: gs)
      ∧ map (map fst) (g :: gs)
        = map line_words (Str.split Str.nl "John Smith")
      ∧ Forall (Forall (λ p : token_tag, p.2 = O)) (g :: gs).
Proof.
  split; [right; reflexivity|].
  apply (untyped_text_is_outside "ENAMEX" {[ "TYPE" := "" ]} "John Smith"
           [] []).
  right; reflexivity.
Defined.

Lemma all_tokens_nil delim s :
  Str.all delim s = true → Str.tokens delim s = [].
Proof.
  unfold Str.tokens. induction s as [|c s IH]; [done|].
  intros [Hc Hs]%all_cons. rewrite fields_cons, Hc. simpl. by apply IH.
Qed.

Lemma concat_nil_Forall {A} (l : list (list A)) :
  concat l = [] → Forall (λ x, x = []) l.
Proof.
  induction l as [|x l IH]; simpl; [done|].
  intros [-> Hl]%app_eq_nil. constructor; [done|by apply IH].
Qed.

(** X7: a segment that holds only spaces and newlines adds no token: it
    leaves the open sentence as it was and pushes one empty sentence for
    each of its newline characters. *)
Theorem blank_segment (text tag_type : string) (ds : iob) (s : sentence) :
  Str.all space_or_newline text = true →
  runs (tag_text text tag_type) (ds ++ [s]) tt
    (ds ++ s :: replicate (count_char Str.nl text) []).
Proof.
  intros Hblank%all_tokens_nil. rewrite <- tokens_lines in Hblank.
  apply concat_nil_Forall in Hblank.
  destruct (tag_text_run text tag_type ds s) as (line & lines & Hs & Hrun).
  pose proof (length_split Str.nl text) as Hlen.
  rewrite Hs in Hblank, Hlen. simpl in Hlen. injection Hlen as Hlen.
  rewrite <- Hlen.
  apply Forall_map in Hblank. apply Forall_cons in Hblank as [Hl Hls].
  unfold line_pairs in Hrun. simpl in Hl. rewrite Hl in Hrun.
  simpl in Hrun. rewrite app_nil_r in Hrun.
  replace (replicate (length lines) [])
    with (map (λ line, tags_from tag_type B (line_words line)) lines);
    [done|].
  clear -Hls. induction Hls as [|l ls Hl _ IH]; simpl; [done|].
  simpl in Hl. by rewrite Hl, IH.
Qed.

Lemma blank_segment_witness :
  Str.all space_or_newline (" " +:+ Str.nl_str +:+ Str.nl_str) = true
  ∧ runs (tag_text (" " +:+ Str.nl_str +:+ Str.nl_str) "person")
      ([[("Alice", O)]] ++ [[("Bob", O)]]) tt
      ([[("Alice", O)]] ++ [("Bob", O)]
         :: replicate (count_char Str.nl (" " +:+ Str.nl_str +:+ Str.nl_str))
              []).
Proof.
  split; [reflexivity|].
  apply (blank_segment (" " +:+ Str.nl_str +:+ Str.nl_str) "person"
           [[("Alice", O)]] [("Bob", O)]).
  reflexivity.
Defined.

Lemma tag_words_empty tag_type words : ∀ tag_pos,
  match List.filter Str.truthy words with
  | [] => runs (tag_words tag_type words tag_pos) [] tt []
  | _ :: _ =>
      result (tag_words tag_type words tag_pos []) = inl IndexError
      ∧ final (tag_words tag_type words tag_pos []) = []
  end.
Proof.
  induction words as [|word rest IH]; intros tag_pos; simpl; [done|].
  destruct (Str.truthy word); simpl; [done|apply IH].
Qed.

(** X8: on an accumulator with no sentence at all, [tag_text] raises
    [IndexError] as soon as the first line of the text has a word, and
    leaves the accumulator empty; when the first line has no word, nothing
    is raised and each further line becomes a sentence. *)
Theorem tag_text_empty_accumulator (text tag_type : string) :
  let lines := Str.split Str.nl text in
  match line_words (hd "" lines) with
  | [] =>
      runs (tag_text text tag_type) [] tt
        (map (line_pairs tag_type) (tl lines))
  | _ :: _ =>
      result (tag_text text tag_type []) = inl IndexError
      ∧ final (tag_text text tag_type []) = []
  end.
Proof.
  unfold tag_text.
  destruct (split_nonempty Str.nl text) as (line & lines & ->).
  cbn [hd tl]. rewrite tag_lines_cons. unfold line_words.
  pose proof (tag_words_empty tag_type
                (Str.split Str.sp (Str.strip " " line)) B) as Hw.
  destruct (List.filter Str.truthy (Str.split Str.sp (Str.strip " " line)))
    as [|w ws].
  - eapply runs_bind; [apply Hw|].
    destruct lines as [|line' lines].
    + eapply runs_bind; apply runs_ret.
    + eapply runs_bind; [apply runs_push_empty|].
      apply (tag_lines_run tag_type _ 1 line' lines [] []). done.
  - destruct Hw as [Hr Hf]. unfold bind. by rewrite Hr.
Qed.

(** X9: the corpus of several lists of files is the concatenation of their
    corpora, in order, and the first exception wins: files after a
    rejected one are not looked at. *)
Theorem parse_iob_files_app (read_file : string → exn + string)
    (fromstring : string → option element)
    (filenames1 filenames2 : list string) (verbose : bool) :
  parse_iob_files read_file fromstring (filenames1 ++ filenames2) verbose
  = match parse_iob_files read_file fromstring filenames1 verbose with
    | inl e => inl e
    | inr data1 =>
        match parse_iob_files read_file fromstring filenames2 verbose with
        | inl e => inl e
        | inr data2 => inr (data1 ++ data2)
        end
    end.
Proof.
  unfold parse_iob_files.
  induction filenames1 as [|f filenames1 IH]; simpl.
  - by destruct (parse_iob_files_from _ _ [] filenames2).
  - destruct (parse_iob_file read_file fromstring f) as [e|local]; [done|].
    rewrite (parse_iob_files_from_acc _ _ local (filenames1 ++ filenames2)).
    rewrite IH, (parse_iob_files_from_acc _ _ local filenames1).
    destruct (parse_iob_files_from _ _ [] filenames1); [done|].
    destruct (parse_iob_files_from _ _ [] filenames2); [done|].
    by rewrite app_assoc.
Qed.

(** X10: when [parse_iob_files] returns, every file has at least two
    non-blank lines, and the corpus has as many sentences as the files
    have non-blank lines beyond the two of each. *)
Theorem parsed_sentence_count (read_file : string → exn + string)
    (fromstring : string → option element)
    (filenames : list string) (verbose : bool) (data : iob) :
  parse_iob_files read_file fromstring filenames verbose = inr data →
  Forall (λ f, (0 ≤ nraw_sent read_file f)%Z) filenames
  ∧ Z.of_nat (length data)
    = foldr Z.add 0%Z (map (nraw_sent read_file) filenames).
Proof.
  intros (locals & Hall & ->)%parse_iob_files_inr.
  induction Hall as [|f l fs ls Hf _ [IH1 IH2]]; [done|].
  apply parse_iob_file_inr in Hf as (raw & root & Hraw & _ & _ & _ & Hlen).
  assert (Hn : nraw_sent read_file f = Z.of_nat (length l)).
  { unfold nraw_sent. by rewrite Hraw. }
  split.
  - constructor; [lia|done].
  - simpl. rewrite length_app, Hn. lia.
Qed.

Lemma parsed_sentence_count_witness :
  parse_iob_files sample_read_file sample_fromstring ["00.name"; "00.name"]
    true
  = inr (sample_iob ++ sample_iob)
  ∧ Forall (λ f, (0 ≤ nraw_sent sample_read_file f)%Z)
      ["00.name"; "00.name"]
  ∧ Z.of_nat (length (sample_iob ++ sample_iob))
    = foldr Z.add 0%Z
        (map (nraw_sent sample_read_file) ["00.name"; "00.name"]).
Proof.
  split; [vm_compute; reflexivity|].
  apply (parsed_sentence_count sample_read_file sample_fromstring
           ["00.name"; "00.name"] true).
  vm_compute; reflexivity.
Defined.

(** X11: a file with fewer than two non-blank lines is always rejected,
    whatever it holds. *)
Theorem short_document_rejected (read_file : string → exn + string)
    (fromstring : string → option element)
    (filename raw_data : string) :
  read_file filename = inr raw_data →
  (length (raw_lines raw_data) < 2)%nat →
  ∃ e, parse_iob_file read_file fromstring filename = inl e.
Proof.
  intros Hraw Hshort.
  destruct (parse_iob_file read_file fromstring filename) as [e|l] eqn:E;
    [by exists e|].
  apply parse_iob_file_inr in E as (raw & root & Hraw' & _ & _ & _ & Hlen).
  rewrite Hraw in Hraw'. injection Hraw' as <-. lia.
Qed.

Lemma short_document_rejected_witness :
  let read_file := λ _ : string, @inr exn string "<DOC>Alice</DOC>" in
  let fromstring :=
    λ _ : string, Some (Element "DOC" ∅ (Some "Alice") None []) in
  (length (raw_lines "<DOC>Alice</DOC>") < 2)%nat
  ∧ ∃ e, parse_iob_file read_file fromstring "one.name" = inl e.
Proof.
  split; [vm_compute; lia|].
  apply (short_document_rejected _ _ "one.name" "<DOC>Alice</DOC>");
    [reflexivity|vm_compute; lia].
Defined.

(** ** From the validator to the serializer *)

(** X12: [write_iob] never fails on the corpus that [parse_iob_files]
    returns: the assertion holds for every sentence, and the file receives
    the sentences joined by blank lines. *)
Theorem parsed_corpus_is_written (read_file : string → exn + string)
    (fromstring : string → option element)
    (filenames : list string) (verbose : bool) (data : iob)
    (filename : string) (fs : gmap string string) :
  parse_iob_files read_file fromstring filenames verbose = inr data →
  write_iob filename data fs = (inr tt, <[filename := iob_text data]> fs).
Proof.
  intros H. apply write_iob_text.
  eapply Forall_impl;
    [apply (parse_iob_files_Forall read_file fromstring (λ _, True)
              _ _ _) with (2 := H)
    |by intros sent [? _]].
  intros root _. by apply Forall_forall.
Qed.

Lemma parsed_corpus_is_written_witness :
  parse_iob_files sample_read_file sample_fromstring ["00.name"] true
  = inr sample_iob
  ∧ write_iob "iob.txt" sample_iob ∅
    = (inr tt, <[ "iob.txt" := iob_text sample_iob ]> ∅).
Proof.
  split; [vm_compute; reflexivity|].
  apply (parsed_corpus_is_written sample_read_file sample_fromstring
           ["00.name"] true).
  vm_compute; reflexivity.
Defined.

(** ** The serializer *)

Section serializer_more.

Lemma read_sentence_lines_readable sent rest cur :
  Forall readable sent →
  read_blocks (Str.split Str.nl (sentence_lines sent +:+ rest)) cur
  = read_blocks (Str.split Str.nl rest) (cur ++ sent).
Proof.
  intros Hclean. revert cur.
  induction Hclean as [|[w t] sent [Hw Ht] _ IH]; intros cur.
  - by rewrite app_nil_r.
  - cbn [fst snd] in *.
    rewrite sentence_lines_cons, append_assoc, token_tag_line_app.
    unfold Str.split. rewrite fields_app_delim; [|..|done].
    + cbn [read_blocks].
      replace (Str.truthy (w +:+ String Str.sp t)) with true
        by by destruct w.
      rewrite split_first_app by by apply clean_no_space.
      fold (Str.split Str.nl (sentence_lines sent +:+ rest)).
      rewrite IH. by rewrite <- app_assoc.
    + apply all_app; [by apply clean_no_newline|].
      apply all_cons. by split.
Qed.

Lemma read_iob_text_readable data :
  Forall (λ sent, sent ≠ []) data →
  Forall (Forall readable) data →
  read_iob (iob_text data) = data.
Proof.
  unfold read_iob. induction data as [|sent data IH]; intros Hne Hclean.
  - done.
  - apply Forall_cons in Hne as [Hsent Hne].
    apply Forall_cons in Hclean as [Hcs Hclean].
    destruct data as [|sent' data].
    + change (iob_text [sent]) with (sentence_lines sent).
      rewrite <- (append_nil_r (sentence_lines sent)).
      rewrite read_sentence_lines_readable by done. simpl. by destruct sent.
    + rewrite iob_text_cons.
      rewrite read_sentence_lines_readable by done.
      change (Str.nl_str +:+ iob_text (sent' :: data))
        with (String Str.nl (iob_text (sent' :: data))).
      unfold Str.split. rewrite fields_cons. simpl.
      fold (Str.split Str.nl (iob_text (sent' :: data))).
      rewrite IH by done. by destruct sent.
Qed.

Lemma split_first_all p sep s :
  Str.all p s = true →
  Str.all p (Str.split_first sep s).1 = true
  ∧ Str.all p (Str.split_first sep s).2 = true.
Proof.
  induction s as [|c s IH]; [done|].
  intros [Hc Hs]%all_cons. simpl.
  destruct (Ascii.eqb c sep); [done|].
  destruct (Str.split_first sep s) as [a b]. simpl in *.
  destruct (IH Hs) as [Ha Hb]. by rewrite Hc, Ha.
Qed.

Lemma split_first_no_sep sep s :
  Str.all (λ c, negb (Ascii.eqb c sep)) (Str.split_first sep s).1 = true.
Proof.
  induction s as [|c s IH]; [done|]. simpl.
  destruct (Ascii.eqb c sep) eqn:E; [done|].
  destruct (Str.split_first sep s) as [a b]. simpl in *.
  by rewrite E, IH.
Qed.

Lemma split_first_readable line :
  no_newline line → readable (Str.split_first Str.sp line).
Proof.
  intros Hline. destruct (split_first_all _ Str.sp line Hline) as [H1 H2].
  split; [|done]. unfold clean.
  eapply all_impl; [|apply (all_and _ _ _ (split_first_no_sep Str.sp line) H1)].
  intros c. unfold space_or_newline. simpl.
  by destruct (Ascii.eqb c Str.sp), (Ascii.eqb c Str.nl).
Qed.

(** Whatever the reader returns is made of non-empty sentences of
    readable pairs. *)
Lemma read_blocks_readable lines : ∀ cur,
  Forall no_newline lines → Forall readable cur →
  Forall (λ sent, sent ≠ [] ∧ Forall readable sent) (read_blocks lines cur).
Proof.
  induction lines as [|line lines IH]; intros cur Hlines Hcur; simpl.
  - destruct cur; simpl; [done|]. constructor; [by split|constructor].
  - apply Forall_cons in Hlines as [Hline Hlines].
    destruct (Str.truthy line).
    + apply IH; [done|]. apply Forall_app. split; [done|].
      constructor; [by apply split_first_readable|done].
    + apply Forall_app. split; [|by apply IH].
      destruct cur; simpl; [done|]. constructor; [by split|constructor].
Qed.

Lemma write_sentences_fails nsent pre post : ∀ i out,
  (i + length (pre ++ [] :: post))%nat = nsent →
  Forall (λ sent, sent ≠ []) pre →
  write_sentences nsent i (pre ++ [] :: post) out
  = (inl AssertionError, out +:+ written_before pre).
Proof.
  unfold written_before.
  induction pre as [|sent pre IH]; intros i out Hn Hne.
  - simpl. by rewrite append_nil_r.
  - apply Forall_cons in Hne as [Hsent Hne].
    rewrite <- app_comm_cons. cbn [write_sentences].
    replace (nonempty sent) with true by by destruct sent.
    cbn [negb].
    replace (i <? nsent - 1)%nat with true
      by (symmetry; apply Nat.ltb_lt; rewrite <- Hn; simpl;
          rewrite length_app; simpl; lia).
    rewrite IH; [|simpl in Hn; lia|done].
    f_equal. cbn [map String.concat].
    destruct (map _ pre) eqn:E.
    + simpl. by rewrite !append_nil_r, append_assoc.
    + change ("" +:+ String.concat "" (s :: l))
        with (String.concat "" (s :: l)).
      by rewrite !append_assoc.
Qed.

End serializer_more.

(** X13: when a sentence of the data is empty, [write_iob] raises
    [AssertionError] at the first such sentence, and the file is left with
    what was written until then: the lines of every earlier sentence, each
    followed by a blank line. *)
Theorem write_iob_empty_sentence (filename : string) (pre post : iob)
    (fs : gmap string string) :
  Forall (λ sent, sent ≠ []) pre →
  write_iob filename (pre ++ [] :: post) fs
  = (inl AssertionError, <[filename := written_before pre]> fs).
Proof.
  intros Hne. unfold write_iob.
  by rewrite (write_sentences_fails (length (pre ++ [] :: post)) pre post
                0 "").
Qed.

Lemma write_iob_empty_sentence_witness :
  Forall (λ sent : sentence, sent ≠ []) [[("Alice", O)]]
  ∧ write_iob "iob.txt" ([[("Alice", O)]] ++ [] :: [[("Bob", O)]]) ∅
    = (inl AssertionError,
       <[ "iob.txt" := written_before [[("Alice", O)]] ]> ∅).
Proof.
  split; [repeat constructor; discriminate|].
  apply (write_iob_empty_sentence "iob.txt" [[("Alice", O)]] [[("Bob", O)]]).
  repeat constructor; discriminate.
Defined.

(** What [write_iob] leaves in the file. *)
Lemma write_iob_file filename data fs :
  ∃ r out,
    write_iob filename data fs = (r, <[filename := out]> fs)
    ∧ (write_iob filename data fs).2 !! filename = Some out.
Proof.
  unfold write_iob.
  destruct (write_sentences (length data) 0 data "") as [r out].
  exists r, out. split; [done|]. apply lookup_insert_eq.
Qed.

(** X14: the text that [write_iob] leaves in the file is read back to the
    corpus it was given exactly when no sentence is empty, no word holds a
    space or a newline, and no tag holds a newline; a tag may hold spaces.
    In that case [write_iob] raises nothing and leaves the sentences
    joined by blank lines. *)
Theorem roundtrip_exactly_when (filename : string) (data : iob)
    (fs : gmap string string) :
  let written := (write_iob filename data fs).2 !! filename in
  let kept := Forall (λ sent, sent ≠ [] ∧ Forall readable sent) data in
  (read_iob <$> written = Some data ↔ kept)
  ∧ (kept →
     write_iob filename data fs = (inr tt, <[filename := iob_text data]> fs)).
Proof.
  intros written kept.
  assert (Hwrite : kept →
    write_iob filename data fs = (inr tt, <[filename := iob_text data]> fs)).
  { intros H. apply write_iob_text.
    apply (Forall_impl _ _ _ H). by intros sent [? _]. }
  split; [|done]. split.
  - unfold written.
    destruct (write_iob_file filename data fs) as (r & out & _ & ->).
    cbn [fmap option_fmap option_map]. intros [= <-].
    apply read_blocks_readable; [|done].
    apply (fields_no_delim (λ c, Ascii.eqb c Str.nl)).
  - intros H. unfold written. rewrite (Hwrite H). cbn [snd].
    rewrite lookup_insert_eq. cbn [fmap option_fmap option_map]. f_equal.
    apply read_iob_text_readable.
    + apply (Forall_impl _ _ _ H). by intros sent [? _].
    + apply (Forall_impl _ _ _ H). by intros sent [_ ?].
Qed.

(** ** The partitioner *)

Lemma slices_cover {A} (xs : list A) (a c : Z) :
  (0 ≤ a)%Z → (0 ≤ c)%Z →
  slice None (Some a) xs ++ slice (Some a) (Some (a + c)%Z) xs
    ++ slice (Some (a + c)%Z) None xs
  = xs.
Proof.
  intros Ha Hc. unfold slice. cbn [from_option].
  set (n := length xs).
  assert (HA : slice_index n a = Z.to_nat (Z.min a (Z.of_nat n))).
  { unfold slice_index.
    by replace (a <? 0)%Z with false by (symmetry; apply Z.ltb_ge; lia). }
  assert (HB : slice_index n (a + c)
               = Z.to_nat (Z.min (a + c) (Z.of_nat n))).
  { unfold slice_index.
    by replace (a + c <? 0)%Z with false
      by (symmetry; apply Z.ltb_ge; lia). }
  set (i := slice_index n a) in *. set (j := slice_index n (a + c)) in *.
  assert (i ≤ j ∧ j ≤ n)%nat as [Hij Hjn] by lia.
  rewrite Nat.sub_0_r, drop_0.
  rewrite (take_ge (drop j xs)) by (rewrite length_drop; lia).
  replace (drop j xs) with (drop (j - i) (drop i xs))
    by (rewrite drop_drop; f_equal; lia).
  by rewrite !take_drop.
Qed.

(** X15: whatever the fractions and the seed, when the two counts
    [int(frac * nsent)] are computed and are not negative, the three
    results of [build_random_partitions] together hold every sentence of
    the corpus exactly once: their concatenation is a permutation of the
    corpus. *)
Theorem partitions_lose_nothing {rng : Type} (seed_rng : Z → rng)
    (randbelow : rng → nat → nat * rng)
    (σ : store) (iob_data : loc) (valid_frac test_frac : spec_float)
    (seed : Z) (d : iob) (valid_end test_count : Z) :
  (∀ g n, (0 < n)%nat → ((randbelow g n).1 < n)%nat) →
  read_data σ iob_data = Some d →
  float_count valid_frac (Z.of_nat (length d)) = inr valid_end →
  float_count test_frac (Z.of_nat (length d)) = inr test_count →
  (0 ≤ valid_end)%Z → (0 ≤ test_count)%Z →
  ∃ r1 r2 r3 σ' d1 d2 d3,
    build_random_partitions seed_rng randbelow iob_data valid_frac test_frac
      seed σ = Some (inr (r1, r2, r3), σ')
    ∧ read_data σ' r1 = Some d1
    ∧ read_data σ' r2 = Some d2
    ∧ read_data σ' r3 = Some d3
    ∧ d1 ++ d2 ++ d3 ≡ₚ d.
Proof.
  intros Hrb Hd Hv Ht Hv0 Ht0.
  destruct (build_random_partitions_run seed_rng randbelow Hrb σ iob_data
              valid_frac test_frac seed d Hd)
    as (σ' & shuffled & _ & Hp & Hrun).
  rewrite Hv, Ht in Hrun.
  destruct Hrun as (r1 & r2 & r3 & Hrun & H1 & H2 & H3).
  exists r1, r2, r3, σ'. do 3 eexists.
  split; [done|]. do 3 (split; [done|]).
  by rewrite slices_cover.
Qed.

Lemma partitions_lose_nothing_witness :
  let σ := (store_of (numbered_corpus 20)).2 in
  let iob_data := (store_of (numbered_corpus 20)).1 in
  let half := S754_finite false 4503599627370496 (-53) in
  (float_count half 20 = inr 10%Z ∧ float_count float_0_07 20 = inr 1%Z)
  ∧ ∃ r1 r2 r3 σ' d1 d2 d3,
      build_random_partitions lcg_seed lcg_randbelow iob_data half
        float_0_07 7 σ = Some (inr (r1, r2, r3), σ')
      ∧ read_data σ' r1 = Some d1
      ∧ read_data σ' r2 = Some d2
      ∧ read_data σ' r3 = Some d3
      ∧ d1 ++ d2 ++ d3 ≡ₚ numbered_corpus 20.
Proof.
  split; [split; vm_compute; reflexivity|].
  apply (partitions_lose_nothing lcg_seed lcg_randbelow
           (store_of (numbered_corpus 20)).2
           (store_of (numbered_corpus 20)).1
           (S754_finite false 4503599627370496 (-53)) float_0_07 7
           (numbered_corpus 20) 10 1 lcg_randbelow_lt).
  - vm_compute. reflexivity.
  - vm_compute. reflexivity.
  - vm_compute. reflexivity.
  - lia.
  - lia.
Defined.

(** X16: a corpus of fewer than 15 sentences leaves the first two results
    of the default call empty and the whole shuffled corpus in the third:
    [main] then writes an empty validation file and an empty test file,
    and every sentence to the train file. *)
Theorem small_corpus_partitions {rng : Type} (seed_rng : Z → rng)
    (randbelow : rng → nat → nat * rng)
    (σ : store) (iob_data : loc) (d : iob) :
  (∀ g n, (0 < n)%nat → ((randbelow g n).1 < n)%nat) →
  read_data σ iob_data = Some d →
  (length d < 15)%nat →
  ∃ r1 r2 r3 σ' shuffled,
    build_random_partitions_default seed_rng randbelow iob_data σ
    = Some (inr (r1, r2, r3), σ')
    ∧ shuffled ≡ₚ d
    ∧ read_data σ' r1 = Some []
    ∧ read_data σ' r2 = Some []
    ∧ read_data σ' r3 = Some shuffled
    ∧ (Forall (λ sent, sent ≠ []) d →
       ∀ trainfile validfile testfile fs,
         main_partitions seed_rng randbelow trainfile validfile testfile
           iob_data σ fs
         = Some (inr tt,
                 <[trainfile := iob_text shuffled]>
                   (<[testfile := ""]> (<[validfile := ""]> fs)))).
Proof.
  intros Hrb Hd Hsmall.
  destruct (build_random_partitions_run seed_rng randbelow Hrb σ iob_data
              float_0_07 float_0_07 42 d Hd)
    as (σ' & shuffled & _ & Hp & Hrun).
  rewrite binary64_count in Hrun by lia.
  replace (seven_percent (length d)) with 0%nat in Hrun
    by (unfold seven_percent; symmetry; apply Nat.div_small; lia).
  destruct Hrun as (r1 & r2 & r3 & Hrun & H1 & H2 & H3).
  unfold slice in H1, H2, H3. cbn [from_option] in H1, H2, H3.
  change (Z.of_nat 0 + Z.of_nat 0)%Z with (Z.of_nat 0) in H2, H3.
  rewrite !slice_index_of_nat in H1, H2, H3 by lia.
  cbn [Nat.sub take] in H1, H2. rewrite Nat.sub_0_r, drop_0, take_ge in H3
    by done.
  exists r1, r2, r3, σ', shuffled.
  split; [done|]. do 4 (split; [done|]).
  intros Hne trainfile validfile testfile fs.
  assert (Hne' : Forall (λ sent : sentence, sent ≠ []) shuffled)
    by by rewrite Hp.
  unfold main_partitions, write_iob_at, build_random_partitions_default.
  rewrite Hrun. cbn [mbind option_bind]. rewrite H1. cbn [mbind option_bind].
  rewrite write_iob_text by done.
  rewrite H2. cbn [mbind option_bind]. rewrite write_iob_text by done.
  rewrite H3. cbn [mbind option_bind]. by rewrite write_iob_text by done.
Qed.

Lemma small_corpus_partitions_witness :
  let σ := (store_of (numbered_corpus 14)).2 in
  let iob_data := (store_of (numbered_corpus 14)).1 in
  (length (numbered_corpus 14) < 15)%nat
  ∧ ∃ r1 r2 r3 σ' shuffled,
      build_random_partitions_default lcg_seed lcg_randbelow iob_data σ
      = Some (inr (r1, r2, r3), σ')
      ∧ shuffled ≡ₚ numbered_corpus 14
      ∧ read_data σ' r1 = Some []
      ∧ read_data σ' r2 = Some []
      ∧ read_data σ' r3 = Some shuffled
      ∧ (Forall (λ sent, sent ≠ []) (numbered_corpus 14) →
         ∀ trainfile validfile testfile fs,
           main_partitions lcg_seed lcg_randbelow trainfile validfile
             testfile iob_data σ fs
           = Some (inr tt,
                   <[trainfile := iob_text shuffled]>
                     (<[testfile := ""]> (<[validfile := ""]> fs)))).
Proof.
  split; [vm_compute; lia|].
  apply (small_corpus_partitions lcg_seed lcg_randbelow
           (store_of (numbered_corpus 14)).2
           (store_of (numbered_corpus 14)).1
           (numbered_corpus 14) lcg_randbelow_lt).
  - vm_compute. reflexivity.
  - vm_compute. lia.
Defined.

(** * Metrics *)

Section sorted_lemmas.

Context {A : Type}.
Variable le : A → A → bool.

Lemma insert_sorted_Permutation x l : insert_sorted le x l ≡ₚ x :: l.
Proof.
  induction l as [|y l IH]; simpl; [done|].
  destruct (le x y); [done|]. rewrite IH. apply Permutation_swap.
Qed.

Lemma sorted_Permutation l : sorted le l ≡ₚ l.
Proof.
  induction l as [|x l IH]; simpl; [done|].
  by rewrite insert_sorted_Permutation, IH.
Qed.

Hypothesis le_total : ∀ x y, le x y = true ∨ le y x = true.

Lemma insert_sorted_Sorted x l :
  Sorted (λ a b, le a b = true) l →
  Sorted (λ a b, le a b = true) (insert_sorted le x l).
Proof.
  induction 1 as [|y l Hl IH Hhd]; simpl; [by repeat constructor|].
  destruct (le x y) eqn:Hxy.
  - constructor; [by constructor|by constructor].
  - constructor; [done|].
    assert (Hyx : le y x = true) by (destruct (le_total x y); congruence).
    destruct Hhd as [|z l Hyz]; simpl; [by constructor|].
    destruct (le x z); by constructor.
Qed.

Lemma sorted_Sorted l : Sorted (λ a b, le a b = true) (sorted le l).
Proof.
  induction l as [|x l IH]; simpl; [constructor|].
  by apply insert_sorted_Sorted.
Qed.

End sorted_lemmas.

Section split_lemmas.

Lemma count_char_app c a b :
  count_char c (a +:+ b) = count_char c a + count_char c b.
Proof.
  induction a as [|x a IH]; [done|].
  rewrite append_cons. simpl. rewrite IH. lia.
Qed.

(** A string without the separator is its only field. *)
Lemma split_no_sep sep s : count_char sep s = 0 → Str.split sep s = [s].
Proof.
  unfold Str.split. induction s as [|c s IH]; [done|]. simpl.
  destruct (Ascii.eqb c sep); [done|]. intros H. by rewrite IH.
Qed.

Lemma split_cons_sep sep s : Str.split sep (String sep s) = "" :: Str.split sep s.
Proof. unfold Str.split. simpl. by rewrite Ascii.eqb_refl. Qed.

Lemma join_cons sep p q ps :
  Str.join sep (p :: q :: ps) = p +:+ sep +:+ Str.join sep (q :: ps).
Proof. reflexivity. Qed.

(** Joining the fields with the separator gives the string back. *)
Lemma join_split sep s : Str.join (String sep "") (Str.split sep s) = s.
Proof.
  unfold Str.split. induction s as [|c s IH]; [done|].
  rewrite fields_cons. rewrite (fields_hd_tl _ s) in IH.
  destruct (Ascii.eqb c sep) eqn:E.
  - apply Ascii.eqb_eq in E as ->.
    rewrite (fields_hd_tl _ s), join_cons.
    by rewrite append_nil_l, append_cons, append_nil_l, IH.
  - set (h := hd "" _) in *. set (t := tl _) in *.
    destruct t as [|x t]; [by rewrite <- IH|].
    rewrite join_cons in *. by rewrite append_cons, IH.
Qed.

Lemma split_two sep s a b :
  Str.split sep s = [a; b] → s = a +:+ String sep b.
Proof.
  intros H. rewrite <- (join_split sep s), H. cbn [Str.join].
  by rewrite append_cons, append_nil_l.
Qed.

Lemma split_length_two sep s :
  count_char sep s = 1 ↔ ∃ a b, Str.split sep s = [a; b].
Proof.
  rewrite <- (Nat.succ_inj_wd (count_char sep s) 1), <- length_split.
  split.
  - intros H. destruct (Str.split sep s) as [|a [|b [|]]]; try done.
    by exists a, b.
  - by intros (a & b & ->).
Qed.

End split_lemmas.

Section count_lemmas.

Implicit Types (tc : list (string * nat)) (ty : string).

(** The counting loop of a sentence raises [ValueError] at a tag that does
    not split in two, and otherwise folds [count_step]. *)
Lemma count_tags_fold sent : ∀ tc,
  count_tags sent tc
  = if forallb (λ p : string * tag_object, tag_splits p.2) sent
    then inr (foldl count_step tc sent)
    else inl ValueError.
Proof.
  induction sent as [|[word tag] sent IH]; intros tc; [done|].
  cbn [count_tags forallb foldl snd]. unfold count_step at 2.
  unfold begin_type, tag_splits at 1. cbn [snd].
  destruct tag as [|tag].
  - simpl. apply IH.
  - pose proof (length_split "-" tag) as Hlen.
    destruct (Str.split "-" tag) as [|a [|b [|c l]]]; simpl in Hlen.
    + done.
    + replace (count_char "-" tag) with 0 by lia. done.
    + replace (count_char "-" tag) with 1 by lia. simpl.
      rewrite IH. by destruct (String.eqb a B).
    + replace (count_char "-" tag) with (S (S (length l))) by lia. done.
Qed.

Lemma count_sentences_fold data : ∀ tc,
  count_sentences data tc
  = if forallb (forallb (λ p : string * tag_object, tag_splits p.2)) data
    then inr (foldl count_step tc (concat data))
    else inl ValueError.
Proof.
  induction data as [|sent data IH]; intros tc; [done|].
  cbn [count_sentences forallb concat]. rewrite count_tags_fold.
  destruct (forallb _ sent); [|done]. simpl.
  by rewrite IH, foldl_app.
Qed.

Lemma get_count_increment ty k tc :
  get_count ty (increment k tc)
  = get_count ty tc + (if String.eqb k ty then 1 else 0).
Proof.
  induction tc as [|[k0 n] tc IH]; simpl.
  - destruct (String.eqb k ty); lia.
  - destruct (String.eqb k0 k) eqn:E0; simpl.
    + apply String.eqb_eq in E0 as ->.
      destruct (String.eqb k ty); lia.
    + destruct (String.eqb k0 ty) eqn:E1; [|done].
      apply String.eqb_eq in E1 as ->. rewrite String.eqb_sym, E0. lia.
Qed.

Lemma keys_increment x k tc :
  x ∈ map fst (increment k tc) ↔ x = k ∨ x ∈ map fst tc.
Proof.
  induction tc as [|[k0 n] tc IH]; simpl.
  - rewrite list_elem_of_singleton. set_solver.
  - destruct (String.eqb k0 k) eqn:E0; simpl.
    + apply String.eqb_eq in E0 as ->. set_solver.
    + set_solver.
Qed.

Lemma NoDup_increment k tc :
  NoDup (map fst tc) → NoDup (map fst (increment k tc)).
Proof.
  induction tc as [|[k0 n] tc IH]; simpl; intros Hnd.
  - apply NoDup_singleton.
  - apply NoDup_cons in Hnd as [Hk0 Hnd].
    destruct (String.eqb k0 k) eqn:E0; simpl.
    + by apply NoDup_cons.
    + apply NoDup_cons. split; [|by apply IH].
      rewrite keys_increment. intros [->|?]; [|done].
      by rewrite String.eqb_refl in E0.
Qed.

Lemma positive_increment k tc :
  Forall (λ kn : string * nat, 0 < kn.2) tc →
  Forall (λ kn : string * nat, 0 < kn.2) (increment k tc).
Proof.
  induction 1 as [|[k0 n] tc Hn Htc IH]; simpl.
  - repeat constructor.
  - destruct (String.eqb k0 k); constructor; simpl in *; done || lia.
Qed.

Lemma elem_of_counts ty n tc :
  NoDup (map fst tc) → Forall (λ kn : string * nat, 0 < kn.2) tc →
  (ty, n) ∈ tc ↔ get_count ty tc = n ∧ 0 < n.
Proof.
  induction tc as [|[k m] tc IH]; simpl; intros Hnd Hpos.
  - split; [by intros ?%elem_of_nil|lia].
  - apply NoDup_cons in Hnd as [Hk Hnd].
    apply Forall_cons in Hpos as [Hm Hpos]. simpl in Hm.
    rewrite elem_of_cons, (IH Hnd Hpos).
    destruct (String.eqb k ty) eqn:E.
    + apply String.eqb_eq in E as ->. split.
      * intros [[= ->]|[Hget Hn]]; [done|].
        destruct Hk. apply (list_elem_of_fmap_2 fst tc (ty, n)).
        by apply (IH Hnd Hpos).
      * intros [-> _]. by left.
    + split.
      * intros [[= -> ->]|?]; [|done]. by rewrite String.eqb_refl in E.
      * intros ?. by right.
Qed.

(** The dictionary after the loop: distinct keys, positive counts, and
    for every type the number of tokens that count for it. *)
Lemma foldl_count_step sent : ∀ tc,
  NoDup (map fst tc) → Forall (λ kn : string * nat, 0 < kn.2) tc →
  NoDup (map fst (foldl count_step tc sent))
  ∧ Forall (λ kn : string * nat, 0 < kn.2) (foldl count_step tc sent)
  ∧ ∀ ty, get_count ty (foldl count_step tc sent)
          = get_count ty tc + count_begin ty sent.
Proof.
  induction sent as [|p sent IH]; intros tc Hnd Hpos; simpl.
  - split; [done|]. split; [done|]. intros ty. unfold count_begin. simpl. lia.
  - assert (NoDup (map fst (count_step tc p))
            ∧ Forall (λ kn : string * nat, 0 < kn.2) (count_step tc p)
            ∧ ∀ ty, get_count ty (count_step tc p)
                    = get_count ty tc
                      + (if bool_decide (begin_type p.2 = Some ty)
                         then 1 else 0)) as (Hnd' & Hpos' & Hget).
    { unfold count_step. destruct (begin_type p.2) as [k|].
      - split; [by apply NoDup_increment|].
        split; [by apply positive_increment|].
        intros ty. rewrite get_count_increment.
        destruct (String.eqb_spec k ty) as [->|Hne].
        + by rewrite bool_decide_eq_true_2.
        + rewrite bool_decide_eq_false_2; [done|]. by intros [= ?].
      - split; [done|]. split; [done|]. intros ty.
        rewrite bool_decide_eq_false_2 by done. lia. }
    destruct (IH _ Hnd' Hpos') as (H1 & H2 & H3).
    split; [done|]. split; [done|]. intros ty.
    rewrite H3, Hget. unfold count_begin. simpl.
    destruct (bool_decide (begin_type p.2 = Some ty)); simpl; lia.
Qed.

(** For a tag that splits, counting for a type is being its B-tag. *)
Lemma begin_type_iff tag ty :
  tag_splits tag = true →
  begin_type tag = Some ty ↔ tag_value tag = "B-" +:+ ty.
Proof.
  destruct tag as [|tag]; [done|].
  intros Hsplit. unfold begin_type. cbn [tag_value]. split.
  - destruct (Str.split "-" tag) as [|a [|b [|]]] eqn:E; try done.
    destruct (String.eqb_spec a B) as [->|]; [|done].
    intros [= ->]. by apply split_two in E.
  - intros ->. unfold tag_splits in Hsplit.
    change ("B-" +:+ ty) with (String "B" (String "-" ty)) in *.
    simpl in Hsplit. apply Nat.eqb_eq in Hsplit.
    unfold Str.split. rewrite fields_cons. cbn [Ascii.eqb Bool.eqb].
    fold (Str.split "-" (String "-" ty)).
    rewrite split_cons_sep, split_no_sep by lia. done.
Qed.

Lemma concat_tag_values data :
  concat (tag_values data)
  = map (λ p : string * tag_object, (p.1, tag_value p.2)) (concat data).
Proof. unfold tag_values. by rewrite concat_map. Qed.

Lemma count_begin_count_tag ty data :
  forallb (forallb (λ p : string * tag_object, tag_splits p.2)) data = true →
  count_begin ty (concat data) = count_tag ("B-" +:+ ty) (tag_values data).
Proof.
  intros Hall. unfold count_begin, count_tag. rewrite concat_tag_values.
  assert (Hc : Forall (λ p : string * tag_object, tag_splits p.2 = true)
                 (concat data)).
  { apply Forall_concat, Forall_forall. intros sent Hin.
    rewrite forallb_forall in Hall.
    apply list_elem_of_In, Hall in Hin.
    apply Forall_forall. intros p Hp.
    rewrite forallb_forall in Hin. by apply Hin, list_elem_of_In. }
  induction Hc as [|p l Hp _ IH]; [done|]. cbn [map List.filter snd].
  pose proof (begin_type_iff p.2 ty Hp) as Hiff.
  destruct (String.eqb_spec (tag_value p.2) ("B-" +:+ ty)) as [E|E].
  - rewrite bool_decide_eq_true_2 by by apply Hiff. simpl. by rewrite IH.
  - rewrite bool_decide_eq_false_2 by by rewrite Hiff. done.
Qed.

(** The strings of the tags of a linearized corpus are its tags. *)
Lemma tag_values_objects data : tag_values (tag_objects data) = data.
Proof.
  unfold tag_values, tag_objects. rewrite map_map.
  rewrite <- (map_id data) at 2. apply map_ext. intros sent.
  rewrite map_map. rewrite <- (map_id sent) at 2. apply map_ext.
  intros [w tag]. cbn [fst snd].
  destruct (String.eqb_spec tag O) as [->|]; done.
Qed.

End count_lemmas.

Lemma Sorted_weaken {A} (R1 R2 : A → A → Prop) (l : list A) :
  (∀ x y, R1 x y → R2 x y) → Sorted R1 l → Sorted R2 l.
Proof.
  intros HR. induction 1 as [|x l _ IH Hhd]; constructor; [done|].
  destruct Hhd; constructor. by apply HR.
Qed.

Lemma elem_of_concat {A} (x : A) (ls : list (list A)) :
  x ∈ concat ls ↔ ∃ l, l ∈ ls ∧ x ∈ l.
Proof.
  rewrite list_elem_of_In, in_concat. split.
  - intros (l & Hl & Hx). exists l. by rewrite !list_elem_of_In.
  - intros (l & Hl & Hx). exists l. by rewrite <- !list_elem_of_In.
Qed.

Lemma print_metrics_unfold data :
  print_metrics data
  = let labels :=
      sorted String.leb
        (remove_dups (map (λ p : string * tag_object, tag_value p.2)
                        (concat data))) in
    let out :=
      [PrintRule; PrintSentences (length data);
       PrintTokens (sum_list (map length data));
       PrintLabels (length labels) labels] in
    if forallb (forallb (λ p : string * tag_object, tag_splits p.2)) data
    then
      let tag_counts :=
        sorted (λ a b : string * nat, (b.2 <=? a.2)%nat)
          (foldl count_step [] (concat data)) in
      (inr tt,
       out ++ [PrintTypes (length tag_counts); PrintCounts tag_counts])
    else (inl ValueError, out).
Proof.
  unfold print_metrics. rewrite count_sentences_fold.
  by destruct (forallb _ data).
Qed.

(** X17: [print_metrics] raises [ValueError] exactly when some tag of the
    corpus is not the constant [O] itself and does not hold exactly one
    hyphen, a string equal to ["O"] that is another object included; it
    has then printed the first four of its six lines, the totals and the
    labels, and neither the number of types nor the counts. *)
Theorem print_metrics_value_error (iob_data : tagged) :
  let splits :=
    forallb (forallb (λ p : string * tag_object, tag_splits p.2)) iob_data in
  (print_metrics iob_data).1 = (if splits then inr tt else inl ValueError)
  ∧ length (print_metrics iob_data).2 = (if splits then 6 else 4)
  ∧ take 3 (print_metrics iob_data).2
    = [PrintRule; PrintSentences (length iob_data);
       PrintTokens (length (concat iob_data))].
Proof.
  intros splits. rewrite print_metrics_unfold. fold splits.
  assert (Hsum : sum_list (map length iob_data) = length (concat iob_data)).
  { induction iob_data as [|s d IH]; [done|].
    simpl. by rewrite length_app, IH. }
  destruct splits; cbn; by rewrite Hsum.
Qed.

(** X18: the counts that [print_metrics] prints last list every entity
    type once, each with the number of tokens of the corpus tagged with
    the B-tag of that type, which is not zero, and the counts never
    increase along the list. *)
Theorem metrics_type_counts (iob_data : tagged)
    (tag_counts : list (string * nat)) :
  last (print_metrics iob_data).2 = Some (PrintCounts tag_counts) →
  NoDup (map fst tag_counts)
  ∧ (∀ tag_type n,
       (tag_type, n) ∈ tag_counts
       ↔ n = count_tag ("B-" +:+ tag_type) (tag_values iob_data) ∧ 0 < n)
  ∧ Sorted (λ a b : string * nat, (b.2 ≤ a.2)%nat) tag_counts.
Proof.
  rewrite print_metrics_unfold. cbv zeta.
  destruct (forallb _ iob_data) eqn:Hsplit; [|done].
  cbn. intros [= <-].
  set (tc := foldl count_step [] (concat iob_data)).
  set (le := λ a b : string * nat, (b.2 <=? a.2)%nat).
  destruct (foldl_count_step (concat iob_data) [])
    as (Hnd & Hpos & Hget); [constructor|constructor|]. fold tc in Hnd, Hpos.
  pose proof (sorted_Permutation le tc) as Hperm.
  split; [by rewrite Hperm|]. split.
  - intros ty n. rewrite Hperm, (elem_of_counts ty n tc Hnd Hpos).
    unfold tc. rewrite Hget. simpl.
    rewrite (count_begin_count_tag ty iob_data Hsplit). split.
    + by intros [<- ?].
    + by intros [-> ?].
  - eapply Sorted_weaken; [|apply (sorted_Sorted le)].
    + intros a b Hab. by apply Nat.leb_le.
    + intros x y. unfold le.
      destruct (Nat.le_ge_cases x.2 y.2);
        [right|left]; by apply Nat.leb_le.
Qed.

Lemma metrics_type_counts_witness :
  let person := [("Ann", "B-person"); ("Lee", "I-person")] in
  let data := [person ++ [("in", "O"); ("Rome", "B-gpe")];
               [("Bob", "B-person"); ("left", "O"); ("Oslo", "B-gpe")];
               [("Eve", "B-person")]] in
  let tag_counts := [("person", 3); ("gpe", 2)] in
  last (print_metrics (tag_objects data)).2 = Some (PrintCounts tag_counts)
  ∧ NoDup (map fst tag_counts)
  ∧ (∀ tag_type n,
       (tag_type, n) ∈ tag_counts
       ↔ n = count_tag ("B-" +:+ tag_type) (tag_values (tag_objects data))
         ∧ 0 < n)
  ∧ Sorted (λ a b : string * nat, (b.2 ≤ a.2)%nat) tag_counts.
Proof.
  split; [reflexivity|].
  apply (metrics_type_counts
           (tag_objects
              [[("Ann", "B-person"); ("Lee", "I-person")]
                 ++ [("in", "O"); ("Rome", "B-gpe")];
               [("Bob", "B-person"); ("left", "O"); ("Oslo", "B-gpe")];
               [("Eve", "B-person")]])
           [("person", 3); ("gpe", 2)]).
  reflexivity.
Defined.

(** X19: the labels that [print_metrics] prints in its fourth line are
    the tags that occur in the corpus, each once, in the order of the
    strings. *)
Theorem metrics_labels (iob_data : tagged) :
  ∃ labels,
    (print_metrics iob_data).2 !! 3
    = Some (PrintLabels (length labels) labels)
    ∧ Sorted (λ a b, String.leb a b = true) labels
    ∧ NoDup labels
    ∧ ∀ tag,
        tag ∈ labels
        ↔ ∃ sent word, sent ∈ tag_values iob_data ∧ (word, tag) ∈ sent.
Proof.
  set (tags := map (λ p : string * tag_object, tag_value p.2)
                 (concat iob_data)).
  exists (sorted String.leb (remove_dups tags)).
  pose proof (sorted_Permutation String.leb (remove_dups tags)) as Hperm.
  split; [|split; [|split]].
  - rewrite print_metrics_unfold. cbv zeta. by destruct (forallb _ iob_data).
  - apply sorted_Sorted, String.leb_total.
  - rewrite Hperm. apply NoDup_remove_dups.
  - intros tag. rewrite Hperm, elem_of_remove_dups.
    assert (Htags : tags = map snd (concat (tag_values iob_data))).
    { unfold tags. by rewrite concat_tag_values, map_map. }
    rewrite Htags, list_elem_of_fmap. split.
    + intros ([word tag'] & -> & (sent & Hsent & Hp)%elem_of_concat).
      by exists sent, word.
    + intros (sent & word & Hsent & Hp). exists (word, tag).
      split; [done|]. apply elem_of_concat. by exists sent.
Qed.

Lemma forallb_Forall {A} (f : A → bool) (l : list A) :
  forallb f l = true ↔ Forall (λ x, f x = true) l.
Proof.
  induction l as [|x l IH]; simpl; [done|].
  by rewrite andb_true_iff, Forall_cons, IH.
Qed.

(** The object of a well-formed tag of the linearizer splits exactly when
    the tag holds at most one hyphen. *)
Lemma tag_ok_splits tag :
  tag_ok tag →
  tag_splits (if String.eqb tag O then TheO else Other tag) = true
  ↔ (count_char "-" tag ≤ 1)%nat.
Proof.
  intros [->|(tag_pos & tag_type & -> & Hpos & _)];
    [split; intros _; [simpl; lia|reflexivity]|].
  destruct Hpos as [->| ->].
  - change (B +:+ "-" +:+ tag_type) with (String "B" (String "-" tag_type)).
    simpl. rewrite Nat.eqb_eq. lia.
  - change (I +:+ "-" +:+ tag_type) with (String "I" (String "-" tag_type)).
    simpl. rewrite Nat.eqb_eq. lia.
Qed.

(** The tags of well-formed data split exactly when they hold at most one
    hyphen. *)
Lemma splits_iff_hyphens data :
  Forall (Forall (λ p : token_tag, tag_ok p.2)) data →
  forallb (forallb (λ p : string * tag_object, tag_splits p.2))
    (tag_objects data) = true
  ↔ Forall (Forall (λ p : token_tag, (count_char "-" p.2 ≤ 1)%nat)) data.
Proof.
  intros Htags. rewrite forallb_Forall. unfold tag_objects.
  induction Htags as [|sent data Hsent _ IH]; [done|].
  cbn [map]. rewrite !Forall_cons, IH, forallb_Forall.
  assert (Forall (λ p : string * tag_object, tag_splits p.2 = true)
            (map (λ p : token_tag,
                    (p.1, if String.eqb p.2 O then TheO else Other p.2))
               sent)
          ↔ Forall (λ p : token_tag, (count_char "-" p.2 ≤ 1)%nat) sent)
    as ->; [|done].
  clear IH. induction Hsent as [|p sent Hp _ IH]; [done|].
  cbn [map]. by rewrite !Forall_cons, IH, <- (tag_ok_splits _ Hp).
Qed.

Lemma hyphens_not_split data :
  Forall (Forall (λ p : token_tag, tag_ok p.2)) data →
  Exists (Exists (λ p : token_tag, (1 < count_char "-" p.2)%nat)) data →
  forallb (forallb (λ p : string * tag_object, tag_splits p.2))
    (tag_objects data) = false.
Proof.
  intros Htags Hex. apply not_true_is_false.
  intros Hall%(splits_iff_hyphens _ Htags).
  apply Exists_exists in Hex as (sent & Hsent & Hex).
  apply Exists_exists in Hex as (p & Hp & Hlt).
  rewrite Forall_forall in Hall. specialize (Hall sent Hsent).
  rewrite Forall_forall in Hall. specialize (Hall p Hp). lia.
Qed.

(** X20: on the corpus that [parse_iob_files] returns, whose tags [O] are
    the constant itself, [print_metrics] raises [ValueError] exactly when
    some tag holds more than one hyphen, that is, when the type of some
    entity contains a hyphen. *)
Theorem parsed_metrics_hyphen (read_file : string → exn + string)
    (fromstring : string → option element)
    (filenames : list string) (verbose : bool) (data : iob) :
  parse_iob_files read_file fromstring filenames verbose = inr data →
  ((print_metrics (tag_objects data)).1 = inr tt
   ↔ Forall (Forall (λ p : token_tag, (count_char "-" p.2 ≤ 1)%nat)) data)
  ∧ ((print_metrics (tag_objects data)).1 = inl ValueError
     ↔ Exists (Exists (λ p : token_tag, (1 < count_char "-" p.2)%nat)) data).
Proof.
  intros Htags%parsed_tags_ok.
  pose proof (splits_iff_hyphens data Htags) as Hiff.
  pose proof (hyphens_not_split data Htags) as Hnot.
  rewrite print_metrics_unfold. cbv zeta.
  destruct (forallb _ (tag_objects data)) eqn:E; cbn [fst]; split.
  - split; [intros _; by apply Hiff|done].
  - split; [done|]. intros Hex. by specialize (Hnot Hex).
  - split; [done|]. intros Hall. apply Hiff in Hall. congruence.
  - split; [|done]. intros _.
    assert (Hex : Exists (not ∘ Forall (λ p : token_tag,
                                          (count_char "-" p.2 ≤ 1)%nat))
                    data).
    { apply not_Forall_Exists; [apply _|].
      intros Hall. apply Hiff in Hall. congruence. }
    apply (Exists_impl _ _ _ Hex). intros sent Hsent. simpl in Hsent.
    apply not_Forall_Exists in Hsent; [|apply _].
    apply (Exists_impl _ _ _ Hsent). intros p Hp. simpl in Hp. lia.
Qed.

Lemma parsed_metrics_hyphen_witness :
  parse_iob_files sample_read_file sample_fromstring ["00.name"] true
  = inr sample_iob
  ∧ ((print_metrics (tag_objects sample_iob)).1 = inr tt
     ↔ Forall (Forall (λ p : token_tag, (count_char "-" p.2 ≤ 1)%nat))
         sample_iob)
  ∧ ((print_metrics (tag_objects sample_iob)).1 = inl ValueError
     ↔ Exists (Exists (λ p : token_tag, (1 < count_char "-" p.2)%nat))
         sample_iob).
Proof.
  split; [vm_compute; reflexivity|].
  apply (parsed_metrics_hyphen sample_read_file sample_fromstring
           ["00.name"] true).
  vm_compute; reflexivity.
Defined.

(** * The command *)

Section store_of_lemmas.



End store_of_lemmas.

Section main_lemmas.

Context {rng : Type}.
Variable seed_rng : Z → rng.
Variable randbelow : rng → nat → nat * rng.
Hypothesis randbelow_lt : ∀ g n, (0 < n)%nat → ((randbelow g n).1 < n)%nat.


End main_lemmas.


(** X21: when any of the files that [glob] finds is rejected, [main] ends
    with an exception and has written no file: the inputs are all parsed
    before the first output is opened. *)
Theorem main_rejects_without_writing {rng : Type} (seed_rng : Z → rng)
    (randbelow : rng → nat → nat * rng)
    (fromstring : string → option element)
    (glob_names : string → list string)
    (data_dir iobfile trainfile validfile testfile : string)
    (verbose : bool) (fs : gmap string string)
    (filename : string) (e : exn) :
  filename ∈ glob_names data_dir →
  parse_iob_file (read_text fs) fromstring filename = inl e →
  ∃ e',
    main seed_rng randbelow fromstring glob_names data_dir iobfile trainfile
      validfile testfile verbose fs
    = Some (inl e', fs).
Proof.
  intros Hin He.
  rewrite <- (sorted_Permutation String.leb (glob_names data_dir)) in Hin.
  apply list_elem_of_split in Hin as (before & after & Hsplit).
  destruct (parse_iob_files_from_error (read_text fs) fromstring []
              before filename after e He) as [e' He'].
  exists e'. unfold main, parse_iob_files. by rewrite Hsplit, He'.
Qed.

Lemma main_rejects_without_writing_witness :
  let glob_names := λ _ : string, ["02.name"; "00.name"] in
  ("02.name" ∈ glob_names "data"
   ∧ parse_iob_file (read_text sample_files) sample_fromstring "02.name"
     = inl (KeyError "TYPE"))
  ∧ ∃ e',
      main lcg_seed lcg_randbelow sample_fromstring glob_names "data"
        "iob.txt" "train.txt" "valid.txt" "test.txt" true sample_files
      = Some (inl e', sample_files).
Proof.
  split; [split; [by left|by vm_compute]|].
  apply (main_rejects_without_writing lcg_seed lcg_randbelow
           sample_fromstring (λ _, ["02.name"; "00.name"]) "data"
           "iob.txt" "train.txt" "valid.txt" "test.txt" true sample_files
           "02.name" (KeyError "TYPE")).
  - by left.
  - by vm_compute.
Defined.

(** X22: with [verbose] set, as it is by default, a corpus in which the
    type of some entity contains a hyphen makes [main] end with
    [ValueError], raised by [print_metrics], before any file is
    written. *)
Theorem main_hyphen_type_fails {rng : Type} (seed_rng : Z → rng)
    (randbelow : rng → nat → nat * rng)
    (fromstring : string → option element)
    (glob_names : string → list string)
    (data_dir iobfile trainfile validfile testfile : string)
    (fs : gmap string string) (data : iob) :
  parse_iob_files (read_text fs) fromstring
    (sorted String.leb (glob_names data_dir)) true = inr data →
  Exists (Exists (λ p : token_tag, (1 < count_char "-" p.2)%nat)) data →
  main seed_rng randbelow fromstring glob_names data_dir iobfile trainfile
    validfile testfile true fs
  = Some (inl ValueError, fs).
Proof.
  intros Hparse Hex. unfold main. rewrite Hparse.
  rewrite print_metrics_unfold. cbv zeta.
  by rewrite (hyphens_not_split data (parsed_tags_ok _ _ _ _ _ Hparse) Hex).
Qed.

Lemma main_hyphen_type_fails_witness :
  let fs : gmap string string := {[ "03.name" := sample_raw_hyphen ]} in
  let fromstring := λ _ : string, Some sample_doc_hyphen in
  let glob_names := λ _ : string, ["03.name"] in
  let data := [[("Hamlet", "B-work-of-art")]] in
  (parse_iob_files (read_text fs) fromstring
     (sorted String.leb (glob_names "data")) true = inr data
   ∧ Exists (Exists (λ p : token_tag, (1 < count_char "-" p.2)%nat)) data)
  ∧ main lcg_seed lcg_randbelow fromstring glob_names "data" "iob.txt"
      "train.txt" "valid.txt" "test.txt" true fs
    = Some (inl ValueError, fs).
Proof.
  split; [split; [by vm_compute|left; left; vm_compute; lia]|].
  apply (main_hyphen_type_fails lcg_seed lcg_randbelow
           (λ _, Some sample_doc_hyphen) (λ _, ["03.name"]) "data"
           "iob.txt" "train.txt" "valid.txt" "test.txt"
           {[ "03.name" := sample_raw_hyphen ]}
           [[("Hamlet", "B-work-of-art")]]).
  - by vm_compute.
  - left; left; vm_compute; lia.
Defined.



(** X24: when [glob] finds no file, [main] ends without an exception and
    leaves four empty files, whatever the generator. *)
Theorem main_no_input {rng : Type} (seed_rng : Z → rng)
    (randbelow : rng → nat → nat * rng)
    (fromstring : string → option element)
    (glob_names : string → list string)
    (data_dir iobfile trainfile validfile testfile : string)
    (verbose : bool) (fs : gmap string string) :
  glob_names data_dir = [] →
  main seed_rng randbelow fromstring glob_names data_dir iobfile trainfile
    validfile testfile verbose fs
  = Some (inr tt,
          <[trainfile := ""]>
            (<[testfile := ""]>
               (<[validfile := ""]> (<[iobfile := ""]> fs)))).
Proof.
  intros Hglob. unfold main. rewrite Hglob.
  change (parse_iob_files _ fromstring (sorted String.leb []) verbose)
    with (inr [] : exn + iob).
  cbv beta iota.
  assert ((if verbose then (print_metrics (tag_objects [])).1 else inr ())
          = inr tt) as -> by by destruct verbose.
  rewrite write_iob_text by done.
  change (iob_text []) with "".
  set (fs1 := <[iobfile := ""]> fs). clearbody fs1.
  vm_compute. reflexivity.
Qed.

Lemma main_no_input_witness :
  let glob_names := λ _ : string, @nil string in
  glob_names "data" = []
  ∧ main lcg_seed lcg_randbelow sample_fromstring glob_names "data"
      "iob.txt" "train.txt" "valid.txt" "test.txt" true sample_files
    = Some (inr tt,
            <[ "train.txt" := "" ]>
              (<[ "test.txt" := "" ]>
                 (<[ "valid.txt" := "" ]>
                    (<[ "iob.txt" := "" ]> sample_files)))).
Proof.
  split; [reflexivity|].
  apply (main_no_input lcg_seed lcg_randbelow sample_fromstring
           (λ _, []) "data" "iob.txt" "train.txt" "valid.txt" "test.txt"
           true sample_files).
  reflexivity.
Defined.

(** * Further properties of the linearizer and the partitioner *)

Lemma not_typed_malformed root : typed_ok root = false → malformed_in root.
Proof.
  induction root as [tag attrib text tail cs IHcs] using element_ind'.
  cbn [typed_ok]. intros [Hnode|Hcs]%andb_false_iff.
  - unfold node_ok in Hnode. apply orb_false_iff in Hnode as [H1 H2].
    apply negb_false_iff, andb_true_iff in H1 as [Htext Htag].
    apply String.eqb_eq in Htag. apply bool_decide_eq_false in H2.
    apply malformed_here; [done|done|].
    destruct (attrib !! "TYPE") eqn:E; [|done]. by destruct H2.
  - clear -IHcs Hcs. induction IHcs as [|c cs Hc _ IH]; [done|].
    cbn [forallb] in Hcs. apply andb_false_iff in Hcs as [Hbad|Hcs].
    + eapply malformed_child; [apply list_elem_of_here|by apply Hc].
    + specialize (IH Hcs).
      inversion IH as [|? ? ? ? ? c' Hin Hc' ]; subst.
      * by apply malformed_here.
      * eapply malformed_child; [|done]. by apply list_elem_of_further.
Qed.

(** X25: started on an accumulator that holds a sentence, the linearizer
    raises only for a malformed entity: it raises [KeyError] for [TYPE]
    exactly when some [ENAMEX] node with text has no [TYPE] attribute, and
    returns otherwise; an [ENAMEX] node without text needs no [TYPE]. *)
Theorem xml2iob_raises_only_malformed (root : element) (d : iob) :
  d ≠ [] →
  (result (xml2iob root d) = inl (KeyError "TYPE") ↔ malformed_in root)
  ∧ (result (xml2iob root d) = inr tt ↔ ¬ malformed_in root).
Proof.
  intros (ds & s & ->)%snoc_of_nonempty.
  pose proof (xml2iob_run root ds s) as Hrun.
  destruct (typed_ok root) eqn:Hok.
  - destruct Hrun as (ds' & s' & [Hr _] & _). rewrite Hr.
    assert (¬ malformed_in root) as Hgood.
    { intros Hbad%malformed_not_typed. congruence. }
    split; split; done.
  - rewrite Hrun. apply not_typed_malformed in Hok.
    split; split; done.
Qed.

Lemma xml2iob_raises_only_malformed_witness :
  let root := Element "DOC" ∅ None None
                [Element "ENAMEX" ∅ None (Some "Rome") []] in
  [[("in", O)]] ≠ []
  ∧ (result (xml2iob root [[("in", O)]]) = inl (KeyError "TYPE")
     ↔ malformed_in root)
  ∧ (result (xml2iob root [[("in", O)]]) = inr tt ↔ ¬ malformed_in root).
Proof.
  split; [discriminate|].
  apply (xml2iob_raises_only_malformed
           (Element "DOC" ∅ None None
              [Element "ENAMEX" ∅ None (Some "Rome") []])
           [[("in", O)]]).
  discriminate.
Defined.

Lemma tags_from_entity tag_type tag_pos ws :
  Str.truthy tag_type = true → tag_pos = B ∨ tag_pos = I →
  List.filter (λ p : token_tag, negb (String.eqb p.2 O))
    (tags_from tag_type tag_pos ws)
  = tags_from tag_type tag_pos ws.
Proof.
  intros Hty. revert tag_pos.
  induction ws as [|w ws IH]; intros tag_pos Hpos; [done|].
  cbn [tags_from List.filter snd]. rewrite mk_tag_typed by done.
  rewrite IH by by right.
  by destruct Hpos as [->| ->].
Qed.

Lemma tags_from_no_entity tag_pos ws :
  List.filter (λ p : token_tag, negb (String.eqb p.2 O))
    (tags_from "" tag_pos ws)
  = [].
Proof.
  revert tag_pos. induction ws as [|w ws IH]; intros tag_pos; [done|].
  cbn [tags_from List.filter snd]. by rewrite IH.
Qed.

Lemma filter_concat {A} (f : A → bool) (ls : list (list A)) :
  List.filter f (concat ls) = concat (map (List.filter f) ls).
Proof.
  induction ls as [|l ls IH]; [done|].
  simpl. by rewrite List.filter_app, IH.
Qed.

Lemma segment_pairs_entity tag_type text :
  map fst (List.filter (λ p : token_tag, negb (String.eqb p.2 O))
             (segment_pairs tag_type text))
  = if Str.truthy tag_type then Str.tokens space_or_newline text else [].
Proof.
  destruct (Str.truthy tag_type) eqn:Hty.
  - rewrite <- (segment_pairs_tokens tag_type text). f_equal.
    unfold segment_pairs. rewrite filter_concat, map_map. f_equal.
    apply map_ext. intros line. apply tags_from_entity; [done|by left].
  - destruct tag_type; [|done].
    unfold segment_pairs. rewrite filter_concat, map_map.
    replace (map _ (Str.split Str.nl text))
      with (map (λ _ : string, @nil token_tag) (Str.split Str.nl text)).
    + by induction (Str.split Str.nl text).
    + apply map_ext. intros line. symmetry. apply tags_from_no_entity.
Qed.

Lemma tree_pairs_entity root :
  map fst (List.filter (λ p : token_tag, negb (String.eqb p.2 O))
             (tree_pairs root))
  = entity_words root.
Proof.
  induction root as [tag attrib text tail cs IHcs] using element_ind'.
  cbn [tree_pairs entity_words].
  rewrite !List.filter_app, !map_app. f_equal; [|].
  - destruct text as [txt|]; [apply segment_pairs_entity|].
    by destruct (Str.truthy _).
  - replace (map fst (List.filter _ (match tail with
                                     | Some tl => segment_pairs "" tl
                                     | None => []
                                     end)))
      with (@nil string)
      by (destruct tail as [tl|]; [by rewrite segment_pairs_entity|done]).
    rewrite app_nil_r. clear -IHcs.
    induction IHcs as [|c cs Hc _ IH]; [done|].
    cbn [flat_map]. by rewrite List.filter_app, map_app, Hc, IH.
Qed.

(** X26: the tokens that the linearizer tags as part of an entity are
    exactly the words of the own text of the [ENAMEX] nodes with a
    non-empty type, in document order: the text of the nodes inside an
    entity and every tail are tagged [O]. *)
Theorem entity_tags_on_own_text (root : element) :
  typed_ok root = true →
  map fst (List.filter (λ p : token_tag, negb (String.eqb p.2 O))
             (emitted root))
  = entity_words root.
Proof.
  intros Hok. pose proof (xml2iob_run root [] []) as H.
  rewrite Hok in H. destruct H as (ds' & s' & [_ Hf] & Hc).
  unfold emitted. simpl in Hf, Hc. rewrite Hf, Hc.
  apply tree_pairs_entity.
Qed.

Lemma entity_tags_on_own_text_witness :
  let root :=
    Element "DOC" ∅ (Some "see ") None
      [Element "ENAMEX" {[ "TYPE" := "WORK" ]} (Some "The")
         (Some " today")
         [Element "I" ∅ (Some "Tempest") (Some " play") []]] in
  typed_ok root = true
  ∧ map fst (List.filter (λ p : token_tag, negb (String.eqb p.2 O))
               (emitted root))
    = entity_words root.
Proof.
  split; [reflexivity|].
  apply (entity_tags_on_own_text
           (Element "DOC" ∅ (Some "see ") None
              [Element "ENAMEX" {[ "TYPE" := "WORK" ]} (Some "The")
                 (Some " today")
                 [Element "I" ∅ (Some "Tempest") (Some " play") []]])).
  reflexivity.
Defined.

(** X27: for every number of sentences below [2 ^ 48], the count
    [int(0.07 * nsent)], computed as Python computes it with binary64
    floats (the integer converted, the product rounded to nearest, the
    result truncated), is the exact [floor(7 * nsent / 100)]: the
    rounding never changes the count. *)
Theorem default_count_is_exact (nsent : Z) :
  (0 ≤ nsent < 2 ^ 48)%Z →
  float_count float_0_07 nsent = inr (7 * nsent / 100)%Z.
Proof. intros H. by apply float_count_0_07. Qed.

Lemma default_count_is_exact_witness :
  (0 ≤ 143709 < 2 ^ 48)%Z
  ∧ float_count float_0_07 143709 = inr (7 * 143709 / 100)%Z.
Proof.
  split; [lia|]. apply (default_count_is_exact 143709). lia.
Defined.

Lemma float_count_non_finite frac nsent :
  non_finite frac = true →
  float_count frac nsent = inl OverflowError
  ∨ float_count frac nsent = inl ValueError.
Proof.
  intros Hfrac. unfold float_count.
  destruct (float_of_int nsent) as [e|x] eqn:E.
  - left. unfold float_of_int in E.
    destruct (binary_normalize 53 1024 nsent 0 false); try discriminate.
    by injection E as <-.
  - destruct frac as [| s | |]; try done; destruct x as [| s' | |];
      simpl; auto.
Qed.

(** X28: a fraction that is an infinity or a NaN makes
    [build_random_partitions] raise [OverflowError] or [ValueError], the
    exception of the conversion [int(frac * nsent)], for every corpus and
    seed; no partition is returned. *)
Theorem non_finite_fraction_raises {rng : Type} (seed_rng : Z → rng)
    (randbelow : rng → nat → nat * rng)
    (σ : store) (iob_data : loc) (valid_frac test_frac : spec_float)
    (seed : Z) (d : iob) :
  (∀ g n, (0 < n)%nat → ((randbelow g n).1 < n)%nat) →
  read_data σ iob_data = Some d →
  non_finite valid_frac = true ∨ non_finite test_frac = true →
  ∃ e σ',
    build_random_partitions seed_rng randbelow iob_data valid_frac test_frac
      seed σ = Some (inl e, σ')
    ∧ (e = OverflowError ∨ e = ValueError).
Proof.
  intros Hrb Hd Hfrac.
  destruct (build_random_partitions_run seed_rng randbelow Hrb σ iob_data
              valid_frac test_frac seed d Hd)
    as (σ' & shuffled & _ & _ & Hrun).
  assert (Hexn : ∀ frac e,
    float_count frac (Z.of_nat (length d)) = inl e →
    e = OverflowError ∨ e = ValueError).
  { intros frac e E. unfold float_count in E.
    destruct (float_of_int (Z.of_nat (length d))) as [e'|x] eqn:Ex.
    - injection E as <-. unfold float_of_int in Ex. left.
      destruct (binary_normalize 53 1024 _ 0 false); try discriminate.
      by injection Ex as <-.
    - unfold int_of_float in E.
      destruct (SFmul 53 1024 frac x); try done;
        injection E as <-; auto. }
  destruct (float_count valid_frac _) as [e|valid_end] eqn:Ev.
  - exists e, σ'. split; [done|]. by eapply Hexn.
  - destruct (float_count test_frac _) as [e|test_count] eqn:Et.
    + exists e, σ'. split; [done|]. by eapply Hexn.
    + destruct Hfrac as [Hv|Ht].
      * destruct (float_count_non_finite valid_frac (Z.of_nat (length d)) Hv);
          congruence.
      * destruct (float_count_non_finite test_frac (Z.of_nat (length d)) Ht);
          congruence.
Qed.

Lemma non_finite_fraction_raises_witness :
  let σ := (store_of (numbered_corpus 20)).2 in
  let iob_data := (store_of (numbered_corpus 20)).1 in
  (non_finite float_0_07 = true ∨ non_finite S754_nan = true)
  ∧ ∃ e σ',
      build_random_partitions lcg_seed lcg_randbelow iob_data float_0_07
        S754_nan 42 σ = Some (inl e, σ')
      ∧ (e = OverflowError ∨ e = ValueError).
Proof.
  split; [right; reflexivity|].
  apply (non_finite_fraction_raises lcg_seed lcg_randbelow
           (store_of (numbered_corpus 20)).2
           (store_of (numbered_corpus 20)).1
           float_0_07 S754_nan 42 (numbered_corpus 20) lcg_randbelow_lt).
  - vm_compute. reflexivity.
  - right; reflexivity.
Defined.

Section fresh_lemmas.

Implicit Types (σ : store) (l x y a : loc).

Lemma lookup_None_weaken σ σ' l : σ ⊆ σ' → σ' !! l = None → σ !! l = None.
Proof.
  intros Hsub Hl. destruct (σ !! l) as [o|] eqn:E; [|done].
  by rewrite (lookup_weaken _ _ _ _ E Hsub) in Hl.
Qed.

(** The copy loop puts in the copy only objects that the store it started
    from does not hold. *)
Lemma deepcopy_elems_fresh σ0 y refs : ∀ memo σ ys memo' σ',
  deepcopy_elems refs y memo σ = Some (memo', σ') →
  σ0 !! y = None → σ0 ⊆ σ →
  (∀ a a', memo !! a = Some a' → σ0 !! a' = None) →
  get_corpus σ y = Some ys → Forall (λ a, σ0 !! a = None) ys →
  ∃ ys', get_corpus σ' y = Some ys' ∧ Forall (λ a, σ0 !! a = None) ys'.
Proof.
  induction refs as [|a refs IH];
    intros memo σ ys memo' σ' Hrun Hy0 Hsub Hmemo Hy Hys.
  - injection Hrun as <- <-. by exists ys.
  - cbn [deepcopy_elems] in Hrun. unfold deepcopy_sent in Hrun.
    destruct (memo !! a) as [a'|] eqn:Hm.
    + simpl in Hrun. rewrite Hy in Hrun. simpl in Hrun.
      apply (IH _ _ (ys ++ [a']) _ _ Hrun); try done.
      * by apply insert_subseteq_r.
      * apply get_corpus_insert.
      * apply Forall_app. split; [done|]. constructor; [|done].
        by eapply Hmemo.
    + destruct (get_sent σ a) as [t|]; [|done]. simpl in Hrun.
      set (a' := fresh (dom σ)) in *. set (σ1 := <[a' := Sent t]> σ) in *.
      assert (Ha' : σ !! a' = None) by apply (alloc_fresh σ (Sent t)).
      assert (Hsub1 : σ ⊆ σ1) by by apply insert_subseteq.
      rewrite (get_corpus_weaken _ _ _ _ Hsub1 Hy) in Hrun. simpl in Hrun.
      assert (Ha0 : σ0 !! a' = None) by by eapply lookup_None_weaken.
      apply (IH _ _ (ys ++ [a']) _ _ Hrun); try done.
      * apply insert_subseteq_r; [done|]. by etrans.
      * intros b b' Hb. destruct (decide (a = b)) as [->|Hne].
        -- rewrite lookup_insert_eq in Hb. by injection Hb as <-.
        -- rewrite lookup_insert_ne in Hb by done. by eapply Hmemo.
      * apply get_corpus_insert.
      * apply Forall_app. split; [done|]. by constructor.
Qed.

Lemma deepcopy_fresh σ x y σ' :
  deepcopy σ x = Some (y, σ') →
  σ !! y = None
  ∧ ∃ ys, get_corpus σ' y = Some ys ∧ Forall (λ a, σ !! a = None) ys.
Proof.
  unfold deepcopy. destruct (get_corpus σ x) as [refs|]; [|done].
  simpl. set (y0 := fresh (dom σ)).
  assert (Hy : σ !! y0 = None) by apply (alloc_fresh σ (Corpus [])).
  destruct (deepcopy_elems refs y0 {[x := y0]} (<[y0 := Corpus []]> σ))
    as [[memo' σ1]|] eqn:Hrun; [|done].
  simpl. intros [= <- <-]. split; [done|].
  apply (deepcopy_elems_fresh σ y0 refs _ _ [] _ _ Hrun); try done.
  - by apply insert_subseteq.
  - intros a a' [<- <-]%lookup_singleton_Some. done.
  - apply get_corpus_insert.
Qed.

End fresh_lemmas.

(** X29: whenever [build_random_partitions] returns, its three results
    are three different lists that did not exist before the call, and so
    did none of the sentence objects they hold: the results share no list
    with the argument, so changing them cannot change the corpus. *)
Theorem partitions_are_new_objects {rng : Type} (seed_rng : Z → rng)
    (randbelow : rng → nat → nat * rng)
    (σ : store) (iob_data : loc) (valid_frac test_frac : spec_float)
    (seed : Z) (d : iob) (valid_end test_count : Z) :
  (∀ g n, (0 < n)%nat → ((randbelow g n).1 < n)%nat) →
  read_data σ iob_data = Some d →
  float_count valid_frac (Z.of_nat (length d)) = inr valid_end →
  float_count test_frac (Z.of_nat (length d)) = inr test_count →
  ∃ r1 r2 r3 σ',
    build_random_partitions seed_rng randbelow iob_data valid_frac test_frac
      seed σ = Some (inr (r1, r2, r3), σ')
    ∧ NoDup [r1; r2; r3]
    ∧ Forall (λ r, σ !! r = None
                   ∧ ∃ refs, get_corpus σ' r = Some refs
                             ∧ Forall (λ a, σ !! a = None) refs)
        [r1; r2; r3].
Proof.
  intros randbelow_lt Hd Hv Ht. unfold build_random_partitions.
  destruct (deepcopy_ok σ iob_data d Hd) as (y & σ1 & Hcopy & Hsub1 & Hy & Hd1).
  destruct (deepcopy_fresh _ _ _ _ Hcopy) as (_ & ys & Hys & Hfresh).
  rewrite Hcopy. cbn [mbind option_bind]. unfold shuffle. rewrite Hys.
  cbn [mbind option_bind].
  destruct (shuffle_from_ok randbelow randbelow_lt y (length ys)
              (seed_rng seed) σ1 ys Hys ltac:(done))
    as (g' & xs & -> & Hp).
  cbn [mbind option_bind]. rewrite get_corpus_insert.
  cbn [mbind option_bind].
  apply read_data_Some in Hd1 as (ys0 & Hys0 & Hd1).
  rewrite Hys in Hys0. injection Hys0 as <-.
  rewrite (Permutation_length Hp), (Forall2_length _ _ _ Hd1), Hv, Ht.
  set (σ2 := <[y := Corpus xs]> σ1).
  assert (Hsub2 : ∀ l, σ2 !! l = None → σ !! l = None).
  { intros l Hl. destruct (decide (l = y)) as [->|Hne]; [done|].
    unfold σ2 in Hl. rewrite lookup_insert_ne in Hl by done.
    by eapply lookup_None_weaken. }
  assert (Hxs : Forall (λ a, σ !! a = None) xs) by by rewrite Hp.
  set (test_end := (valid_end + test_count)%Z).
  set (o1 := Corpus (slice None (Some valid_end) xs)).
  set (o2 := Corpus (slice (Some valid_end) (Some test_end) xs)).
  set (o3 := Corpus (slice (Some test_end) None xs)).
  set (σ3 := (alloc σ2 o1).2). set (σ4 := (alloc σ3 o2).2).
  set (σ5 := (alloc σ4 o3).2).
  set (r1 := (alloc σ2 o1).1). set (r2 := (alloc σ3 o2).1).
  set (r3 := (alloc σ4 o3).1).
  assert (H23 : σ2 ⊆ σ3) by apply alloc_subseteq.
  assert (H34 : σ3 ⊆ σ4) by apply alloc_subseteq.
  assert (H45 : σ4 ⊆ σ5) by apply alloc_subseteq.
  assert (F1 : σ2 !! r1 = None) by apply alloc_fresh.
  assert (F2 : σ3 !! r2 = None) by apply alloc_fresh.
  assert (F3 : σ4 !! r3 = None) by apply alloc_fresh.
  assert (L1 : σ3 !! r1 = Some o1) by apply alloc_lookup.
  assert (L2 : σ4 !! r2 = Some o2) by apply alloc_lookup.
  assert (L3 : σ5 !! r3 = Some o3) by apply alloc_lookup.
  assert (Hslice : ∀ lo hi, Forall (λ a, σ !! a = None) (slice lo hi xs)).
  { intros lo hi. unfold slice. by apply Forall_take, Forall_drop. }
  exists r1, r2, r3, σ5. split; [done|]. split.
  - apply NoDup_cons. split.
    + intros [->|[->|?%elem_of_nil]%elem_of_cons]%elem_of_cons; [congruence| |done].
      rewrite (lookup_weaken _ _ _ _ L1 H34) in F3. done.
    + apply NoDup_cons. split; [|apply NoDup_singleton].
      intros ->%list_elem_of_singleton. congruence.
  - repeat constructor.
    + by apply Hsub2.
    + exists (slice None (Some valid_end) xs). split; [|done].
      unfold get_corpus.
      by rewrite (lookup_weaken _ _ _ _ L1 (transitivity H34 H45)).
    + apply Hsub2. by eapply lookup_None_weaken.
    + exists (slice (Some valid_end) (Some test_end) xs). split; [|done].
      unfold get_corpus. by rewrite (lookup_weaken _ _ _ _ L2 H45).
    + apply Hsub2. eapply lookup_None_weaken; [|done]. by etrans.
    + exists (slice (Some test_end) None xs). split; [|done].
      unfold get_corpus. by rewrite L3.
Qed.

Lemma partitions_are_new_objects_witness :
  let σ := (store_of (numbered_corpus 20)).2 in
  let iob_data := (store_of (numbered_corpus 20)).1 in
  (float_count float_0_07 20 = inr 1%Z)
  ∧ ∃ r1 r2 r3 σ',
      build_random_partitions lcg_seed lcg_randbelow iob_data float_0_07
        float_0_07 42 σ = Some (inr (r1, r2, r3), σ')
      ∧ NoDup [r1; r2; r3]
      ∧ Forall (λ r, σ !! r = None
                     ∧ ∃ refs, get_corpus σ' r = Some refs
                               ∧ Forall (λ a, σ !! a = None) refs)
          [r1; r2; r3].
Proof.
  split; [vm_compute; reflexivity|].
  apply (partitions_are_new_objects lcg_seed lcg_randbelow
           (store_of (numbered_corpus 20)).2
           (store_of (numbered_corpus 20)).1
           float_0_07 float_0_07 42 (numbered_corpus 20) 1 1
           lcg_randbelow_lt).
  - vm_compute. reflexivity.
  - vm_compute. reflexivity.
  - vm_compute. reflexivity.
Defined.

(** X30: what [write_iob] leaves in the file for the corpus returned by
    [parse_iob_files] is read back to that corpus exactly when no tag
    holds a newline, that is, unless the [TYPE] of an entity holds one:
    the sentences and the words of a parsed corpus never prevent it. *)
Theorem parsed_corpus_roundtrip (read_file : string → exn + string)
    (fromstring : string → option element)
    (filenames : list string) (verbose : bool) (data : iob)
    (filename : string) (fs : gmap string string) :
  parse_iob_files read_file fromstring filenames verbose = inr data →
  read_iob <$> (write_iob filename data fs).2 !! filename = Some data
  ↔ Forall (Forall (λ p : token_tag, no_newline p.2)) data.
Proof.
  intros H.
  assert (Hwords : Forall (λ sent, sent ≠ []
                             ∧ Forall (λ p : token_tag, word_ok p.1) sent)
                     data).
  { apply (parse_iob_files_Forall read_file fromstring _ _ _ _) with (2 := H).
    intros root _.
    apply tree_groups_Forall; [done|apply Forall_app_2|].
    intros tag attrib text. apply segment_groups_words. }
  rewrite write_iob_text
    by (apply (Forall_impl _ _ _ Hwords); by intros sent [? _]).
  cbn [snd]. rewrite lookup_insert_eq. cbn [fmap option_fmap option_map].
  split.
  - intros [= Hread]. rewrite <- Hread.
    eapply Forall_impl;
      [apply read_blocks_readable;
       [apply (fields_no_delim (λ c, Ascii.eqb c Str.nl))|done]|].
    intros sent [_ Hsent]. simpl in Hsent.
    eapply Forall_impl; [done|]. by intros p [_ ?].
  - intros Htags. f_equal. apply read_iob_text_readable.
    + apply (Forall_impl _ _ _ Hwords). by intros sent [? _].
    + clear H. induction Hwords as [|sent data [_ Hsent] _ IH]; [done|].
      apply Forall_cons in Htags as [Ht Htags].
      constructor; [|by apply IH].
      clear -Hsent Ht. induction Hsent as [|p sent [_ Hp] _ IH]; [done|].
      apply Forall_cons in Ht as [Hp' Ht].
      constructor; [by split|by apply IH].
Qed.

Lemma parsed_corpus_roundtrip_witness :
  parse_iob_files sample_read_file sample_fromstring ["00.name"] true
  = inr sample_iob
  ∧ (read_iob <$> (write_iob "iob.txt" sample_iob ∅).2 !! "iob.txt"
     = Some sample_iob
     ↔ Forall (Forall (λ p : token_tag, no_newline p.2)) sample_iob).
Proof.
  split; [vm_compute; reflexivity|].
  apply (parsed_corpus_roundtrip sample_read_file sample_fromstring
           ["00.name"] true sample_iob "iob.txt" ∅).
  vm_compute; reflexivity.
Defined.

(** * The structural check *)

Section check_lemmas.

Lemma lstrip_by_all p s : Str.all p (Str.lstrip_by p s) = Str.all p s.
Proof.
  induction s as [|c s IH]; [done|]. simpl.
  destruct (p c) eqn:Hc; [done|]. simpl. by rewrite Hc.
Qed.

Lemma rstrip_by_truthy p s :
  Str.truthy (Str.rstrip_by p s) = negb (Str.all p s).
Proof.
  induction s as [|c s IH]; [done|]. simpl. rewrite IH.
  by destruct (p c), (Str.all p s).
Qed.

(** [line.strip()] leaves something exactly of a line that is not
    blank. *)
Lemma strip_ws_truthy line : Str.truthy (Str.strip_ws line) = nonblank line.
Proof.
  unfold Str.strip_ws, Str.strip_by, nonblank.
  by rewrite rstrip_by_truthy, lstrip_by_all.
Qed.

Lemma raw_lines_nonblank raw_data :
  length (raw_lines raw_data) = nonblank_lines raw_data.
Proof.
  unfold raw_lines, nonblank_lines. f_equal.
  apply List.filter_ext. intros line. apply strip_ws_truthy.
Qed.

Lemma digits_value_acc d : ∀ acc,
  digits_value (Zpos acc) (NilEmpty.string_of_uint d)
  = Some (Zpos (Pos.of_uint_acc d acc)).
Proof.
  induction d as [|d IH|d IH|d IH|d IH|d IH|d IH|d IH|d IH|d IH|d IH];
    intros acc; [done|..];
    cbn [NilEmpty.string_of_uint digits_value Pos.of_uint_acc];
    rewrite <- IH; vm_compute digit_value; f_equal; lia.
Qed.

Lemma digits_value_uint d :
  digits_value 0 (NilEmpty.string_of_uint d) = Some (Z.of_N (Pos.of_uint d)).
Proof.
  induction d as [|d IH|d IH|d IH|d IH|d IH|d IH|d IH|d IH|d IH|d IH];
    [done|apply IH|..];
    cbn [NilEmpty.string_of_uint digits_value Pos.of_uint];
    vm_compute digit_value; cbn [Z.mul Z.add]; apply digits_value_acc.
Qed.

Lemma to_uint_not_Nil p : Pos.to_uint p ≠ Decimal.Nil.
Proof.
  intros E. pose proof (Unsigned.of_to p) as Hp. by rewrite E in Hp.
Qed.

Lemma string_of_uint_digits d :
  d ≠ Decimal.Nil →
  NilZero.string_of_uint d = NilEmpty.string_of_uint d
  ∧ Str.truthy (NilEmpty.string_of_uint d) = true
  ∧ numeral_value (NilEmpty.string_of_uint d)
    = digits_value 0 (NilEmpty.string_of_uint d).
Proof. by destruct d. Qed.

(** [str(n)] is a decimal numeral of [n]. *)
Lemma numeral_value_str_of_int n : numeral_value (str_of_int n) = Some n.
Proof.
  unfold str_of_int. destruct n as [|p|p]; [done|..];
    cbn [Z.to_int NilZero.string_of_int];
    destruct (string_of_uint_digits _ (to_uint_not_Nil p)) as (-> & Ht & Hn).
  - by rewrite Hn, digits_value_uint, Unsigned.of_to.
  - cbn [numeral_value]. change (Ascii.eqb "-" "-") with true. cbv iota.
    by rewrite Ht, digits_value_uint, Unsigned.of_to.
Qed.

End check_lemmas.

(** C4, as worded: a document is rejected with the mismatch error exactly
    when its sentences are not as many as its non-empty raw lines minus 2.
    It fails on a document with a line of one space: four lines are not
    empty, which would ask for two sentences, and the document is accepted
    with its one sentence, because the line of one space is not counted. *)
Lemma mismatch_iff_nonempty_lines_fails : ¬ mismatch_iff_nonempty_lines.
Proof.
  intros H.
  destruct (H (λ _, inr sample_raw_blank) (λ _, Some sample_doc_blank)
              "04.name" sample_raw_blank sample_doc_blank
              eq_refl eq_refl) as [_ Hraise].
  destruct Hraise as (msg & Hmsg & _); [by vm_compute|].
  vm_compute in Hmsg. discriminate.
Qed.

(** C4, amended: for every document that is read and parsed, with the raw
    lines counted when they are not blank (a line of whitespace only is
    not counted, as [line.strip()] tests it): a document with a malformed
    entity is rejected with [KeyError]; any other document is rejected
    with a [RuntimeError], whose message names the file and holds the
    decimal numerals of both counts, exactly when the number of non-empty
    sentences differs from the number of non-blank raw lines minus 2, and
    is accepted with its non-empty sentences exactly when the two agree;
    in particular with five non-blank lines, three sentences pass and four
    raise the error that reads 4 and 3. *)
Theorem structural_mismatch_nonblank (read_file : string → exn + string)
    (fromstring : string → option element)
    (filename raw_data : string) (et_root : element) :
  read_file filename = inr raw_data →
  fromstring raw_data = Some et_root →
  let sentences := List.filter nonempty (final (xml2iob et_root [[]])) in
  let nsent := Z.of_nat (length sentences) in
  let nraw_sent := (Z.of_nat (nonblank_lines raw_data) - 2)%Z in
  let outcome := parse_iob_file read_file fromstring filename in
  (malformed_in et_root → outcome = inl (KeyError "TYPE"))
  ∧ (¬ malformed_in et_root →
     ((∃ msg, outcome = inl (RuntimeError msg)
              ∧ names_file_and_counts msg filename nsent nraw_sent)
      ↔ nsent ≠ nraw_sent)
     ∧ (outcome = inr sentences ↔ nsent = nraw_sent)
     ∧ (nonblank_lines raw_data = 5%nat →
        (nsent = 3%Z → outcome = inr sentences)
        ∧ (nsent = 4%Z →
           outcome
           = inl (RuntimeError
                    ("Parsed sentences `4` does not match number of lines `3` in `"
                     +:+ filename +:+ "`"))))).
Proof.
  intros Hread Hparse sentences nsent nraw_sent outcome.
  pose proof (xml2iob_run et_root [] []) as Hrun. split.
  - intros Hbad. rewrite (malformed_not_typed _ Hbad) in Hrun.
    unfold outcome, parse_iob_file. rewrite Hread, Hparse.
    simpl in Hrun. by rewrite Hrun.
  - intros Hgood.
    destruct (typed_ok et_root) eqn:Hok;
      [|by destruct Hgood; apply not_typed_malformed].
    destruct Hrun as (ds' & s' & [Hr _] & _). simpl in Hr.
    assert (Hcases :
      (nsent = nraw_sent ∧ outcome = inr sentences)
      ∨ (nsent ≠ nraw_sent
         ∧ outcome
           = inl (RuntimeError
                    (mismatch_message nsent nraw_sent filename)))).
    { unfold outcome, parse_iob_file. rewrite Hread, Hparse, Hr.
      cbv zeta. rewrite raw_lines_nonblank. fold sentences nsent nraw_sent.
      destruct (nsent =? nraw_sent)%Z eqn:Heq; simpl.
      - apply Z.eqb_eq in Heq. by left.
      - apply Z.eqb_neq in Heq. by right. }
    destruct Hcases as [[Heq Hout]|[Hneq Hout]]; rewrite Hout.
    + split; [|split].
      * split; [by intros (msg & Hmsg & _)|done].
      * done.
      * intros H5. split; [done|]. intros H4. exfalso.
        unfold nraw_sent in Heq. lia.
    + split; [|split].
      * split; [done|]. intros _. eexists. split; [done|].
        exists (str_of_int nsent), (str_of_int nraw_sent).
        split; [done|]. split; apply numeral_value_str_of_int.
      * split; [done|]. intros ->. done.
      * intros H5. split; [intros H3; exfalso; unfold nraw_sent in Hneq; lia|].
        intros H4. unfold nraw_sent. rewrite H4, H5. done.
Qed.

Lemma structural_mismatch_nonblank_witness :
  let sentences := List.filter nonempty (final (xml2iob sample_doc [[]])) in
  let nsent := Z.of_nat (length sentences) in
  let nraw_sent := (Z.of_nat (nonblank_lines sample_raw) - 2)%Z in
  let outcome := parse_iob_file sample_read_file sample_fromstring "00.name" in
  (sample_read_file "00.name" = inr sample_raw
   ∧ sample_fromstring sample_raw = Some sample_doc
   ∧ nonblank_lines sample_raw = 5%nat ∧ nsent = 3%Z)
  ∧ (malformed_in sample_doc → outcome = inl (KeyError "TYPE"))
  ∧ (¬ malformed_in sample_doc →
     ((∃ msg, outcome = inl (RuntimeError msg)
              ∧ names_file_and_counts msg "00.name" nsent nraw_sent)
      ↔ nsent ≠ nraw_sent)
     ∧ (outcome = inr sentences ↔ nsent = nraw_sent)
     ∧ (nonblank_lines sample_raw = 5%nat →
        (nsent = 3%Z → outcome = inr sentences)
        ∧ (nsent = 4%Z →
           outcome
           = inl (RuntimeError
                    ("Parsed sentences `4` does not match number of lines `3` in `"
                     +:+ "00.name" +:+ "`"))))).
Proof.
  split; [by vm_compute|].
  apply (structural_mismatch_nonblank sample_read_file sample_fromstring
           "00.name" sample_raw sample_doc).
  - reflexivity.
  - reflexivity.
Defined.
